(** * flavio: parameter data loaders and the bag-parameter conversion factor

    A shallow embedding of [flavio/parameters.py] and of
    [flavio/physics/mesonmixing/common.py].

    Conventions of the embedding.
    - Python floats are modelled as real numbers ([R]): arithmetic is exact,
      rounding is outside the model.  Operations that raise in Python
      ([math.sqrt] of a negative number, division by zero) are fallible here.
    - Python exceptions are values of [exn]; a computation that may raise
      returns [result A] (pure code) or runs in the monad [M] (code that
      mutates the parameter registry or the constraints object).  A raise
      keeps the state reached so far, as a raise in Python does.
    - Python strings are [string]; a character is a code point below 256. *)

From Stdlib Require Import Reals Lra Ascii String.
From stdpp Require Import gmap strings list.

Set Default Proof Using "Type".

(** ** Exceptions and the two monads *)

Inductive exn : Type :=
  | KeyError
  | ValueError
  | IndexError
  | TypeError
  | AssertionError
  | ZeroDivisionError
  | UnboundLocalError
  | LibraryError (tag : string).

Definition result (A : Type) : Type := (exn + A)%type.

Definition ok {A} (a : A) : result A := inr a.
Definition raise {A} (e : exn) : result A := inl e.

Definition rbind {A B} (c : result A) (k : A -> result B) : result B :=
  match c with
  | inl e => inl e
  | inr a => k a
  end.

Declare Scope res_scope.
Delimit Scope res_scope with res.
Notation "x <- c ;; k" := (rbind c (fun x => k))
  (at level 100, c at next level, right associativity) : res_scope.

(** ** Floats as reals *)

Definition Reqb (x y : R) : bool := if Req_dec_T x y then true else false.
Definition Rltb (x y : R) : bool := if Rlt_dec x y then true else false.

(** [math.sqrt]: raises [ValueError] ("math domain error") below zero. *)
Definition math_sqrt (x : R) : result R :=
  if Rltb x 0 then raise ValueError else ok (sqrt x).

(** [x / y] on floats: raises [ZeroDivisionError] when [y] is zero. *)
Definition float_div (x y : R) : result R :=
  if Reqb y 0 then raise ZeroDivisionError else ok (x / y)%R.

(** ** [flavio/physics/mesonmixing/common.py] *)

Module Common.
Section BagFactor.

(** Python's [**] on floats is taken as a parameter: for a negative base
    and a fractional exponent it leaves the reals, for a zero base and a
    negative exponent it raises. *)
Variable float_pow : R -> R -> result R.

Definition meson_quark : list (string * string) :=
  [("B0", "bd"); ("Bs", "bs"); ("K0", "sd"); ("D0", "cu")]%string.

(** The values the local [J] takes: the empty dict it is initialised with,
    or a float. *)
Inductive J_value : Type :=
  | J_dict
  | J_float (x : R).

(** The local variables [J] and [g] after the [if]/[elif]: [g] is bound only
    in the two branches. *)
Definition bag_locals (meson : string) : J_value * option R :=
  if bool_decide (meson ∈ ["B0"; "Bs"]%string) then
    (J_float (5165 / 3174)%R, Some (6 / 23)%R)
  else if bool_decide (meson = "K0"%string) then
    (J_float (307 / 162)%R, Some (2 / 9)%R)
  else (J_dict, None).

(** Reading a local variable that was never assigned. *)
Definition load_local {A} (v : option A) : result A :=
  match v with
  | Some a => ok a
  | None => raise UnboundLocalError
  end.

(** [return alpha_s**(-g) * (1 + alpha_s/(4*pi) * J)]: the left factor is
    evaluated first, so [g] is read before [J]. *)
Definition bag_msbar2rgi (alpha_s : R) (meson : string) : result R :=
  let '(J, g) := bag_locals meson in
  (g' <- load_local g ;;
   p <- float_pow alpha_s (- g') ;;
   match J with
   | J_float j => ok (p * (1 + alpha_s / (4 * PI) * j))%R
   | J_dict => raise TypeError
   end)%res.

End BagFactor.
End Common.

(** ** Python strings *)

Module Str.

(** [str.isspace] on one character (code points below 256). *)
Definition is_space (c : ascii) : bool :=
  let n := nat_of_ascii c in
  ((9 <=? n) && (n <=? 13)) || ((28 <=? n) && (n <=? 32))
  || (n =? 133) || (n =? 160).

Definition is_empty (s : string) : bool :=
  match s with
  | EmptyString => true
  | String _ _ => false
  end.

Fixpoint lstrip (s : string) : string :=
  match s with
  | EmptyString => EmptyString
  | String c s' => if is_space c then lstrip s' else s
  end.

Fixpoint rstrip (s : string) : string :=
  match s with
  | EmptyString => EmptyString
  | String c s' =>
      let r := rstrip s' in
      if is_empty r && is_space c then EmptyString else String c r
  end.

(** [s.strip()] *)
Definition strip (s : string) : string := rstrip (lstrip s).

(** [s[a:b]] for [0 <= a <= b]: clipped to the string, never raises. *)
Definition slice (a b : nat) (s : string) : string :=
  String.substring a (b - a) s.

(** [s[i]]: raises [IndexError] out of range. *)
Definition index (s : string) (i : nat) : result ascii :=
  match String.get i s with
  | Some c => ok c
  | None => raise IndexError
  end.

Definition push_word (w : string) (ws : list string) : list string :=
  if is_empty w then ws else w :: ws.

(** The word being read at the front of [s], and the words after it. *)
Fixpoint words (s : string) : string * list string :=
  match s with
  | EmptyString => (EmptyString, [])
  | String c s' =>
      let '(w, ws) := words s' in
      if is_space c then (EmptyString, push_word w ws) else (String c w, ws)
  end.

(** [s.split()]: the maximal runs of non-whitespace characters. *)
Definition split (s : string) : list string :=
  let '(w, ws) := words s in push_word w ws.

Fixpoint fields (sep : ascii) (s : string) : string * list string :=
  match s with
  | EmptyString => (EmptyString, [])
  | String c s' =>
      let '(w, ws) := fields sep s' in
      if Ascii.eqb c sep then (EmptyString, w :: ws) else (String c w, ws)
  end.

(** [s.split(sep)] for a one-character separator: empty fields are kept. *)
Definition split_on (sep : ascii) (s : string) : list string :=
  let '(w, ws) := fields sep s in w :: ws.

End Str.

(** [l[i]] on a list: raises [IndexError] out of range. *)
Definition list_index {A} (l : list A) (i : nat) : result A :=
  match l !! i with
  | Some a => ok a
  | None => raise IndexError
  end.

(** ** Python dicts that are iterated: insertion-ordered association lists *)

Module Dict.

Definition t (V : Type) : Type := list (string * V).

Fixpoint get {V} (k : string) (d : t V) : option V :=
  match d with
  | [] => None
  | (k', v) :: d' => if String.eqb k k' then Some v else get k d'
  end.

(** [d[k] = v]: an existing key keeps its position, a new key goes last. *)
Fixpoint set {V} (k : string) (v : V) (d : t V) : t V :=
  match d with
  | [] => [(k, v)]
  | (k', v') :: d' =>
      if String.eqb k k' then (k, v) :: d' else (k', v') :: set k v d'
  end.

(** [d.update(e)], and the dict built by a comprehension yielding the
    pairs of [e] in order. *)
Definition update {V} (d e : t V) : t V :=
  fold_left (fun acc kv => set kv.1 kv.2 acc) e d.

Definition of_items {V} (e : list (string * V)) : t V := update [] e.

(** [d[k]]: raises [KeyError] on a missing key. *)
Definition getitem {V} (k : string) (d : t V) : result V :=
  match get k d with
  | Some v => ok v
  | None => raise KeyError
  end.

(** [d.get(k, default)] *)
Definition get_default {V} (k : string) (default : V) (d : t V) : V :=
  match get k d with
  | Some v => v
  | None => default
  end.

End Dict.

(** ** The part of numpy the loaders use: 2-D float arrays as lists of rows *)

Module Np.

Definition matrix : Type := list (list R).

Fixpoint mapM {A B} (f : A -> result B) (l : list A) : result (list B) :=
  match l with
  | [] => ok []
  | a :: l' => (b <- f a ;; bs <- mapM f l' ;; ok (b :: bs))%res
  end.

Fixpoint zipM {A B C} (f : A -> B -> result C) (l1 : list A) (l2 : list B)
  : result (list C) :=
  match l1, l2 with
  | a :: l1', b :: l2' =>
      (c <- f a b ;; cs <- zipM f l1' l2' ;; ok (c :: cs))%res
  | _, _ => ok []
  end.

(** Broadcasting along one axis: equal lengths pair up, a length of one is
    stretched, anything else raises [ValueError]. *)
Definition broadcast {A B C} (f : A -> B -> result C)
    (l1 : list A) (l2 : list B) : result (list C) :=
  if length l1 =? length l2 then zipM f l1 l2
  else match l1, l2 with
       | [a], _ => mapM (f a) l2
       | _, [b] => mapM (fun a => f a b) l1
       | _, _ => raise ValueError
       end.

(** [A op B] for 2-D arrays. *)
Definition elementwise (op : R -> R -> R) (A B : matrix) : result matrix :=
  broadcast (broadcast (fun x y => ok (op x y))) A B.

Definition mul : matrix -> matrix -> result matrix := elementwise Rmult.
Definition sub : matrix -> matrix -> result matrix := elementwise Rminus.
Definition add : matrix -> matrix -> result matrix := elementwise Rplus.

(** [A * a] for a scalar [a]. *)
Definition scale (A : matrix) (a : R) : matrix :=
  map (map (fun x => x * a)%R) A.

(** [np.outer(u, v)] *)
Definition outer (u v : list R) : matrix :=
  map (fun x => map (fun y => x * y)%R v) u.

(** [np.eye(n)] *)
Definition eye (n : nat) : matrix :=
  map (fun i => map (fun j => if i =? j then 1%R else 0%R) (seq 0 n)) (seq 0 n).

(** [np.all(v > 0)] *)
Definition all_positive (v : list R) : bool := forallb (Rltb 0) v.

(** An array of [r] rows of [c] entries. *)
Definition has_shape (r c : nat) (A : matrix) : Prop :=
  length A = r /\ Forall (fun row => length row = c) A.

(** An array of [n] rows of [n] entries. *)
Definition is_square (n : nat) (A : matrix) : bool :=
  (length A =? n) && forallb (fun row => length row =? n) A.

End Np.

(** ** [flavio/parameters.py] *)

(** The structure [errors_from_string] returns. *)
Record error_dict : Type := mk_error_dict {
  central_value : R;
  symmetric_errors : list R;
  asymmetric_errors : list (R * R)
}.

(** Modelled from the spec: the metadata of a [Parameter] of
    [flavio.classes], an optional description and an optional display label,
    both empty on a new parameter.  ([Parameter] is a reserved word of the
    proof assistant, hence the lower case.) *)
Record parameter : Type := mk_parameter {
  description : option string;
  tex : option string
}.

Definition new_parameter : parameter :=
  {| description := None; tex := None |}.

(** What the loaders call and is defined elsewhere: the YAML and numpy
    libraries, the builtin [float], and the modules [flavio.classes],
    [flavio.statistics.probability], [flavio._parse_errors] and
    [flavio.measurements].  The methods of [ParameterConstraints] update the
    object in place; here they return the updated object, or the exception
    they raise, in which case the object is as before. *)
Class Collaborators : Type := {
  yaml_value : Type;
  Distribution : Type;
  ParameterConstraints : Type;
  errors_from_string : yaml_value -> result error_dict;
  _fix_correlation_matrix : yaml_value -> nat -> result Np.matrix;
  np_linalg_eigvals : Np.matrix -> list R;
  NormalDistribution : R -> R -> result Distribution;
  AsymmetricNormalDistribution : R -> R -> R -> result Distribution;
  MultivariateNormalDistribution : list R -> Np.matrix -> result Distribution;
  set_constraint :
    string -> yaml_value -> ParameterConstraints -> result ParameterConstraints;
  add_constraint :
    list string -> Distribution -> ParameterConstraints ->
    result ParameterConstraints;
  remove_constraint :
    string -> ParameterConstraints -> result ParameterConstraints;
  float : string -> result R;
  _pdg_particle_string_to_tex : string -> string
}.

Section Loaders.
Context `{C : Collaborators}.

(** The mutable state the loaders act on: the process-wide registry of
    parameters, and the [constraints] object they are handed. *)
Record world : Type := mk_world {
  registry : gmap string parameter;
  constraints : ParameterConstraints
}.

Definition M (A : Type) : Type := world -> result A * world.

Definition mret {A} (a : A) : M A := fun w => (ok a, w).

Definition mbind {A B} (c : M A) (k : A -> M B) : M B :=
  fun w =>
    match c w with
    | (inl e, w') => (inl e, w')
    | (inr a, w') => k a w'
    end.

Definition lift {A} (r : result A) : M A := fun w => (r, w).

Declare Scope py_scope.
Delimit Scope py_scope with py.
Notation "x <- c ;; k" := (mbind c (fun x => k))
  (at level 100, c at next level, right associativity) : py_scope.
Notation "c1 ;;; c2" := (mbind c1 (fun _ => c2))
  (at level 100, right associativity) : py_scope.

(** [for x in xs: body(x)] *)
Fixpoint for_each {A} (xs : list A) (body : A -> M unit) : M unit :=
  match xs with
  | [] => mret tt
  | x :: xs' => (body x ;;; for_each xs' body)%py
  end.

(** [try: body / except KeyError: handler]: the handler starts from the
    state the body had reached when it raised. *)
Definition try_except_KeyError {A} (body handler : M A) : M A :=
  fun w =>
    match body w with
    | (inl KeyError, w') => handler w'
    | r => r
    end.

(** A method of the [constraints] object. *)
Definition on_constraints
    (method : ParameterConstraints -> result ParameterConstraints) : M unit :=
  fun w =>
    match method (constraints w) with
    | inl e => (inl e, w)
    | inr c => (ok tt, {| registry := registry w; constraints := c |})
    end.

(** Modelled from the spec: [Parameter(name)] of [flavio.classes] returns the
    instance registered under [name], or creates and registers a new one with
    empty metadata; it never fails.  The instance is referred to by its
    name. *)
Definition Parameter_call (name : string) : M unit :=
  fun w =>
    match registry w !! name with
    | Some _ => (ok tt, w)
    | None =>
        (ok tt, {| registry := <[name := new_parameter]> (registry w);
                   constraints := constraints w |})
    end.

(** Modelled from the spec: [Parameter[name]] of [flavio.classes] looks the
    name up in the registry and fails (a [KeyError], the exception [read_pdg]
    catches) on a name that was never registered. *)
Definition Parameter_getitem (name : string) : M unit :=
  fun w =>
    match registry w !! name with
    | Some _ => (ok tt, w)
    | None => (raise KeyError, w)
    end.

(** [p.description = d] and [p.tex = t] on the instance registered as
    [name]. *)
Definition set_description (name d : string) : M unit :=
  fun w =>
    (ok tt,
     {| registry :=
          alter (fun p => {| description := Some d; tex := tex p |}) name
                (registry w);
        constraints := constraints w |}).

Definition set_tex (name t : string) : M unit :=
  fun w =>
    (ok tt,
     {| registry :=
          alter (fun p => {| description := description p; tex := Some t |})
                name (registry w);
        constraints := constraints w |}).

(** *** Metadata and uncorrelated values *)

(** The loaders take the document [yaml.load] returns: a mapping in document
    order.  An [info] maps a key to its value, [None] for a YAML null.  The
    body of each [for] loop is a function of its own. *)
Definition read_metadata_entry
    (entry : string * gmap string (option string)) : M unit :=
  let '(parameter_name, info) := entry in
  (Parameter_call parameter_name ;;;
   match info !! "description" with
   | Some (Some d) => set_description parameter_name d
   | _ => mret tt
   end ;;;
   match info !! "tex" with
   | Some (Some t) => set_tex parameter_name t
   | _ => mret tt
   end)%py.

Definition _read_yaml_object_metadata
    (parameters : list (string * gmap string (option string))) : M unit :=
  for_each parameters read_metadata_entry.

(** In the words of the spec: the metadata an entry leaves on a parameter
    that had [p], its description and its label when present and not null. *)
Definition with_info (info : gmap string (option string)) (p : parameter)
  : parameter :=
  {| description :=
       match info !! "description" with
       | Some (Some d) => Some d
       | _ => description p
       end;
     tex :=
       match info !! "tex" with
       | Some (Some t) => Some t
       | _ => tex p
       end |}.

Definition read_value_entry (entry : string * yaml_value) : M unit :=
  let '(parameter_name, value) := entry in
  (Parameter_getitem parameter_name ;;;
   on_constraints (set_constraint parameter_name value))%py.

Definition _read_yaml_object_values
    (parameters : list (string * yaml_value)) : M unit :=
  for_each parameters read_value_entry.

(** *** Correlated values *)

(** The two inner loops and the square root of one entry of a group. *)
Definition combined_error (error_dict : error_dict) : result R :=
  let squared_error := 0%R in
  let squared_error :=
    fold_left (fun acc sym_err => acc + sym_err ^ 2)%R
              (symmetric_errors error_dict) squared_error in
  let squared_error :=
    fold_left (fun acc asym_err => acc + asym_err.1 * asym_err.2)%R
              (asymmetric_errors error_dict) squared_error in
  math_sqrt squared_error.

(** The locals [parameter_names], [central_values] and [errors]. *)
Record group_lists : Type := mk_group_lists {
  parameter_names : list string;
  central_values : list R;
  errors : list R
}.

(** One round of [for dict_list in parameter_group['values']]; [dict_list]
    is given by its items. *)
Definition read_group_entry (acc : group_lists)
    (dict_list : list (string * yaml_value)) : M group_lists :=
  (item <- lift (list_index dict_list 0) ;;
   let '(parameter_name, value) := item in
   Parameter_getitem parameter_name ;;;
   error_dict <- lift (errors_from_string value) ;;
   error <- lift (combined_error error_dict) ;;
   mret {| parameter_names := parameter_names acc ++ [parameter_name];
           central_values := central_values acc ++ [central_value error_dict];
           errors := errors acc ++ [error] |})%py.

Fixpoint read_group_entries (acc : group_lists)
    (values : list (list (string * yaml_value))) : M group_lists :=
  match values with
  | [] => mret acc
  | dict_list :: values' =>
      (acc' <- read_group_entry acc dict_list ;;
       read_group_entries acc' values')%py
  end.

(** [np.outer(np.asarray(errors), np.asarray(errors)) * correlation] *)
Definition covariance_of (errors : list R) (correlation : Np.matrix)
  : result Np.matrix :=
  Np.mul (Np.outer errors errors) correlation.

(** [np.all(np.linalg.eigvals(covariance) > 0)] *)
Definition positive_definite (covariance : Np.matrix) : bool :=
  Np.all_positive (np_linalg_eigvals covariance).

(** [(correlation - np.eye(n_dim))*0.99 + np.eye(n_dim)] *)
Definition damped (correlation : Np.matrix) : result Np.matrix :=
  let n_dim := length correlation in
  (d <- Np.sub correlation (Np.eye n_dim) ;;
   Np.add (Np.scale d 0.99) (Np.eye n_dim))%res.

(** Lines 60 to 68: the covariance handed to the distribution. *)
Definition checked_covariance (errors : list R) (correlation : Np.matrix)
  : result Np.matrix :=
  (covariance <- covariance_of errors correlation ;;
   if negb (positive_definite covariance) then
     correlation' <- damped correlation ;;
     covariance' <- covariance_of errors correlation' ;;
     if positive_definite covariance' then ok covariance'
     else raise AssertionError
   else ok covariance)%res.

Record parameter_group : Type := mk_parameter_group {
  group_values : list (list (string * yaml_value));
  group_correlation : yaml_value
}.

Definition read_parameter_group (parameter_group : parameter_group) : M unit :=
  (lists <- read_group_entries
              {| parameter_names := []; central_values := []; errors := [] |}
              (group_values parameter_group) ;;
   correlation <- lift (_fix_correlation_matrix
                          (group_correlation parameter_group)
                          (length (parameter_names lists))) ;;
   covariance <- lift (checked_covariance (errors lists) correlation) ;;
   distribution <- lift (MultivariateNormalDistribution
                           (central_values lists) covariance) ;;
   on_constraints (add_constraint (parameter_names lists) distribution))%py.

Definition _read_yaml_object_values_correlated
    (list_ : list parameter_group) : M unit :=
  for_each list_ read_parameter_group.

(** *** The PDG mass and width table *)

Definition pdg_include : list string :=
  ["B(s)"; "B(c)"; "B(s)*"; "B*+"; "B*0"; "B+"; "B0"; "D(s)"; "D(s)*"; "D+";
   "D0"; "H"; "J/psi(1S)"; "K(L)"; "K(S)"; "K*(892)+"; "K*(892)0"; "K+"; "K0";
   "Lambda"; "Lambda(b)"; "Lambda(c)"; "omega(782)"; "D*(2007)"; "D*(2010)";
   "W"; "Z"; "b"; "c"; "d"; "e"; "eta"; "f(0)(980)";
   "mu"; "phi(1020)"; "pi+"; "pi0"; "psi(2S)"; "rho(770)+"; "rho(770)0";
   "s"; "t"; "tau"; "u"].

Definition pdg_translate : Dict.t string :=
  [("B(s)", "Bs"); ("B(c)", "Bc"); ("D(s)", "Ds"); ("B(s)*", "Bs*");
   ("D(s)*", "Ds*"); ("D*(2007)", "D*0"); ("D*(2010)", "D*+");
   ("J/psi(1S)", "J/psi"); ("K(L)", "KL"); ("K(S)", "KS");
   ("K*(892)+", "K*+"); ("K*(892)0", "K*0"); ("phi(1020)", "phi");
   ("rho(770)0", "rho0"); ("rho(770)+", "rho+"); ("f(0)(980)", "f0");
   ("eta'(958)", "eta'"); ("omega(782)", "omega"); ("Lambda(b)", "Lambdab");
   ("Lambda(c)", "Lambdac"); ("Higgs", "h"); ("H", "h")].

(** The dictionary kept for one particle: keys [id], [mass], [charge],
    [width] and [name]. *)
Record particle : Type := mk_particle {
  particle_id : string;
  particle_mass : R * R * R;
  particle_charge : string;
  particle_width : R * R * R;
  particle_name : string
}.

(** [[float(x) for x in (a, b, c)]] *)
Definition float3 (a b c : string) : result (R * R * R) :=
  (x <- float a ;; y <- float b ;; z <- float c ;; ok (x, y, z))%res.

(** [for i, id_ in enumerate(ids)], from index [i] on. *)
Fixpoint add_particles (line : string) (mass width : R * R * R)
    (charges : list string) (i : nat) (ids : list string)
    (particles_by_name : Dict.t (Dict.t particle))
  : result (Dict.t (Dict.t particle)) :=
  match ids with
  | [] => ok particles_by_name
  | id_ :: ids' =>
      (charge <- list_index charges i ;;
       let particle_charge := Str.strip charge in
       particle_name <- list_index (Str.split (Str.slice 107 128 line)) 0 ;;
       let particle :=
         [(particle_charge,
           {| particle_id := Str.strip id_;
              particle_mass := mass;
              particle_charge := particle_charge;
              particle_width := width;
              particle_name := particle_name |})] in
       add_particles line mass width charges (S i) ids'
         match Dict.get particle_name particles_by_name with
         | Some existing =>
             Dict.set particle_name (Dict.update existing particle)
                      particles_by_name
         | None => Dict.set particle_name particle particles_by_name
         end)%res
  end.

(** The width columns of a line: [(0, 0, 0)] when the first is blank. *)
Definition read_width (line : string) : result (R * R * R) :=
  if Str.is_empty (Str.strip (Str.slice 70 88 line)) then ok (0, 0, 0)%R
  else float3 (Str.slice 70 88 line) (Str.slice 89 97 line)
              (Str.slice 98 106 line).

(** One round of [for line in lines]. *)
Definition read_masswidth_line
    (particles_by_name : Dict.t (Dict.t particle)) (line : string)
  : result (Dict.t (Dict.t particle)) :=
  (first <- Str.index (Str.strip line) 0 ;;
   if Ascii.eqb first "*" then ok particles_by_name
   else
     mass <- float3 (Str.slice 33 51 line) (Str.slice 52 60 line)
                    (Str.slice 61 69 line) ;;
     width <- read_width line ;;
     let ids := Str.split (Str.slice 0 32 line) in
     charge_list <- list_index (Str.split (Str.slice 107 128 line)) 1 ;;
     let charges := Str.split_on "," charge_list in
     if negb (length ids =? length charges) then raise ValueError
     else add_particles line mass width charges 0 ids particles_by_name)%res.

Fixpoint read_masswidth_lines
    (particles_by_name : Dict.t (Dict.t particle)) (lines : list string)
  : result (Dict.t (Dict.t particle)) :=
  match lines with
  | [] => ok particles_by_name
  | line :: lines' =>
      (particles_by_name' <- read_masswidth_line particles_by_name line ;;
       read_masswidth_lines particles_by_name' lines')%res
  end.

(** The two comprehensions: names with several charges get the charge
    appended, names with one charge stand alone. *)
Definition masswidth_result (particles_by_name : Dict.t (Dict.t particle))
  : Dict.t particle :=
  let result :=
    Dict.of_items
      (flat_map (fun '(k, v) =>
         flat_map (fun '(kk, vv) =>
           if 1 <? length v then [(k +:+ kk, vv)] else []) v)
         particles_by_name) in
  Dict.update result
    (flat_map (fun '(k, v) =>
       if length v =? 1 then
         match v with
         | (_, vv) :: _ => [(k, vv)]
         | [] => []
         end
       else [])
       particles_by_name).

(** [_read_pdg_masswidth], from the lines of the decoded data file on. *)
Definition _read_pdg_masswidth (lines : list string) : result (Dict.t particle) :=
  (particles_by_name <- read_masswidth_lines [] lines ;;
   ok (masswidth_result particles_by_name))%res.

(** The [try]/[except KeyError] block [read_pdg] has twice. *)
Definition existing_or_new (parameter_name : string) : M unit :=
  try_except_KeyError
    (Parameter_getitem parameter_name ;;;
     on_constraints (remove_constraint parameter_name))%py
    (Parameter_call parameter_name).

(** Lines 225 to 233: the distribution of a mass
    [(m_central, m_right, m_left)]. *)
Definition mass_distribution (mass : R * R * R) : result Distribution :=
  let '(m_central, m_right, m_left) := mass in
  let m_left := Rabs m_left in
  if Reqb m_right m_left then NormalDistribution m_central m_right
  else AsymmetricNormalDistribution m_central m_right m_left.

(** Lines 236, 237 and 248 to 250: central value, right and left error of the
    lifetime for the width [(G_central, G_right, G_left)]. *)
Definition lifetime_errors (width : R * R * R) : result (R * R * R) :=
  let '(G_central, G_right, G_left) := width in
  let G_left := Rabs G_left in
  (tau_central <- float_div 1 G_central ;;
   tau_left <- float_div G_left (G_central ^ 2) ;;
   tau_right <- float_div G_right (G_central ^ 2) ;;
   ok (tau_central, tau_right, tau_left))%res.

(** Lines 251 to 257: the distribution of the lifetime; the arguments of
    [AsymmetricNormalDistribution] are the central value, [right_deviation]
    and [left_deviation]. *)
Definition lifetime_distribution (width : R * R * R) : result Distribution :=
  (taus <- lifetime_errors width ;;
   let '(tau_central, tau_right, tau_left) := taus in
   if Reqb tau_left tau_right then NormalDistribution tau_central tau_right
   else AsymmetricNormalDistribution tau_central tau_right tau_left)%res.

(** Lines 205 to 233: the mass of one particle. *)
Definition read_pdg_mass (particles : Dict.t particle) (particle : string)
  : M unit :=
  let parameter_name := "m_" +:+ Dict.get_default particle particle pdg_translate in
  let tex_name := _pdg_particle_string_to_tex particle in
  (existing_or_new parameter_name ;;;
   set_tex parameter_name ("$m_{" +:+ tex_name +:+ "}$") ;;;
   (if bool_decide (tex_name = "b" \/ tex_name = "c") then
      set_tex parameter_name
        ("$m_{" +:+ tex_name +:+ "}(m_{" +:+ tex_name +:+ "})$") ;;;
      set_description parameter_name
        ("$" +:+ tex_name
         +:+ "$ quark mass in the $\overline{\text{MS}}$ scheme at the scale $m_"
         +:+ tex_name +:+ "$")
    else if bool_decide (tex_name = "s" \/ tex_name = "u" \/ tex_name = "d") then
      set_tex parameter_name ("$m_{" +:+ tex_name +:+ "}(2\,\text{GeV})$") ;;;
      set_description parameter_name
        ("$" +:+ tex_name
         +:+ "$ quark mass in the $\overline{\text{MS}}$ scheme at 2 GeV")
    else if bool_decide (tex_name = "t") then
      set_description parameter_name ("$" +:+ tex_name +:+ "$ quark pole mass")
    else
      set_description parameter_name ("$" +:+ tex_name +:+ "$ mass")) ;;;
   entry <- lift (Dict.getitem particle particles) ;;
   distribution <- lift (mass_distribution (particle_mass entry)) ;;
   on_constraints (add_constraint [parameter_name] distribution))%py.

(** Lines 236 to 257: the lifetime of one particle of the given width. *)
Definition read_pdg_lifetime (particle : string) (width : R * R * R)
  : M unit :=
  let tex_name := _pdg_particle_string_to_tex particle in
  let parameter_name :=
    "tau_" +:+ Dict.get_default particle particle pdg_translate in
  (existing_or_new parameter_name ;;;
   set_tex parameter_name ("$\tau_{" +:+ tex_name +:+ "}$") ;;;
   set_description parameter_name ("$" +:+ tex_name +:+ "$ lifetime") ;;;
   distribution <- lift (lifetime_distribution width) ;;
   on_constraints (add_constraint [parameter_name] distribution))%py.

(** One round of [for particle in pdg_include]. *)
Definition read_pdg_particle (particles : Dict.t particle) (particle : string)
  : M unit :=
  (read_pdg_mass particles particle ;;;
   entry <- lift (Dict.getitem particle particles) ;;
   if Reqb (particle_width entry).1.1 0 then mret tt
   else read_pdg_lifetime particle (particle_width entry))%py.

(** [read_pdg], from the lines of the data file of the year on. *)
Definition read_pdg (lines : list string) : M unit :=
  (particles <- lift (_read_pdg_masswidth lines) ;;
   for_each pdg_include (read_pdg_particle particles))%py.

End Loaders.

(** ** The part of the [re] library [_pdg_particle_string_to_tex] uses

    A backtracking matcher: alternatives are tried in the order of the
    library (a greedy repetition first tries one more round), the first
    complete match wins, and a group holds what its last round matched. *)

Module Re.

Inductive regex : Type :=
  | Cls (p : ascii -> bool)
  | Seq (r1 r2 : regex)
  | Star (r : regex)
  | Group (n : nat) (r : regex)
  | End.

(** The groups that took part in the match, with what they matched. *)
Definition groups : Type := gmap nat string.

Definition cont : Type := string -> groups -> option groups.

(** [r*], greedy: a round that consumes nothing ends the repetition.  The
    rounds are bounded by the length of the text. *)
Fixpoint star_loop (round : string -> groups -> cont -> option groups)
    (k : cont) (fuel : nat) (s : string) (g : groups) : option groups :=
  match fuel with
  | O => k s g
  | S fuel' =>
      match round s g (fun s' g' =>
              if String.length s' <? String.length s
              then star_loop round k fuel' s' g' else None) with
      | Some m => Some m
      | None => k s g
      end
  end.

(** What was consumed between the text [s] and its suffix [s']. *)
Definition consumed (s s' : string) : string :=
  String.substring 0 (String.length s - String.length s') s.

(** [run r s g k]: match [r] at the front of [s], then go on with [k]. *)
Fixpoint run (r : regex) (s : string) (g : groups) (k : cont)
  : option groups :=
  match r with
  | Cls p =>
      match s with
      | String c s' => if p c then k s' g else None
      | EmptyString => None
      end
  | Seq r1 r2 => run r1 s g (fun s' g' => run r2 s' g' k)
  | Star r' => star_loop (run r') k (String.length s) s g
  | Group n r' => run r' s g (fun s' g' => k s' (<[n := consumed s s']> g'))
  | End =>
      (* [$]: the end of the text, or just before a newline that ends it *)
      if Str.is_empty s || String.eqb s (String "010" EmptyString)
      then k s g else None
  end.

(** [r+] *)
Definition Plus (r : regex) : regex := Seq r (Star r).

Definition Lit (c : ascii) : regex := Cls (Ascii.eqb c).

(** [re.match]: the pattern is matched at the start of the text. *)
Definition match_ (r : regex) (s : string) : option groups :=
  run r s ∅ (fun _ g => Some g).

(** [[A-Za-z]], [\d] and [[\*+-0]] (an asterisk, or a character from [+] to
    [0]) on code points below 256. *)
Definition letter (c : ascii) : bool :=
  let n := nat_of_ascii c in
  ((65 <=? n) && (n <=? 90)) || ((97 <=? n) && (n <=? 122)).

Definition digit (c : ascii) : bool :=
  let n := nat_of_ascii c in (48 <=? n) && (n <=? 57).

Definition star_to_zero (c : ascii) : bool :=
  let n := nat_of_ascii c in (n =? 42) || ((43 <=? n) && (n <=? 48)).

End Re.

(** ** [_pdg_particle_string_to_tex] *)

Module Pdg.

(** The pattern of the source, piece by piece: letters (group 1); characters
    of the class of the asterisk (group 2); any number of parentheses holding
    digits then letters (group 3); any number of parentheses holding digits
    (group 4); characters of the class again (group 5); the end. *)
Definition regex : Re.regex :=
  Re.Seq (Re.Group 1 (Re.Plus (Re.Cls Re.letter)))
  (Re.Seq (Re.Group 2 (Re.Star (Re.Cls Re.star_to_zero)))
  (Re.Seq (Re.Star
             (Re.Seq (Re.Lit "(")
             (Re.Seq (Re.Group 3 (Re.Seq (Re.Star (Re.Cls Re.digit))
                                         (Re.Plus (Re.Cls Re.letter))))
                     (Re.Lit ")"))))
  (Re.Seq (Re.Star
             (Re.Seq (Re.Lit "(")
             (Re.Seq (Re.Group 4 (Re.Plus (Re.Cls Re.digit)))
                     (Re.Lit ")"))))
  (Re.Seq (Re.Group 5 (Re.Star (Re.Cls Re.star_to_zero)))
          Re.End)))).

(** [a + b] where [a] and [b] are strings or [None]. *)
Definition concat_groups (a b : option string) : result string :=
  match a, b with
  | Some a', Some b' => ok (a' +:+ b')
  | _, _ => raise TypeError
  end.

(** [m.group(1)] where a string is needed ([len(out)]). *)
Definition group_string (a : option string) : result string :=
  match a with
  | Some a' => ok a'
  | None => raise TypeError
  end.

Definition _pdg_particle_string_to_tex (text : string) : result string :=
  match Re.match_ regex text with
  | None =>
      if String.eqb text "J/psi(1S)" then ok "J/\psi" else ok text
  | Some m =>
      (sup <- concat_groups (m !! 2) (m !! 5) ;;
       let sub := m !! 3 in
       out <- group_string (m !! 1) ;;
       let out := if 1 <? String.length out then "\" +:+ out else out in
       let out :=
         if negb (Str.is_empty sup) then out +:+ "^{" +:+ sup +:+ "}"
         else out in
       let out :=
         match sub with
         | Some sub' =>
             if negb (Str.is_empty sub') then out +:+ "_{" +:+ sub' +:+ "}"
             else out
         | None => out
         end in
       ok out)%res
  end.

End Pdg.

(** ** A reference instance of the collaborators

    Used to run the loaders on concrete documents. *)

Module Reference.

(** A YAML value as the loaders need it: an error specification, already
    parsed into its structure, or a matrix of numbers. *)
Inductive yaml : Type :=
  | Y_errors (e : error_dict)
  | Y_matrix (m : Np.matrix).

Definition errors_from_string (v : yaml) : result error_dict :=
  match v with
  | Y_errors e => ok e
  | Y_matrix _ => raise TypeError
  end.

Definition _fix_correlation_matrix (v : yaml) (n_dim : nat)
  : result Np.matrix :=
  match v with
  | Y_matrix m => if Np.is_square n_dim m then ok m else raise ValueError
  | Y_errors _ => raise TypeError
  end.

(** The eigenvalues in closed form for dimensions one and two, which is all
    the examples below use. *)
Definition eigvals (m : Np.matrix) : list R :=
  match m with
  | [[a]] => [a]
  | [[a; b]; [c; d]] =>
      [((a + d - sqrt ((a - d) ^ 2 + 4 * b * c)) / 2)%R;
       ((a + d + sqrt ((a - d) ^ 2 + 4 * b * c)) / 2)%R]
  | _ => []
  end.

(** Modelled from the spec: the variants of [Distribution] of
    [flavio.statistics.probability] with their constructor arguments. *)
Inductive distribution : Type :=
  | Normal (central error : R)
  | AsymmetricNormal (central right_deviation left_deviation : R)
  | MultivariateNormal (central : list R) (covariance : Np.matrix).

Definition entry (m : Np.matrix) (i j : nat) : R :=
  match m !! i with
  | Some row => default 0%R (row !! j)
  | None => 0%R
  end.

Definition is_symmetric (m : Np.matrix) : bool :=
  forallb (fun i =>
    forallb (fun j => Reqb (entry m i j) (entry m j i)) (seq 0 (length m)))
    (seq 0 (length m)).

Definition NormalDistribution (central error : R) : result distribution :=
  ok (Normal central error).

(** Modelled from the spec: both deviations of an [AsymmetricNormal] must be
    positive (a [ValidationError] otherwise). *)
Definition AsymmetricNormalDistribution (central right left : R)
  : result distribution :=
  if Rltb 0 right && Rltb 0 left then ok (AsymmetricNormal central right left)
  else raise (LibraryError "ValidationError").

(** Modelled from the spec: the covariance of a [MultivariateNormal] must be
    symmetric and positive-definite. *)
Definition MultivariateNormalDistribution (central : list R)
    (covariance : Np.matrix) : result distribution :=
  if is_symmetric covariance && Np.all_positive (eigvals covariance)
  then ok (MultivariateNormal central covariance)
  else raise (LibraryError "ValidationError").

(** Modelled from the spec: [ParameterConstraints] of [flavio.classes] maps
    lists of parameter names to the distribution constraining them. *)
Definition parameter_constraints : Type := list (list string * distribution).

Definition constrained (name : string) (cs : parameter_constraints) : bool :=
  existsb (fun group => bool_decide (name ∈ group.1)) cs.

(** Modelled from the spec: [add_constraint] fails if a name is already in a
    constraint group. *)
Definition add_constraint (names : list string) (d : distribution)
    (cs : parameter_constraints) : result parameter_constraints :=
  if existsb (fun name => constrained name cs) names
  then raise (LibraryError "already constrained")
  else ok (cs ++ [(names, d)]).

(** Modelled from the spec: [remove_constraint] removes the whole group that
    contains the name, and fails with NotFound (a [KeyError]) if there is
    none. *)
Definition remove_constraint (name : string) (cs : parameter_constraints)
  : result parameter_constraints :=
  if constrained name cs
  then ok (filter (fun group => name ∉ group.1) cs)
  else raise KeyError.

(** Modelled from the spec: [set_constraint] installs a normal distribution
    with the combined error of the specification, in place of any constraint
    on the name. *)
Definition set_constraint (name : string) (v : yaml)
    (cs : parameter_constraints) : result parameter_constraints :=
  (e <- errors_from_string v ;;
   error <- combined_error e ;;
   ok (filter (fun group => name ∉ group.1) cs
       ++ [([name], Normal (central_value e) error)]))%res.

(** The builtin [float] on decimal literals: optional sign, digits with an
    optional point, optional exponent; surrounding whitespace is ignored. *)
Definition digit (c : ascii) : option Z :=
  let n := nat_of_ascii c in
  if (48 <=? n) && (n <=? 57) then Some (Z.of_nat (n - 48)) else None.

(** Reads digits: the number read onto [acc], how many, and what is left. *)
Fixpoint digits (s : string) (acc : Z) (count : nat) : Z * nat * string :=
  match s with
  | EmptyString => (acc, count, s)
  | String c s' =>
      match digit c with
      | Some d => digits s' (10 * acc + d)%Z (S count)
      | None => (acc, count, s)
      end
  end.

Definition sign (s : string) : Z * string :=
  match s with
  | String "+" s' => (1%Z, s')
  | String "-" s' => ((-1)%Z, s')
  | _ => (1%Z, s)
  end.

Definition exponent (s : string) : option Z :=
  match s with
  | EmptyString => Some 0%Z
  | String c s' =>
      if Ascii.eqb c "e" || Ascii.eqb c "E" then
        let '(sg, s1) := sign s' in
        match digits s1 0%Z 0 with
        | (_, O, _) => None
        | (e, _, EmptyString) => Some (sg * e)%Z
        | _ => None
        end
      else None
  end.

(** Mantissa and decimal exponent of a literal. *)
Definition decimal (s : string) : option (Z * Z) :=
  let '(sg, s1) := sign (Str.strip s) in
  let '(m1, n1, s2) := digits s1 0%Z 0 in
  let '(m2, n2, s3) :=
    match s2 with
    | String "." s' => digits s' m1 0
    | _ => (m1, 0, s2)
    end in
  if n1 + n2 =? 0 then None
  else match exponent s3 with
       | Some e => Some ((sg * m2)%Z, (e - Z.of_nat n2)%Z)
       | None => None
       end.

Definition float (s : string) : result R :=
  match decimal s with
  | Some (m, e) =>
      if (0 <=? e)%Z then ok (IZR (m * 10 ^ e))
      else ok (IZR m / IZR (10 ^ (- e)))%R
  | None => raise ValueError
  end.

(** [_pdg_particle_string_to_tex], which returns a string for every text. *)
Definition _pdg_particle_string_to_tex (text : string) : string :=
  match Pdg._pdg_particle_string_to_tex text with
  | inr tex_name => tex_name
  | inl _ => text
  end.

#[export] Instance collaborators : Collaborators :=
  Build_Collaborators yaml distribution parameter_constraints
    errors_from_string _fix_correlation_matrix eigvals
    NormalDistribution AsymmetricNormalDistribution
    MultivariateNormalDistribution
    set_constraint add_constraint remove_constraint
    float _pdg_particle_string_to_tex.

(** A row of the table: each field left-justified in its columns. *)
Fixpoint ljust (n : nat) (s : string) : string :=
  match n, s with
  | O, _ => s
  | S n', EmptyString => String " " (ljust n' EmptyString)
  | S n', String c s' => String c (ljust n' s')
  end.

Definition row (ids mass mass_plus mass_minus width width_plus width_minus
                name_charges : string) : string :=
  ljust 33 ids +:+ ljust 19 mass +:+ ljust 9 mass_plus
  +:+ ljust 9 mass_minus +:+ ljust 19 width +:+ ljust 9 width_plus
  +:+ ljust 9 width_minus +:+ ljust 21 name_charges.

(** A small table: a comment, the B0 and B+ mesons, and the B* mesons, whose
    width is not known. *)
Definition table : list string :=
  ["* MASSES, WIDTHS, AND MC ID NUMBERS";
   row "     511" "5.27963E+00" "+1.5E-04" "-1.5E-04"
       "4.330E-13" "+1.1E-15" "-1.1E-15" "B                   0";
   row "     521" "5.27932E+00" "+1.4E-04" "-1.4E-04"
       "4.018E-13" "+1.0E-15" "-1.0E-15" "B                   +";
   row "     513     523" "5.32465E+00" "+2.5E-04" "-2.5E-04"
       "" "" "" "B*                0,+"].

(** A row whose two ID codes come with one charge. *)
Definition mismatched_row : string :=
  row "     513     523" "5.32465E+00" "+2.5E-04" "-2.5E-04"
      "" "" "" "B*                  0".

(** No parameter registered, no constraint installed. *)
Definition empty_world : world :=
  @mk_world collaborators ∅ [].

End Reference.

(** ** The loaders in the words of the spec

    What the spec says the correlated-value loader computes, to compare with
    what the code computes. *)

Module Spec.

Definition Rsum (l : list R) : R := fold_right Rplus 0%R l.

(** [sum(sym_j^2) + sum(asym_k_right * asym_k_left)] *)
Definition squared_error (e : error_dict) : R :=
  (Rsum (map (fun sym => sym ^ 2) (symmetric_errors e))
   + Rsum (map (fun asym => asym.1 * asym.2) (asymmetric_errors e)))%R.

(** [outer(errors, errors) * correlation], entry by entry. *)
Definition covariance (errors : list R) (correlation : Np.matrix)
  : Np.matrix :=
  zip_with (fun e_i row => zip_with (fun e_j c => e_i * e_j * c)%R errors row)
           errors correlation.

Definition kronecker (i j : nat) : R := if i =? j then 1%R else 0%R.

(** [0.99 * (correlation - I) + I], entry by entry. *)
Definition damped (correlation : Np.matrix) : Np.matrix :=
  imap (fun i row =>
    imap (fun j c => 0.99 * (c - kronecker i j) + kronecker i j)%R row)
    correlation.

(** [x] is [y] to within one percent. *)
Definition approx (x y : R) : Prop := (Rabs (x - y) <= Rabs y / 100)%R.

(** All eigenvalues are strictly positive. *)
Definition positive (eigenvalues : list R) : Prop :=
  Forall (fun l => 0 < l)%R eigenvalues.

End Spec.

(** ** [wcnp_dict] *)

Module Wcnp.
Section WcnpDict.

(** The [WilsonCoefficients] instance and what it is asked: its method
    [get_wc], which returns the array of coefficients, and its table
    [coefficients], which maps a sector to its list of labels (a [KeyError]
    on a sector it does not have). *)
Variables (wilson_coefficients sector scale par coefficient : Type).
Variable get_wc :
  wilson_coefficients -> sector -> scale -> par -> result (list coefficient).
Variable coefficients : wilson_coefficients -> sector -> result (list string).

Definition wcnp_dict (wc_obj : wilson_coefficients) (sector : sector)
    (scale : scale) (par : par) : result (Dict.t coefficient) :=
  (wc_np <- get_wc wc_obj sector scale par ;;
   wc_labels <- coefficients wc_obj sector ;;
   let wc_dict := Dict.of_items (zip wc_labels wc_np) in
   ok wc_dict)%res.

End WcnpDict.
End Wcnp.

(** ** Relations between the state before and after a loader *)

Section Frames.
Context `{C : Collaborators}.

(** The registry is as it was. *)
Definition same_registry (w w' : world) : Prop := registry w' = registry w.

(** No parameter was removed from the registry. *)
Definition registry_grows (w w' : world) : Prop :=
  forall name, is_Some (registry w !! name) -> is_Some (registry w' !! name).

End Frames.

(** ** What the table of particles holds *)

(** The dictionary by name holds a record under [name] and [charge]. *)
Definition kept {V} (particles_by_name : Dict.t (Dict.t V))
    (name charge : string) : Prop :=
  exists inner,
    Dict.get name particles_by_name = Some inner
    /\ is_Some (Dict.get charge inner).

(** Every dictionary has each key once. *)
Definition distinct_keys {V} (particles_by_name : Dict.t (Dict.t V)) : Prop :=
  NoDup (map fst particles_by_name)
  /\ Forall (fun kv => NoDup (map fst kv.2)) particles_by_name.

Section Rows.
Context `{C : Collaborators}.

(** [entry] is the record the loop of [_read_pdg_masswidth] builds for the
    ID code at position [i] of [line]: the line is not a comment, the record
    has the mass, the width and the name of the line, and the ID code and
    the charge at position [i] of its lists, stripped. *)
Definition record_of_line (line : string) (i : nat) (entry : particle)
  : Prop :=
  exists first mass width name charge_list charge id_,
    Str.index (Str.strip line) 0 = ok first /\ first <> "*"%char
    /\ float3 (Str.slice 33 51 line) (Str.slice 52 60 line)
              (Str.slice 61 69 line) = ok mass
    /\ read_width line = ok width
    /\ list_index (Str.split (Str.slice 107 128 line)) 0 = ok name
    /\ list_index (Str.split (Str.slice 107 128 line)) 1 = ok charge_list
    /\ Str.split_on "," charge_list !! i = Some charge
    /\ Str.split (Str.slice 0 32 line) !! i = Some id_
    /\ entry = {| particle_id := Str.strip id_;
                  particle_mass := mass;
                  particle_charge := Str.strip charge;
                  particle_width := width;
                  particle_name := name |}.

(** [line] is not a comment and lists the particle [name] with the charge
    [charge] (stripped). *)
Definition line_lists (line name charge : string) : Prop :=
  exists first charge_list raw,
    Str.index (Str.strip line) 0 = ok first /\ first <> "*"%char
    /\ list_index (Str.split (Str.slice 107 128 line)) 0 = ok name
    /\ list_index (Str.split (Str.slice 107 128 line)) 1 = ok charge_list
    /\ raw ∈ Str.split_on "," charge_list
    /\ charge = Str.strip raw.

(** [entry] is the record of a line of [lines] that lists [name] with
    [charge]. *)
Definition read_from (lines : list string) (name charge : string)
    (entry : particle) : Prop :=
  exists line i,
    line ∈ lines /\ record_of_line line i entry
    /\ particle_name entry = name /\ particle_charge entry = charge.

Definition all_read_from (lines : list string)
    (particles_by_name : Dict.t (Dict.t particle)) : Prop :=
  Forall (fun kv =>
    Forall (fun kv' => read_from lines kv.1 kv'.1 kv'.2) kv.2)
    particles_by_name.

(** No other name, and no other name with a charge, of the table gives the
    key [name + charge]. *)
Definition unambiguous (lines : list string) (name charge : string) : Prop :=
  forall line' name' charge',
    line' ∈ lines -> line_lists line' name' charge' ->
    name' <> name +:+ charge
    /\ (name' +:+ charge' = name +:+ charge -> name' = name).

(** In the words of the spec: the state [w1] in which the new constraint on
    [name] is added, from the state [w].  If the parameter exists, the
    constraint on it has been removed (if it had none, nothing has changed);
    otherwise the parameter has been created. *)
Definition made_ready (name : string) (w w1 : world) : Prop :=
  match registry w !! name with
  | Some _ =>
      registry w1 = registry w
      /\ (remove_constraint name (constraints w) = ok (constraints w1)
          \/ (remove_constraint name (constraints w) = raise KeyError
              /\ constraints w1 = constraints w))
  | None =>
      registry w1 = <[name := new_parameter]> (registry w)
      /\ constraints w1 = constraints w
  end.

End Rows.

(** ** Collaborators that refuse nothing

    The distributions and the constraints of the reference instance, without
    its validation: every distribution can be built and every constraint
    added.  Used to run [read_pdg] to its end. *)

Module Permissive.

Definition AsymmetricNormalDistribution (central right left : R)
  : result Reference.distribution :=
  ok (Reference.AsymmetricNormal central right left).

Definition add_constraint (names : list string) (d : Reference.distribution)
    (cs : Reference.parameter_constraints)
  : result Reference.parameter_constraints :=
  ok (cs ++ [(names, d)]).

Definition collaborators : Collaborators :=
  Build_Collaborators Reference.yaml Reference.distribution
    Reference.parameter_constraints
    Reference.errors_from_string Reference._fix_correlation_matrix
    Reference.eigvals
    Reference.NormalDistribution AsymmetricNormalDistribution
    Reference.MultivariateNormalDistribution
    Reference.set_constraint add_constraint Reference.remove_constraint
    Reference.float Reference._pdg_particle_string_to_tex.

(** A row with a mass and no width, and a row with both. *)
Definition stable (ids name_charges : string) : string :=
  Reference.row ids "1.0E+00" "+1.0E-02" "-1.0E-02" "" "" "" name_charges.

Definition unstable (ids name_charges : string) : string :=
  Reference.row ids "1.0E+00" "+1.0E-02" "-2.0E-02"
    "4.0E-13" "+1.0E-15" "-1.0E-15" name_charges.

(** A table with every particle of [pdg_include]: the multiplets of
    different masses (B, D, K, pi) on a row per charge, those of one mass
    (B*, K*(892), rho(770)) on one row with two charges. *)
Definition table : list string :=
  ["* MASSES, WIDTHS, AND MC ID NUMBERS";
   unstable "     531" "B(s) 0"; unstable "     541" "B(c) +";
   stable "     533" "B(s)* 0"; stable "     513     523" "B* 0,+";
   unstable "     521" "B +"; unstable "     511" "B 0";
   unstable "     431" "D(s) +"; stable "     433" "D(s)* +";
   unstable "     411" "D +"; unstable "     421" "D 0";
   stable "      25" "H 0"; unstable "     443" "J/psi(1S) 0";
   unstable "     130" "K(L) 0"; unstable "     310" "K(S) 0";
   unstable "     313     323" "K*(892) 0,+";
   unstable "     321" "K +"; stable "     311" "K 0";
   unstable "    3122" "Lambda 0"; unstable "    5122" "Lambda(b) 0";
   unstable "    4122" "Lambda(c) +"; unstable "     223" "omega(782) 0";
   unstable "     423" "D*(2007) 0"; unstable "     413" "D*(2010) +";
   unstable "      24" "W +"; unstable "      23" "Z 0";
   stable "       5" "b -1/3"; stable "       4" "c +2/3";
   stable "       1" "d -1/3"; stable "      11" "e -";
   unstable "     221" "eta 0"; unstable " 9010221" "f(0)(980) 0";
   unstable "      13" "mu -"; unstable "     333" "phi(1020) 0";
   unstable "     211" "pi +"; unstable "     111" "pi 0";
   unstable "  100443" "psi(2S) 0";
   unstable "     113     213" "rho(770) 0,+";
   stable "       3" "s -1/3"; unstable "       6" "t +2/3";
   unstable "      15" "tau -"; stable "       2" "u +2/3"].

End Permissive.

(** * Properties *)

(** ** The comparisons on floats *)

Lemma Reqb_true x y : Reqb x y = true <-> x = y.
Proof. unfold Reqb. destruct (Req_dec_T x y); split; congruence. Qed.

Lemma Reqb_false x y : Reqb x y = false <-> x <> y.
Proof. unfold Reqb. destruct (Req_dec_T x y); split; congruence. Qed.

Lemma Reqb_refl x : Reqb x x = true.
Proof. by apply Reqb_true. Qed.

Lemma Rltb_true x y : Rltb x y = true <-> (x < y)%R.
Proof. unfold Rltb. destruct (Rlt_dec x y); split; (congruence || done). Qed.

Lemma Rltb_false x y : Rltb x y = false <-> ~ (x < y)%R.
Proof. unfold Rltb. destruct (Rlt_dec x y); split; (congruence || done). Qed.

(** ** The bag-parameter conversion factor *)

Section BagFactorFacts.
Variable float_pow : R -> R -> result R.

(** C10. [bag_msbar2rgi] binds the exponent [g] only for the mesons B0, Bs
    and K0.  For any other meson, D0 of [meson_quark] included, reading [g]
    in the return expression raises the unbound-variable error and no value
    is returned; for the three mesons the return expression is evaluated with
    the exponent and the factor J of the branch taken. *)
Theorem bag_msbar2rgi_defined_only_for_B0_Bs_K0 (alpha_s : R) (meson : string) :
  (meson ∉ ["B0"; "Bs"; "K0"] ->
   Common.bag_msbar2rgi float_pow alpha_s meson = raise UnboundLocalError)
  /\ (meson ∈ ["B0"; "Bs"] ->
      Common.bag_msbar2rgi float_pow alpha_s meson =
      rbind (float_pow alpha_s (- (6 / 23))%R)
            (fun p => ok (p * (1 + alpha_s / (4 * PI) * (5165 / 3174)))%R))
  /\ (meson = "K0" ->
      Common.bag_msbar2rgi float_pow alpha_s meson =
      rbind (float_pow alpha_s (- (2 / 9))%R)
            (fun p => ok (p * (1 + alpha_s / (4 * PI) * (307 / 162)))%R)).
Proof.
  unfold Common.bag_msbar2rgi, Common.bag_locals.
  repeat split; intros Hm.
  - rewrite !list_elem_of_In in Hm. simpl in Hm.
    rewrite bool_decide_eq_false_2.
    + rewrite bool_decide_eq_false_2; [reflexivity|]. intros ->. tauto.
    + rewrite list_elem_of_In. simpl. tauto.
  - by rewrite bool_decide_eq_true_2.
  - subst meson. reflexivity.
Qed.

End BagFactorFacts.

Lemma bag_msbar2rgi_D0_witness :
  ("D0" ∈ map fst Common.meson_quark)
  /\ ("D0" ∉ ["B0"; "Bs"; "K0"])
  /\ Common.bag_msbar2rgi (fun x y => ok (Rpower x y)) 0.1184 "D0"
     = raise UnboundLocalError.
Proof.
  split; [by apply (bool_decide_unpack _)|].
  split; [by apply (bool_decide_unpack _)|].
  apply (bag_msbar2rgi_defined_only_for_B0_Bs_K0
           (fun x y => ok (Rpower x y)) 0.1184 "D0").
  by apply (bool_decide_unpack _).
Defined.

(** ** The loaders' monad *)

Section LoaderFacts.
Context `{C : Collaborators}.

Lemma for_each_app {A} (xs ys : list A) (body : A -> M unit) (w : world) :
  for_each (xs ++ ys) body w =
  match for_each xs body w with
  | (inr _, w1) => for_each ys body w1
  | (inl e, w1) => (inl e, w1)
  end.
Proof.
  revert w. induction xs as [|x xs IH]; intros w; simpl.
  - reflexivity.
  - unfold mbind. destruct (body x w) as [[e|[]] w1]; [reflexivity|].
    apply IH.
Qed.

(** A raise in the body stops the loop where it is. *)
Lemma for_each_raise {A} (xs ys : list A) (x : A) (body : A -> M unit)
    (w w1 w2 : world) (e : exn) :
  for_each xs body w = (ok tt, w1) ->
  body x w1 = (raise e, w2) ->
  for_each (xs ++ x :: ys) body w = (raise e, w2).
Proof.
  intros Hxs Hx. rewrite for_each_app, Hxs. simpl. unfold mbind.
  by rewrite Hx.
Qed.

(** *** The metadata loader *)

Lemma read_metadata_entry_spec name info (w : world) :
  read_metadata_entry (name, info) w =
  (ok tt,
   {| registry :=
        <[name := with_info info (default new_parameter (registry w !! name))]>
          (registry w);
      constraints := constraints w |}).
Proof.
  unfold read_metadata_entry, mbind, Parameter_call, with_info.
  destruct w as [reg cs]; simpl.
  destruct (reg !! name) as [p|] eqn:Hp; simpl;
    destruct (info !! "description") as [[d|]|];
    destruct (info !! "tex") as [[t|]|];
    unfold set_description, set_tex, mret; simpl;
    f_equal; f_equal; apply map_eq; intros k;
    destruct (decide (k = name)) as [->|Hk];
    rewrite ?lookup_alter_eq, ?lookup_alter_ne, ?lookup_insert_eq,
      ?lookup_insert_ne, ?Hp by done; simpl; try done;
    by destruct p.
Qed.

(** C8. The metadata loader always succeeds and leaves the constraints object
    as it was: no constraint is added, removed or modified.  It changes the
    registry only at the names of the document, and there (the names of a
    mapping being distinct) a parameter ends with the description and the
    label of its entry where these are present and not null, and with what
    it had before (nothing, if it is new) otherwise. *)
Theorem metadata_loader_updates_metadata_only
    (parameters : list (string * gmap string (option string))) (w : world) :
  exists w' : world,
    _read_yaml_object_metadata parameters w = (ok tt, w')
    /\ constraints w' = constraints w
    /\ (forall name : string,
          name ∉ map fst parameters ->
          registry w' !! name = registry w !! name)
    /\ (NoDup (map fst parameters) ->
        forall name info,
          (name, info) ∈ parameters ->
          registry w' !! name =
          Some (with_info info (default new_parameter (registry w !! name)))).
Proof.
  unfold _read_yaml_object_metadata.
  revert w. induction parameters as [|[name info] ps IH]; intros w.
  - exists w. repeat split; try done.
    intros _ name info Hin. by apply elem_of_nil in Hin.
  - cbn [for_each]. unfold mbind at 1. rewrite read_metadata_entry_spec.
    match goal with |- context [for_each ps _ ?w0] => set (w1 := w0) end.
    destruct (IH w1) as (w' & Hrun & Hcs & Hout & Hin).
    exists w'. split; [exact Hrun|]. split; [by rewrite Hcs|]. split.
    + intros k Hk. cbn [map fst] in Hk.
      apply not_elem_of_cons in Hk as [Hne Hk].
      rewrite (Hout k Hk). subst w1; simpl. by rewrite lookup_insert_ne.
    + intros Hnd k i Hk. cbn [map fst] in Hnd.
      apply NoDup_cons in Hnd as [Hfresh Hnd].
      apply elem_of_cons in Hk as [[= -> ->]|Hk].
      * rewrite (Hout name Hfresh). subst w1; simpl.
        by rewrite lookup_insert_eq.
      * rewrite (Hin Hnd k i Hk). subst w1; simpl.
        rewrite lookup_insert_ne; [done|].
        intros ->. apply Hfresh. apply list_elem_of_fmap. by exists (k, i).
Qed.

(** *** Names that are not registered *)

Lemma read_value_entry_unregistered name value (w : world) :
  registry w !! name = None ->
  read_value_entry (name, value) w = (raise KeyError, w).
Proof.
  intros Hreg. unfold read_value_entry, mbind, Parameter_getitem.
  by rewrite Hreg.
Qed.

(** Reading the entries of a group changes neither the registry nor the
    constraints. *)
Lemma read_group_entry_world acc dict_list (w : world) :
  (read_group_entry acc dict_list w).2 = w.
Proof.
  unfold read_group_entry, mbind, lift, Parameter_getitem, mret.
  destruct (list_index dict_list 0) as [e|[name value]]; [done|].
  destruct (registry w !! name); [|done].
  destruct (errors_from_string value) as [e|ed]; [done|].
  by destruct (combined_error ed).
Qed.

Lemma read_group_entries_world acc values (w : world) :
  (read_group_entries acc values w).2 = w.
Proof.
  revert acc. induction values as [|d values IH]; intros acc; [done|].
  cbn [read_group_entries]. unfold mbind.
  pose proof (read_group_entry_world acc d w) as Hw.
  destruct (read_group_entry acc d w) as [[e|acc'] w1]; simpl in Hw; subst w1.
  - done.
  - apply IH.
Qed.

Lemma read_group_entry_unregistered acc dict_list name value (w : world) :
  dict_list !! 0 = Some (name, value) ->
  registry w !! name = None ->
  read_group_entry acc dict_list w = (raise KeyError, w).
Proof.
  intros Hitem Hreg.
  unfold read_group_entry, mbind, lift, list_index, Parameter_getitem.
  rewrite Hitem. simpl. by rewrite Hreg.
Qed.

Lemma read_group_entries_unregistered
    acc acc' before dict_list after name value (w : world) :
  read_group_entries acc before w = (ok acc', w) ->
  dict_list !! 0 = Some (name, value) ->
  registry w !! name = None ->
  read_group_entries acc (before ++ dict_list :: after) w = (raise KeyError, w).
Proof.
  revert acc. induction before as [|d before IH]; intros acc Hbefore Hitem Hreg.
  - injection Hbefore as ->. cbn [app read_group_entries]. unfold mbind.
    by rewrite (read_group_entry_unregistered _ _ _ _ _ Hitem Hreg).
  - cbn [app read_group_entries] in *. unfold mbind in *.
    pose proof (read_group_entry_world acc d w) as Hw.
    destruct (read_group_entry acc d w) as [[e|acc1] w1]; simpl in Hw; subst w1.
    + discriminate.
    + by apply IH.
Qed.

(** C7. Both value loaders fail fast on a name that is not registered.  When
    the entries before it have been loaded, reaching the state [w1], and the
    name of the next entry is not in the registry, the loader stops with the
    lookup's [KeyError] in the very state [w1]: nothing is installed for that
    entry, nor for anything after it.  For the correlated loader the entry is
    any entry of a group whose earlier entries were read. *)
Theorem value_loaders_fail_fast_on_unregistered_name :
  (forall before name value after (w w1 : world),
      _read_yaml_object_values before w = (ok tt, w1) ->
      registry w1 !! name = None ->
      _read_yaml_object_values (before ++ (name, value) :: after) w
      = (raise KeyError, w1))
  /\ (forall groups_before group groups_after
             before dict_list after name value acc (w w1 : world),
      _read_yaml_object_values_correlated groups_before w = (ok tt, w1) ->
      group_values group = before ++ dict_list :: after ->
      read_group_entries
        {| parameter_names := []; central_values := []; errors := [] |}
        before w1 = (ok acc, w1) ->
      dict_list !! 0 = Some (name, value) ->
      registry w1 !! name = None ->
      _read_yaml_object_values_correlated
        (groups_before ++ group :: groups_after) w
      = (raise KeyError, w1)).
Proof.
  split.
  - intros before name value after w w1 Hbefore Hreg.
    unfold _read_yaml_object_values in *.
    apply (for_each_raise _ _ _ _ _ _ _ _ Hbefore).
    by apply read_value_entry_unregistered.
  - intros gb g ga before d after name value acc w w1 Hgb Hg Hbefore Hitem Hreg.
    unfold _read_yaml_object_values_correlated in *.
    apply (for_each_raise _ _ _ _ _ _ _ _ Hgb).
    unfold read_parameter_group, mbind. rewrite Hg.
    by rewrite (read_group_entries_unregistered _ _ _ _ _ _ _ _
                  Hbefore Hitem Hreg).
Qed.

End LoaderFacts.

Lemma metadata_loader_witness :
  let parameters : list (string * gmap string (option string)) :=
    [("m_x", {["description" := Some "test mass"]})] in
  let w : world := Reference.empty_world in
  exists w' : world,
    _read_yaml_object_metadata parameters w = (ok tt, w')
    /\ constraints w' = constraints w
    /\ registry w' !! "m_x"
       = Some {| description := Some "test mass"; tex := None |}.
Proof.
  intros parameters w.
  destruct (metadata_loader_updates_metadata_only parameters w)
    as (w' & Hrun & Hcs & _ & Hin).
  exists w'. split; [exact Hrun|]. split; [exact Hcs|].
  rewrite (Hin (NoDup_singleton _) "m_x"
             {["description" := Some "test mass"]}).
  - reflexivity.
  - apply list_elem_of_singleton. reflexivity.
Defined.

Lemma value_loaders_fail_fast_witness :
  let w : world := Reference.empty_world in
  let value := Reference.Y_errors (mk_error_dict 5 [0.1%R] []) in
  _read_yaml_object_values (C := Reference.collaborators)
    [("m_x", value)] w = (raise KeyError, w)
  /\ _read_yaml_object_values_correlated (C := Reference.collaborators)
       [@mk_parameter_group Reference.collaborators
          [[("m_x", value)]] (Reference.Y_matrix [[1%R]])] w
     = (raise KeyError, w).
Proof.
  intros w value.
  destruct (value_loaders_fail_fast_on_unregistered_name (C := Reference.collaborators))
    as [Hvalues Hcorrelated].
  split.
  - apply (Hvalues [] "m_x" value [] w w); reflexivity.
  - apply (Hcorrelated [] _ [] [] [("m_x", value)] [] "m_x" value
             {| parameter_names := []; central_values := []; errors := [] |}
             w w); reflexivity.
Defined.

(** ** Arrays of matching shapes *)

Section NumpyFacts.

Lemma is_square_shape n A : Np.is_square n A = true <-> Np.has_shape n n A.
Proof.
  unfold Np.is_square, Np.has_shape.
  rewrite andb_true_iff, Nat.eqb_eq, forallb_forall, Forall_forall.
  split; intros [Hlen Hrows]; (split; [exact Hlen|]); intros row Hrow.
  - apply Nat.eqb_eq, Hrows. by apply list_elem_of_In.
  - apply Nat.eqb_eq, Hrows. by apply list_elem_of_In.
Qed.

Lemma zipM_Forall2 {A B D} (f : A -> B -> result D) (g : A -> B -> D) l1 l2 :
  Forall2 (fun a b => f a b = ok (g a b)) l1 l2 ->
  Np.zipM f l1 l2 = ok (zip_with g l1 l2).
Proof.
  induction 1 as [|a b l1 l2 Hab _ IH]; simpl; [done|].
  by rewrite Hab, IH.
Qed.

Lemma broadcast_Forall2 {A B D} (f : A -> B -> result D) (g : A -> B -> D)
    l1 l2 :
  Forall2 (fun a b => f a b = ok (g a b)) l1 l2 ->
  Np.broadcast f l1 l2 = ok (zip_with g l1 l2).
Proof.
  intros H. unfold Np.broadcast.
  rewrite (Forall2_length _ _ _ H), Nat.eqb_refl.
  by apply zipM_Forall2.
Qed.

Lemma Forall2_by_lookup {A B} (P : A -> B -> Prop) (l1 : list A)
    (l2 : list B) :
  length l1 = length l2 ->
  (forall i a b, l1 !! i = Some a -> l2 !! i = Some b -> P a b) ->
  Forall2 P l1 l2.
Proof.
  intros Hlen HP. apply Forall2_same_length_lookup_2; assumption.
Qed.

Lemma elementwise_same_shape op r c A B :
  Np.has_shape r c A -> Np.has_shape r c B ->
  Np.elementwise op A B = ok (zip_with (zip_with op) A B).
Proof.
  intros [HA HrowsA] [HB HrowsB]. unfold Np.elementwise.
  apply broadcast_Forall2, Forall2_by_lookup; [congruence|].
  intros i a b Ha Hb. apply broadcast_Forall2, Forall2_by_lookup.
  - rewrite Forall_lookup in HrowsA, HrowsB.
    rewrite (HrowsA i a Ha), (HrowsB i b Hb). reflexivity.
  - done.
Qed.

Lemma zip_with_shape op r c A B :
  Np.has_shape r c A -> Np.has_shape r c B ->
  Np.has_shape r c (zip_with (zip_with op) A B).
Proof.
  intros [HA HrowsA] [HB HrowsB]. split.
  - rewrite length_zip_with. lia.
  - apply Forall_lookup. intros i row Hrow.
    apply lookup_zip_with_Some in Hrow as (a & b & -> & Ha & Hb).
    rewrite Forall_lookup in HrowsA, HrowsB.
    rewrite length_zip_with, (HrowsA i a Ha), (HrowsB i b Hb). lia.
Qed.

Lemma outer_shape u v : Np.has_shape (length u) (length v) (Np.outer u v).
Proof.
  unfold Np.outer. split.
  - by rewrite length_map.
  - apply Forall_forall. intros row Hrow.
    apply list_elem_of_fmap in Hrow as (x & -> & _). by rewrite length_map.
Qed.

Lemma eye_shape n : Np.has_shape n n (Np.eye n).
Proof.
  unfold Np.eye. split.
  - by rewrite length_map, length_seq.
  - apply Forall_forall. intros row Hrow.
    apply list_elem_of_fmap in Hrow as (x & -> & _).
    by rewrite length_map, length_seq.
Qed.

Lemma scale_shape r c A a : Np.has_shape r c A -> Np.has_shape r c (Np.scale A a).
Proof.
  intros [HA Hrows]. unfold Np.scale. split.
  - by rewrite length_map.
  - apply Forall_forall. intros row Hrow.
    apply list_elem_of_fmap in Hrow as (x & -> & Hx).
    rewrite length_map. rewrite Forall_forall in Hrows. by apply Hrows.
Qed.

Lemma covariance_of_square errors correlation :
  Np.is_square (length errors) correlation = true ->
  covariance_of errors correlation = ok (Spec.covariance errors correlation).
Proof.
  intros Hsq%is_square_shape. unfold covariance_of, Np.mul.
  rewrite (elementwise_same_shape _ _ _ _ _ (outer_shape errors errors) Hsq).
  f_equal. unfold Np.outer, Spec.covariance.
  rewrite zip_with_fmap_l. apply zip_with_ext; [|done..].
  intros e_i row. rewrite zip_with_fmap_l. reflexivity.
Qed.

(** C3. The covariance the correlated-value loader computes is the
    element-wise product of the outer product of the errors with themselves
    and the correlation matrix: for a correlation matrix of the dimension of
    the error vector, entry (i, j) is [errors[i] * errors[j] *
    correlation[i][j]].  For the errors 0.1 and 0.2 and the correlation 0.9
    it is [[0.01, 0.018], [0.018, 0.04]]. *)
Theorem covariance_is_outer_times_correlation :
  (forall errors correlation,
      Np.is_square (length errors) correlation = true ->
      covariance_of errors correlation
      = ok (Spec.covariance errors correlation)
      /\ forall i j e_i e_j row c,
           errors !! i = Some e_i -> errors !! j = Some e_j ->
           correlation !! i = Some row -> row !! j = Some c ->
           exists row', Spec.covariance errors correlation !! i = Some row'
                        /\ row' !! j = Some (e_i * e_j * c)%R)
  /\ covariance_of [0.1; 0.2]%R [[1; 0.9]; [0.9; 1]]%R
     = ok [[0.01; 0.018]; [0.018; 0.04]]%R.
Proof.
  split.
  - intros errors correlation Hsq.
    split; [by apply covariance_of_square|].
    intros i j e_i e_j row c Hi Hj Hrow Hc. unfold Spec.covariance.
    eexists. split.
    + apply lookup_zip_with_Some. eauto.
    + apply lookup_zip_with_Some. eauto.
  - rewrite covariance_of_square by reflexivity.
    unfold Spec.covariance; simpl. repeat f_equal; lra.
Qed.

Lemma zip_with_indexed {A B D} (g : A -> B -> D) (h : nat -> B) (l : list A)
    n :
  length l = n ->
  zip_with g l (map h (seq 0 n)) = imap (fun i a => g a (h i)) l.
Proof.
  intros Hlen. apply list_eq. intros i.
  rewrite lookup_zip_with, list_lookup_imap, list_lookup_fmap.
  destruct (l !! i) as [a|] eqn:Ha; simpl; [|done].
  apply lookup_lt_Some in Ha.
  rewrite lookup_seq_lt by lia. reflexivity.
Qed.

Lemma zip_with_eye (op : R -> R -> R) (A : Np.matrix) n :
  Np.has_shape n n A ->
  zip_with (zip_with op) A (Np.eye n)
  = imap (fun i row => imap (fun j c => op c (Spec.kronecker i j)) row) A.
Proof.
  intros [Hlen Hrows]. unfold Np.eye.
  rewrite (zip_with_indexed _ _ _ _ Hlen).
  apply imap_ext. intros i row Hrow. simpl.
  apply zip_with_indexed.
  rewrite Forall_lookup in Hrows. by apply (Hrows i).
Qed.

Lemma imap_imap {A B D} (f : nat -> B -> D) (g : nat -> A -> B) (l : list A) :
  imap f (imap g l) = imap (fun i a => f i (g i a)) l.
Proof.
  apply list_eq. intros i. rewrite !list_lookup_imap.
  by destruct (l !! i).
Qed.

Lemma map_imap {A B D} (f : B -> D) (g : nat -> A -> B) (l : list A) :
  map f (imap g l) = imap (fun i a => f (g i a)) l.
Proof.
  apply list_eq. intros i.
  rewrite list_lookup_fmap, !list_lookup_imap. by destruct (l !! i).
Qed.

Lemma damped_shape n correlation :
  Np.has_shape n n correlation -> Np.has_shape n n (Spec.damped correlation).
Proof.
  intros [Hlen Hrows]. unfold Spec.damped. split.
  - by rewrite length_imap.
  - apply Forall_lookup. intros i row Hrow.
    apply list_lookup_imap_Some in Hrow as (row0 & Hrow0 & ->).
    rewrite length_imap. rewrite Forall_lookup in Hrows. by apply (Hrows i).
Qed.

Lemma damped_square n correlation :
  Np.has_shape n n correlation ->
  damped correlation = ok (Spec.damped correlation).
Proof.
  intros Hs. unfold damped, Np.sub, Np.add.
  replace (length correlation) with n by (symmetry; apply Hs).
  rewrite (elementwise_same_shape _ _ _ _ _ Hs (eye_shape n)). simpl.
  rewrite (elementwise_same_shape _ n n).
  - f_equal. rewrite (zip_with_eye Rminus _ _ Hs).
    rewrite zip_with_eye.
    + unfold Np.scale, Spec.damped. rewrite map_imap, imap_imap.
      apply imap_ext. intros i row _. simpl.
      rewrite map_imap, imap_imap.
      apply imap_ext. intros j c _. simpl. lra.
    + apply scale_shape. rewrite <- (zip_with_eye Rminus _ _ Hs).
      apply zip_with_shape; [exact Hs | apply eye_shape].
  - apply scale_shape, zip_with_shape; [exact Hs | apply eye_shape].
  - apply eye_shape.
Qed.

End NumpyFacts.

(** ** The correlated-value loader *)

Section CorrelatedFacts.
Context `{C : Collaborators}.

Lemma fold_left_Rsum {A} (f : A -> R) (l : list A) (a : R) :
  fold_left (fun acc x => acc + f x)%R l a = (a + Spec.Rsum (map f l))%R.
Proof.
  revert a. induction l as [|x l IH]; intros a; simpl.
  - lra.
  - rewrite IH. lra.
Qed.

Lemma combined_error_spec (e : error_dict) :
  combined_error e = math_sqrt (Spec.squared_error e).
Proof.
  unfold combined_error, Spec.squared_error.
  rewrite (fold_left_Rsum (fun sym => sym ^ 2)%R).
  rewrite (fold_left_Rsum (fun asym => asym.1 * asym.2)%R).
  f_equal. lra.
Qed.

Lemma math_sqrt_ok x y : math_sqrt x = ok y -> (0 <= x)%R /\ y = sqrt x.
Proof.
  unfold math_sqrt. destruct (Rltb x 0) eqn:Hx; [discriminate|].
  apply Rltb_false in Hx. intros [= <-]. split; [lra|reflexivity].
Qed.

Lemma read_group_entry_ok acc dict_list acc' (w w' : world) :
  read_group_entry acc dict_list w = (ok acc', w') ->
  exists name value e,
    dict_list !! 0 = Some (name, value)
    /\ is_Some (registry w !! name)
    /\ errors_from_string value = ok e
    /\ (0 <= Spec.squared_error e)%R
    /\ parameter_names acc' = parameter_names acc ++ [name]
    /\ central_values acc' = central_values acc ++ [central_value e]
    /\ errors acc' = errors acc ++ [sqrt (Spec.squared_error e)].
Proof.
  unfold read_group_entry, mbind, lift, list_index, Parameter_getitem, mret.
  destruct (dict_list !! 0) as [[name value]|] eqn:Hitem; [|discriminate].
  simpl. destruct (registry w !! name) eqn:Hreg; [|discriminate].
  destruct (errors_from_string value) as [?|e] eqn:He; [discriminate|].
  destruct (combined_error e) as [?|error] eqn:Herr; [discriminate|].
  intros [= <- <-]. rewrite combined_error_spec in Herr.
  apply math_sqrt_ok in Herr as [Hpos ->].
  exists name, value, e. simpl. by repeat split.
Qed.

Lemma read_group_entry_run acc dict_list name value p e (w : world) :
  dict_list !! 0 = Some (name, value) ->
  registry w !! name = Some p ->
  errors_from_string value = ok e ->
  (0 <= Spec.squared_error e)%R ->
  read_group_entry acc dict_list w
  = (ok {| parameter_names := parameter_names acc ++ [name];
           central_values := central_values acc ++ [central_value e];
           errors := errors acc ++ [sqrt (Spec.squared_error e)] |}, w).
Proof.
  intros Hitem Hreg He Hpos.
  unfold read_group_entry, mbind, lift, list_index, Parameter_getitem, mret.
  rewrite Hitem. simpl. rewrite Hreg, He.
  pose proof (combined_error_spec e) as Herr. unfold math_sqrt in Herr.
  simpl. rewrite Herr.
  destruct (Rltb (Spec.squared_error e) 0) eqn:Hlt; [|reflexivity].
  apply Rltb_true in Hlt. lra.
Qed.

Lemma read_group_entries_errors acc values lists (w w' : world) :
  read_group_entries acc values w = (ok lists, w') ->
  exists errs,
    errors lists = errors acc ++ errs
    /\ Forall2 (fun dict_list error =>
         exists name value e,
           dict_list !! 0 = Some (name, value)
           /\ errors_from_string value = ok e
           /\ (0 <= Spec.squared_error e)%R
           /\ error = sqrt (Spec.squared_error e)) values errs.
Proof.
  revert acc w. induction values as [|d values IH]; intros acc w.
  - intros [= <- <-]. exists []. by rewrite app_nil_r.
  - cbn [read_group_entries]. unfold mbind at 1.
    destruct (read_group_entry acc d w) as [[?|acc1] w1] eqn:Hd; [discriminate|].
    intros Hrest.
    apply read_group_entry_ok in Hd
      as (name & value & e & Hitem & _ & He & Hpos & _ & _ & Herr).
    apply IH in Hrest as (errs & Herrs & Hall).
    exists (sqrt (Spec.squared_error e) :: errs). split.
    + by rewrite Herrs, Herr, <- app_assoc.
    + constructor; [|exact Hall]. by exists name, value, e.
Qed.

(** C2. The combined symmetric error of a parameter of a correlated group is
    the square root of the sum of the squares of its symmetric errors plus
    the sum of the products of the two sides of its asymmetric errors:
    the loops of the loader accumulate exactly that sum, [math.sqrt] is
    applied to it, and when the entries of a group have been read the list
    [errors] holds, entry by entry, that root for the error specification of
    the entry. *)
Theorem combined_error_is_root_of_squares_and_products :
  (forall e : error_dict,
      combined_error e = math_sqrt (Spec.squared_error e))
  /\ (forall e : error_dict,
        (0 <= Spec.squared_error e)%R ->
        combined_error e = ok (sqrt (Spec.squared_error e)))
  /\ (forall values lists (w w' : world),
        read_group_entries
          {| parameter_names := []; central_values := []; errors := [] |}
          values w = (ok lists, w') ->
        Forall2 (fun dict_list error =>
          exists name value e,
            dict_list !! 0 = Some (name, value)
            /\ errors_from_string value = ok e
            /\ (0 <= Spec.squared_error e)%R
            /\ error = sqrt (Spec.squared_error e)) values (errors lists)).
Proof.
  split; [exact combined_error_spec|]. split.
  - intros e Hpos. rewrite combined_error_spec. unfold math_sqrt.
    destruct (Rltb (Spec.squared_error e) 0) eqn:Hlt; [|reflexivity].
    apply Rltb_true in Hlt. lra.
  - intros values lists w w' Hread.
    apply read_group_entries_errors in Hread as (errs & Herrs & Hall).
    simpl in Herrs. by rewrite Herrs.
Qed.

Lemma positive_definite_spec (covariance : Np.matrix) :
  positive_definite covariance = true
  <-> Spec.positive (np_linalg_eigvals covariance).
Proof.
  unfold positive_definite, Np.all_positive, Spec.positive.
  rewrite forallb_forall, Forall_forall. split; intros H l Hl.
  - apply Rltb_true, H. by apply list_elem_of_In.
  - apply Rltb_true, H. by apply list_elem_of_In.
Qed.

Lemma checked_covariance_square errors correlation :
  Np.is_square (length errors) correlation = true ->
  checked_covariance errors correlation =
  if positive_definite (Spec.covariance errors correlation)
  then ok (Spec.covariance errors correlation)
  else if positive_definite
            (Spec.covariance errors (Spec.damped correlation))
       then ok (Spec.covariance errors (Spec.damped correlation))
       else raise AssertionError.
Proof.
  intros Hsq. unfold checked_covariance.
  rewrite (covariance_of_square _ _ Hsq). simpl.
  destruct (positive_definite (Spec.covariance errors correlation));
    [reflexivity|]. simpl.
  apply is_square_shape in Hsq.
  rewrite (damped_square _ _ Hsq). simpl.
  rewrite covariance_of_square; [reflexivity|].
  by apply is_square_shape, damped_shape.
Qed.

(** When every step of a group succeeds, the group is installed. *)
Lemma read_parameter_group_run group lists correlation covariance d cs'
    (w : world) :
  read_group_entries
    {| parameter_names := []; central_values := []; errors := [] |}
    (group_values group) w = (ok lists, w) ->
  _fix_correlation_matrix (group_correlation group)
    (length (parameter_names lists)) = ok correlation ->
  checked_covariance (errors lists) correlation = ok covariance ->
  MultivariateNormalDistribution (central_values lists) covariance = ok d ->
  add_constraint (parameter_names lists) d (constraints w) = ok cs' ->
  read_parameter_group group w
  = (ok tt, {| registry := registry w; constraints := cs' |}).
Proof.
  intros Hread Hfix Hcheck Hd Hadd.
  unfold read_parameter_group, mbind, lift, on_constraints.
  rewrite Hread. simpl. rewrite Hfix. simpl. rewrite Hcheck. simpl.
  rewrite Hd. simpl. by rewrite Hadd.
Qed.

(** C1. For a correlation matrix of the dimension of the error vector, the
    check of the covariance succeeds if and only if all eigenvalues are
    strictly positive for the covariance as first built, or, failing that,
    for the covariance rebuilt after one damping pass, which replaces the
    correlation [C] by [0.99 * (C - I) + I]; the covariance that passed is
    the one handed on.  If the rebuilt covariance is not positive-definite
    either, the check raises the assertion failure: there is no second pass,
    the group is not installed and the loader stops there, in the state it
    had reached.  With a covariance that passed, the group is installed as
    soon as the distribution can be built from it and added. *)
Theorem covariance_check_one_damping_pass
    (errs : list R) (correlation : Np.matrix) :
  Np.is_square (length errs) correlation = true ->
  let covariance := Spec.covariance errs correlation in
  let covariance' := Spec.covariance errs (Spec.damped correlation) in
  let positive M := Spec.positive (np_linalg_eigvals M) in
  damped correlation = ok (Spec.damped correlation)
  /\ (forall M,
        checked_covariance errs correlation = ok M <->
        (positive covariance /\ M = covariance)
        \/ (~ positive covariance /\ positive covariance' /\ M = covariance'))
  /\ (forall e,
        checked_covariance errs correlation = raise e <->
        e = AssertionError /\ ~ positive covariance /\ ~ positive covariance')
  /\ (forall groups_before group groups_after lists (w0 w : world),
        _read_yaml_object_values_correlated groups_before w0 = (ok tt, w) ->
        read_group_entries
          {| parameter_names := []; central_values := []; errors := [] |}
          (group_values group) w = (ok lists, w) ->
        errors lists = errs ->
        _fix_correlation_matrix (group_correlation group)
          (length (parameter_names lists)) = ok correlation ->
        ~ positive covariance -> ~ positive covariance' ->
        _read_yaml_object_values_correlated
          (groups_before ++ group :: groups_after) w0
        = (raise AssertionError, w))
  /\ (forall group lists M d cs' (w : world),
        read_group_entries
          {| parameter_names := []; central_values := []; errors := [] |}
          (group_values group) w = (ok lists, w) ->
        errors lists = errs ->
        _fix_correlation_matrix (group_correlation group)
          (length (parameter_names lists)) = ok correlation ->
        (positive covariance /\ M = covariance)
        \/ (~ positive covariance /\ positive covariance' /\ M = covariance') ->
        MultivariateNormalDistribution (central_values lists) M = ok d ->
        add_constraint (parameter_names lists) d (constraints w) = ok cs' ->
        read_parameter_group group w
        = (ok tt, {| registry := registry w; constraints := cs' |})).
Proof.
  intros Hsq covariance covariance' positive.
  pose proof (checked_covariance_square _ _ Hsq) as Hcheck.
  fold covariance covariance' in Hcheck.
  pose proof (positive_definite_spec covariance) as Hpd.
  pose proof (positive_definite_spec covariance') as Hpd'.
  fold (positive covariance) in Hpd. fold (positive covariance') in Hpd'.
  assert (Hok : forall M,
             checked_covariance errs correlation = ok M <->
             (positive covariance /\ M = covariance)
             \/ (~ positive covariance /\ positive covariance'
                 /\ M = covariance')).
  { intros M. rewrite Hcheck.
    destruct (positive_definite covariance) eqn:H1;
      [|destruct (positive_definite covariance') eqn:H2].
    + split.
      * intros [= <-]. left. split; [by apply Hpd|reflexivity].
      * intros [[_ ->]|[Hn _]]; [reflexivity|]. exfalso. by apply Hn, Hpd.
    + split.
      * intros [= <-]. right. split; [|split; [by apply Hpd'|reflexivity]].
        intros Hp%Hpd. congruence.
      * intros [[Hp%Hpd _]|(_ & _ & ->)]; [congruence|reflexivity].
    + split; [discriminate|].
      intros [[Hp%Hpd _]|(_ & Hp%Hpd' & _)]; congruence. }
  split; [|split; [exact Hok|split; [|split]]].
  - apply damped_square with (n := length errs). by apply is_square_shape.
  - intros e. rewrite Hcheck.
    destruct (positive_definite covariance) eqn:H1;
      [|destruct (positive_definite covariance') eqn:H2].
    + split; [discriminate|]. intros (_ & Hn & _). exfalso. by apply Hn, Hpd.
    + split; [discriminate|]. intros (_ & _ & Hn). exfalso. by apply Hn, Hpd'.
    + split.
      * intros [= <-]. split; [reflexivity|].
        split; intros Hp; [apply Hpd in Hp|apply Hpd' in Hp]; congruence.
      * intros (-> & _). reflexivity.
  - intros gb g ga lists w0 w Hgb Hread Herrs Hfix Hn Hn'.
    unfold _read_yaml_object_values_correlated in *.
    apply (for_each_raise _ _ _ _ _ _ _ _ Hgb).
    unfold read_parameter_group, mbind, lift.
    rewrite Hread. simpl. rewrite Hfix. simpl. rewrite Herrs, Hcheck.
    destruct (positive_definite covariance) eqn:H1;
      [exfalso; by apply Hn, Hpd|].
    destruct (positive_definite covariance') eqn:H2;
      [exfalso; by apply Hn', Hpd'|].
    reflexivity.
  - intros g lists M d cs' w Hread Herrs Hfix HM Hd Hadd.
    apply (read_parameter_group_run g lists correlation M d cs' w);
      try done.
    rewrite Herrs. by apply Hok.
Qed.

End CorrelatedFacts.

Lemma sqrt_of_square (x y : R) : (0 <= y)%R -> x = (y * y)%R -> sqrt x = y.
Proof. intros Hy ->. by apply sqrt_square. Qed.

Lemma covariance_example_witness :
  Np.is_square 2 [[1; 0.9]; [0.9; 1]]%R = true
  /\ covariance_of [0.1; 0.2]%R [[1; 0.9]; [0.9; 1]]%R
     = ok (Spec.covariance [0.1; 0.2]%R [[1; 0.9]; [0.9; 1]]%R).
Proof.
  split; [reflexivity|].
  apply (proj1 covariance_is_outer_times_correlation
           [0.1; 0.2]%R [[1; 0.9]; [0.9; 1]]%R).
  reflexivity.
Defined.

(** Two fully correlated parameters: the covariance as first built has the
    eigenvalue zero, the damped one is positive-definite and is handed on. *)
Lemma covariance_check_witness :
  let errs := [1; 1]%R in
  let correlation := [[1; 1]; [1; 1]]%R in
  Np.is_square 2 correlation = true
  /\ ~ Spec.positive (Reference.eigvals (Spec.covariance errs correlation))
  /\ checked_covariance (C := Reference.collaborators) errs correlation
     = ok (Spec.covariance errs (Spec.damped correlation)).
Proof.
  intros errs correlation.
  assert (Hzero : ~ Spec.positive
                      (Reference.eigvals (Spec.covariance errs correlation))).
  { unfold Spec.positive; simpl. intros H. apply Forall_cons in H as [H _].
    rewrite (sqrt_of_square _ 2) in H; lra. }
  split; [reflexivity|]. split; [exact Hzero|].
  destruct (covariance_check_one_damping_pass
              (C := Reference.collaborators) errs correlation eq_refl)
    as (_ & Hok & _).
  apply Hok. right. split; [exact Hzero|]. split; [|reflexivity].
  unfold Spec.positive; simpl. unfold Spec.kronecker; simpl.
  rewrite (sqrt_of_square _ 1.98) by lra.
  repeat constructor; lra.
Defined.

Lemma combined_error_witness :
  let e := mk_error_dict 5 [0.3%R] [(0.4, 0.4)%R] in
  let values : list (list (string * yaml_value (Collaborators := Reference.collaborators))) :=
    [[("m_x", Reference.Y_errors e)]] in
  let w : world :=
    @mk_world Reference.collaborators {["m_x" := new_parameter]} [] in
  (0 <= Spec.squared_error e)%R
  /\ combined_error e = ok (sqrt (Spec.squared_error e))
  /\ sqrt (Spec.squared_error e) = 0.5%R
  /\ exists lists,
       read_group_entries (C := Reference.collaborators)
         {| parameter_names := []; central_values := []; errors := [] |}
         values w = (ok lists, w)
       /\ Forall2 (fun dict_list error =>
            exists name value e',
              dict_list !! 0 = Some (name, value)
              /\ Reference.errors_from_string value = ok e'
              /\ (0 <= Spec.squared_error e')%R
              /\ error = sqrt (Spec.squared_error e')) values (errors lists).
Proof.
  intros e values w.
  pose proof (combined_error_is_root_of_squares_and_products
                (C := Reference.collaborators)) as (_ & Hroot & Hgroup).
  assert (Hpos : (0 <= Spec.squared_error e)%R).
  { unfold Spec.squared_error; simpl. lra. }
  split; [exact Hpos|]. split; [exact (Hroot e Hpos)|]. split.
  { apply sqrt_of_square; [lra|]. unfold Spec.squared_error; simpl. lra. }
  assert (Hread : read_group_entries (C := Reference.collaborators)
            {| parameter_names := []; central_values := []; errors := [] |}
            values w
          = (ok {| parameter_names := ["m_x"]; central_values := [5%R];
                   errors := [sqrt (Spec.squared_error e)] |}, w)).
  { cbn [read_group_entries values]. unfold mbind at 1.
    rewrite (read_group_entry_run (C := Reference.collaborators)
               _ _ "m_x" (Reference.Y_errors e) new_parameter e);
      [reflexivity | reflexivity | apply lookup_singleton_eq
       | reflexivity | exact Hpos]. }
  eexists. split; [exact Hread|].
  exact (Hgroup values _ w w Hread).
Defined.

Lemma sqrt_lt_bound (x y : R) :
  (0 <= x)%R -> (0 < y)%R -> (x < y * y)%R -> (sqrt x < y)%R.
Proof.
  intros Hx Hy Hxy. rewrite <- (sqrt_square y) by lra.
  apply sqrt_lt_1; nra.
Qed.

(** The correlated scenario of the spec, through the whole loader: two
    registered parameters with the errors 0.1 and 0.2 and the correlation
    0.9 end under one joint constraint with the covariance
    [[0.01, 0.018], [0.018, 0.04]]. *)
Example correlated_scenario :
  let w : world :=
    @mk_world Reference.collaborators
      {["a" := new_parameter; "b" := new_parameter]} [] in
  let group :=
    @mk_parameter_group Reference.collaborators
      [[("a", Reference.Y_errors (mk_error_dict 1 [0.1%R] []))];
       [("b", Reference.Y_errors (mk_error_dict 2 [0.2%R] []))]]
      (Reference.Y_matrix [[1; 0.9]; [0.9; 1]]%R) in
  exists (w' : world) covariance,
    _read_yaml_object_values_correlated [group] w = (ok tt, w')
    /\ constraints w'
       = [(["a"; "b"], Reference.MultivariateNormal [1; 2]%R covariance)]
    /\ covariance = [[0.01; 0.018]; [0.018; 0.04]]%R.
Proof.
  intros w group.
  set (e1 := mk_error_dict 1 [0.1%R] []).
  set (e2 := mk_error_dict 2 [0.2%R] []).
  assert (H1 : sqrt (Spec.squared_error e1) = 0.1%R).
  { apply sqrt_of_square; [lra|]. unfold Spec.squared_error; simpl. lra. }
  assert (H2 : sqrt (Spec.squared_error e2) = 0.2%R).
  { apply sqrt_of_square; [lra|]. unfold Spec.squared_error; simpl. lra. }
  assert (Hread :
    read_group_entries (C := Reference.collaborators)
      {| parameter_names := []; central_values := []; errors := [] |}
      (group_values group) w
    = (ok {| parameter_names := ["a"; "b"]; central_values := [1; 2]%R;
             errors := [0.1; 0.2]%R |}, w)).
  { cbn [group_values group read_group_entries]. unfold mbind.
    rewrite (read_group_entry_run (C := Reference.collaborators)
               _ _ "a" (Reference.Y_errors e1) new_parameter e1);
      [|reflexivity|reflexivity|reflexivity
       |unfold Spec.squared_error; simpl; lra].
    cbv beta iota delta [ok].
    rewrite (read_group_entry_run (C := Reference.collaborators)
               _ _ "b" (Reference.Y_errors e2) new_parameter e2);
      [|reflexivity|reflexivity|reflexivity
       |unfold Spec.squared_error; simpl; lra].
    cbn [parameter_names central_values errors app]. by rewrite H1, H2. }
  set (correlation := [[1; 0.9]; [0.9; 1]]%R).
  set (covariance := Spec.covariance [0.1; 0.2]%R correlation).
  assert (Hpos : Np.all_positive (Reference.eigvals covariance) = true).
  { apply (positive_definite_spec (C := Reference.collaborators)).
    unfold Spec.positive; simpl.
    assert (Hroot : (sqrt ((0.1 * 0.1 * 1 - 0.2 * 0.2 * 1)
                           * ((0.1 * 0.1 * 1 - 0.2 * 0.2 * 1) * 1)
                           + 4 * (0.1 * 0.2 * 0.9) * (0.2 * 0.1 * 0.9))
                     < 0.05)%R) by (apply sqrt_lt_bound; clear; lra).
    pose proof (sqrt_pos ((0.1 * 0.1 * 1 - 0.2 * 0.2 * 1)
                           * ((0.1 * 0.1 * 1 - 0.2 * 0.2 * 1) * 1)
                           + 4 * (0.1 * 0.2 * 0.9) * (0.2 * 0.1 * 0.9))).
    clear -Hroot H. repeat constructor; lra. }
  assert (Hcheck : checked_covariance (C := Reference.collaborators)
                     [0.1; 0.2]%R correlation = ok covariance).
  { rewrite checked_covariance_square by reflexivity.
    unfold positive_definite. fold covariance.
    cbn [np_linalg_eigvals Reference.collaborators]. by rewrite Hpos. }
  assert (Hmvn : Reference.MultivariateNormalDistribution [1; 2]%R covariance
                 = ok (Reference.MultivariateNormal [1; 2]%R covariance)).
  { unfold Reference.MultivariateNormalDistribution. rewrite Hpos.
    replace (Reference.is_symmetric covariance) with true; [reflexivity|].
    unfold Reference.is_symmetric; simpl.
    rewrite !Reqb_refl. simpl.
    rewrite !(proj2 (Reqb_true _ _)); [reflexivity|..];
      unfold covariance, Spec.covariance, Reference.entry; simpl; lra. }
  exists (@mk_world Reference.collaborators (registry w)
            [(["a"; "b"], Reference.MultivariateNormal [1; 2]%R covariance)]),
    covariance.
  split; [|split; [reflexivity|]].
  - unfold _read_yaml_object_values_correlated. cbn [for_each].
    unfold mbind at 1.
    by rewrite (read_parameter_group_run (C := Reference.collaborators)
                  group _ correlation covariance _ _ w
                  Hread eq_refl Hcheck Hmvn eq_refl).
  - unfold covariance, Spec.covariance; simpl. repeat f_equal; lra.
Qed.

(** ** The PDG loader *)

Section PdgFacts.
Context `{C : Collaborators}.

Lemma float_div_ok (x y : R) : y <> 0%R -> float_div x y = ok (x / y)%R.
Proof.
  intros Hy. unfold float_div.
  by rewrite (proj2 (Reqb_false y 0) Hy).
Qed.

Lemma lifetime_errors_nonzero (G_central G_right G_left : R) :
  G_central <> 0%R ->
  lifetime_errors (G_central, G_right, G_left)
  = ok (1 / G_central, G_right / G_central ^ 2,
        Rabs G_left / G_central ^ 2)%R.
Proof.
  intros HG.
  assert (HG2 : (G_central ^ 2 <> 0)%R) by (by apply pow_nonzero).
  unfold lifetime_errors. by rewrite !float_div_ok.
Qed.

Lemma lifetime_distribution_nonzero (G_central G_right G_left : R) :
  G_central <> 0%R ->
  lifetime_distribution (G_central, G_right, G_left)
  = (if Reqb (Rabs G_left / G_central ^ 2) (G_right / G_central ^ 2)
     then NormalDistribution (1 / G_central) (G_right / G_central ^ 2)
     else AsymmetricNormalDistribution
            (1 / G_central) (G_right / G_central ^ 2)
            (Rabs G_left / G_central ^ 2))%R.
Proof.
  intros HG. unfold lifetime_distribution.
  by rewrite lifetime_errors_nonzero.
Qed.

(** C4, as the code has it.  For a width of nonzero central value the
    lifetime has the central value [1 / G_central], the right error
    [G_right / G_central^2] and the left error [|G_left| / G_central^2]:
    each error is propagated on its own side, the sides are not swapped.  The
    distribution is built with these as central value, right deviation and
    left deviation.  For the width 1.0 with right error 0.1 and left error
    0.05 the lifetime is 1.0 with right error 0.1 and left error 0.05. *)
Theorem lifetime_errors_keep_their_sides (G_central G_right G_left : R) :
  G_central <> 0%R ->
  lifetime_errors (G_central, G_right, G_left)
  = ok (1 / G_central, G_right / G_central ^ 2,
        Rabs G_left / G_central ^ 2)%R
  /\ lifetime_distribution (G_central, G_right, G_left)
     = (if Reqb (Rabs G_left / G_central ^ 2) (G_right / G_central ^ 2)
        then NormalDistribution (1 / G_central) (G_right / G_central ^ 2)
        else AsymmetricNormalDistribution
               (1 / G_central) (G_right / G_central ^ 2)
               (Rabs G_left / G_central ^ 2))%R
  /\ ((G_central, G_right, G_left) = (1, 0.1, 0.05)%R ->
      exists tau_central tau_right tau_left,
        lifetime_errors (G_central, G_right, G_left)
        = ok (tau_central, tau_right, tau_left)
        /\ tau_central = 1%R /\ tau_right = 0.1%R /\ tau_left = 0.05%R).
Proof.
  intros HG.
  split; [by apply lifetime_errors_nonzero|].
  split; [by apply lifetime_distribution_nonzero|].
  intros [= -> -> ->]. do 3 eexists.
  split; [by apply lifetime_errors_nonzero|].
  rewrite Rabs_pos_eq by lra. repeat split; simpl; lra.
Qed.

(** *** The [try]/[except] block *)

Lemma existing_or_new_registered name p cs' (w : world) :
  registry w !! name = Some p ->
  remove_constraint name (constraints w) = ok cs' ->
  existing_or_new name w
  = (ok tt, {| registry := registry w; constraints := cs' |}).
Proof.
  intros Hreg Hrm.
  unfold existing_or_new, try_except_KeyError, mbind, Parameter_getitem,
    on_constraints.
  rewrite Hreg. simpl. by rewrite Hrm.
Qed.

Lemma existing_or_new_unconstrained name p (w : world) :
  registry w !! name = Some p ->
  remove_constraint name (constraints w) = raise KeyError ->
  existing_or_new name w = (ok tt, w).
Proof.
  intros Hreg Hrm.
  unfold existing_or_new, try_except_KeyError, mbind, Parameter_getitem,
    on_constraints, Parameter_call.
  rewrite Hreg. simpl. rewrite Hrm. simpl. by rewrite Hreg.
Qed.

Lemma existing_or_new_unregistered name (w : world) :
  registry w !! name = None ->
  existing_or_new name w
  = (ok tt, {| registry := <[name := new_parameter]> (registry w);
               constraints := constraints w |}).
Proof.
  intros Hreg.
  unfold existing_or_new, try_except_KeyError, mbind, Parameter_getitem,
    Parameter_call.
  rewrite Hreg. simpl. by rewrite Hreg.
Qed.

Lemma read_pdg_mass_after particles particle entry d (w w1 : world) :
  let name := "m_" +:+ Dict.get_default particle particle pdg_translate in
  existing_or_new name w = (ok tt, w1) ->
  Dict.get particle particles = Some entry ->
  mass_distribution (particle_mass entry) = ok d ->
  exists reg',
    read_pdg_mass particles particle w
    = match add_constraint [name] d (constraints w1) with
      | inr cs' => (ok tt, {| registry := reg'; constraints := cs' |})
      | inl e => (raise e, {| registry := reg'; constraints := constraints w1 |})
      end.
Proof.
  intros name Hnew Hentry Hd. unfold read_pdg_mass, mbind.
  fold name. rewrite Hnew.
  unfold lift, Dict.getitem. rewrite Hentry.
  destruct w1 as [reg1 cs1].
  repeat case_bool_decide;
    unfold set_tex, set_description, on_constraints; simpl;
    rewrite Hd; simpl;
    destruct (add_constraint [name] d cs1); eexists; reflexivity.
Qed.

Lemma read_pdg_lifetime_after particle width d (w w1 : world) :
  let name := "tau_" +:+ Dict.get_default particle particle pdg_translate in
  existing_or_new name w = (ok tt, w1) ->
  lifetime_distribution width = ok d ->
  exists reg',
    read_pdg_lifetime particle width w
    = match add_constraint [name] d (constraints w1) with
      | inr cs' => (ok tt, {| registry := reg'; constraints := cs' |})
      | inl e => (raise e, {| registry := reg'; constraints := constraints w1 |})
      end.
Proof.
  intros name Hnew Hd. unfold read_pdg_lifetime, mbind.
  fold name. rewrite Hnew.
  destruct w1 as [reg1 cs1].
  unfold set_tex, set_description, lift, on_constraints; simpl.
  rewrite Hd; simpl.
  destruct (add_constraint [name] d cs1); eexists; reflexivity.
Qed.

(** The steps of the PDG loader, one at a time: the constraint on a mass
    (and on a lifetime) is installed over whatever was there.  If the
    parameter is registered, the constraint
    on it is removed first and the new one is added to what remains (if it
    had none, there is nothing to remove); if it is not registered, it is
    created, with empty metadata, and the new constraint is added.  In each
    case the constraint added is the one built from the table, under the
    single name of the parameter. *)
Lemma pdg_loader_replaces_constraint (name : string) (w : world) :
  (forall p cs',
      registry w !! name = Some p ->
      remove_constraint name (constraints w) = ok cs' ->
      existing_or_new name w
      = (ok tt, {| registry := registry w; constraints := cs' |}))
  /\ (forall p,
        registry w !! name = Some p ->
        remove_constraint name (constraints w) = raise KeyError ->
        existing_or_new name w = (ok tt, w))
  /\ (registry w !! name = None ->
      existing_or_new name w
      = (ok tt, {| registry := <[name := new_parameter]> (registry w);
                   constraints := constraints w |}))
  /\ (forall particles particle entry d w1,
        name = "m_" +:+ Dict.get_default particle particle pdg_translate ->
        existing_or_new name w = (ok tt, w1) ->
        Dict.get particle particles = Some entry ->
        mass_distribution (particle_mass entry) = ok d ->
        exists reg',
          read_pdg_mass particles particle w
          = match add_constraint [name] d (constraints w1) with
            | inr cs' => (ok tt, {| registry := reg'; constraints := cs' |})
            | inl e =>
                (raise e, {| registry := reg'; constraints := constraints w1 |})
            end)
  /\ (forall particle width d w1,
        name = "tau_" +:+ Dict.get_default particle particle pdg_translate ->
        existing_or_new name w = (ok tt, w1) ->
        lifetime_distribution width = ok d ->
        exists reg',
          read_pdg_lifetime particle width w
          = match add_constraint [name] d (constraints w1) with
            | inr cs' => (ok tt, {| registry := reg'; constraints := cs' |})
            | inl e =>
                (raise e, {| registry := reg'; constraints := constraints w1 |})
            end).
Proof.
  split; [intros p cs'; apply existing_or_new_registered|].
  split; [intros p; apply existing_or_new_unconstrained|].
  split; [apply existing_or_new_unregistered|].
  split.
  - intros particles particle entry d w1 ->. apply read_pdg_mass_after.
  - intros particle width d w1 ->. apply read_pdg_lifetime_after.
Qed.

End PdgFacts.

Lemma asymmetric_normal_ok (central right left : R) :
  (0 < right)%R -> (0 < left)%R ->
  Reference.AsymmetricNormalDistribution central right left
  = ok (Reference.AsymmetricNormal central right left).
Proof.
  intros Hr Hl. unfold Reference.AsymmetricNormalDistribution.
  by rewrite (proj2 (Rltb_true 0 right) Hr), (proj2 (Rltb_true 0 left) Hl).
Qed.

Lemma lifetime_errors_witness :
  1%R <> 0%R
  /\ exists tau_central tau_right tau_left,
       lifetime_errors (1, 0.1, 0.05)%R
       = ok (tau_central, tau_right, tau_left)
       /\ tau_central = 1%R /\ tau_right = 0.1%R /\ tau_left = 0.05%R.
Proof.
  split; [lra|].
  apply (lifetime_errors_keep_their_sides
           (C := Reference.collaborators) 1 0.1 0.05); [lra|reflexivity].
Defined.

(** The example of the spec, the width 1.0 +0.1 -0.05: the lifetime
    installed has the right error 0.1 and the left error 0.05, not the right
    error 0.05 and the left error 0.1 of a swap. *)
Lemma lifetime_errors_swap_counterexample :
  exists (w' : world) central right left,
    read_pdg_lifetime (C := Reference.collaborators)
      "B0" (1, 0.1, 0.05)%R Reference.empty_world = (ok tt, w')
    /\ constraints w'
       = [(["tau_B0"], Reference.AsymmetricNormal central right left)]
    /\ central = 1%R /\ right = 0.1%R /\ left = 0.05%R
    /\ ~ (Spec.approx right 0.05 /\ Spec.approx left 0.1).
Proof.
  pose proof (lifetime_distribution_nonzero
                (C := Reference.collaborators) 1 0.1 0.05) as Hdist.
  specialize (Hdist ltac:(lra)).
  rewrite (proj2 (Reqb_false _ _)) in Hdist
    by (rewrite Rabs_pos_eq by lra; simpl; lra).
  cbn [AsymmetricNormalDistribution Reference.collaborators] in Hdist.
  rewrite asymmetric_normal_ok in Hdist
    by (rewrite ?Rabs_pos_eq by lra; simpl; lra).
  remember (1 / 1)%R as c eqn:Hc.
  remember (0.1 / 1 ^ 2)%R as r eqn:Hr.
  remember (Rabs 0.05 / 1 ^ 2)%R as l eqn:Hl.
  set (out := read_pdg_lifetime (C := Reference.collaborators)
                "B0" (1, 0.1, 0.05)%R Reference.empty_world).
  assert (Hout : out.1 = ok tt
                 /\ constraints out.2
                    = [(["tau_B0"], Reference.AsymmetricNormal c r l)]).
  { subst out. unfold read_pdg_lifetime, mbind, lift. rewrite Hdist.
    clear. split; vm_compute; reflexivity. }
  destruct Hout as [Hok Hcs].
  assert (Hr' : r = 0.1%R) by (subst r; simpl; lra).
  assert (Hl' : l = 0.05%R)
    by (subst l; rewrite Rabs_pos_eq by lra; simpl; lra).
  exists out.2, c, r, l. split; [|split; [exact Hcs|]].
  { rewrite <- Hok. by destruct out. }
  split; [subst c; lra|]. split; [exact Hr'|]. split; [exact Hl'|].
  intros [Hswap _]. unfold Spec.approx in Hswap. rewrite Hr' in Hswap.
  rewrite (Rabs_pos_eq (0.1 - 0.05)), (Rabs_pos_eq 0.05) in Hswap by lra.
  lra.
Qed.

(** The B0 mass is registered and constrained to 5 +- 1; the table has
    5.28 +0.001 -0.001.  After the mass step the constraint is the one of
    the table. *)
Lemma pdg_loader_replaces_constraint_witness :
  let w : world :=
    @mk_world Reference.collaborators
      {["m_B0" := new_parameter]} [(["m_B0"], Reference.Normal 5 1)] in
  let particles : Dict.t particle :=
    [("B0", {| particle_id := "511";
               particle_mass := (5.28, 0.001, - 0.001)%R;
               particle_charge := "0";
               particle_width := (0, 0, 0)%R;
               particle_name := "B" |})] in
  exists w' : world,
    read_pdg_mass (C := Reference.collaborators) particles "B0" w = (ok tt, w')
    /\ constraints w' = [(["m_B0"], Reference.Normal 5.28 0.001)].
Proof.
  intros w particles.
  destruct (pdg_loader_replaces_constraint
              (C := Reference.collaborators) "m_B0" w)
    as (Hremoved & _ & _ & Hmass & _).
  specialize (Hremoved new_parameter [] eq_refl eq_refl).
  assert (Hd : mass_distribution (C := Reference.collaborators)
                 (5.28, 0.001, - 0.001)%R
               = ok (Reference.Normal 5.28 0.001)).
  { unfold mass_distribution. cbv beta iota zeta.
    rewrite (proj2 (Reqb_true _ _)); [reflexivity|].
    unfold Rabs. destruct (Rcase_abs _); lra. }
  destruct (Hmass particles "B0" _ _ _ eq_refl Hremoved eq_refl Hd)
    as [reg' Hrun].
  eexists. split; [exact Hrun|reflexivity].
Defined.

(** *** The table of masses and widths *)

Section MasswidthFacts.
Context `{C : Collaborators}.

Lemma strip_first (line rest : string) (c : ascii) :
  Str.lstrip line = String c rest ->
  Str.is_space c = false ->
  Str.index (Str.strip line) 0 = ok c.
Proof.
  intros Hl Hc. unfold Str.strip. rewrite Hl. cbn [Str.rstrip].
  rewrite Hc, andb_false_r. reflexivity.
Qed.

Lemma read_masswidth_line_comment particles_by_name line rest :
  Str.lstrip line = String "*" rest ->
  read_masswidth_line particles_by_name line = ok particles_by_name.
Proof.
  intros Hl. unfold read_masswidth_line.
  by rewrite (strip_first _ _ _ Hl eq_refl).
Qed.

Lemma read_masswidth_lines_app particles_by_name before after :
  read_masswidth_lines particles_by_name (before ++ after)
  = rbind (read_masswidth_lines particles_by_name before)
          (fun particles_by_name' =>
             read_masswidth_lines particles_by_name' after).
Proof.
  revert particles_by_name.
  induction before as [|line before IH]; intros pbn; [reflexivity|].
  cbn [app read_masswidth_lines].
  destruct (read_masswidth_line pbn line) as [e|pbn']; simpl; [reflexivity|].
  apply IH.
Qed.

Lemma read_masswidth_lines_raise particles_by_name before line after :
  (forall pbn, exists e, read_masswidth_line pbn line = raise e) ->
  exists e,
    read_masswidth_lines particles_by_name (before ++ line :: after) = raise e.
Proof.
  intros Hline. rewrite read_masswidth_lines_app.
  destruct (read_masswidth_lines particles_by_name before) as [e|pbn]; simpl.
  - by exists e.
  - destruct (Hline pbn) as [e He]. exists e. by rewrite He.
Qed.

Lemma read_masswidth_line_mismatch particles_by_name line first charge_list :
  Str.index (Str.strip line) 0 = ok first ->
  first <> "*"%char ->
  list_index (Str.split (Str.slice 107 128 line)) 1 = ok charge_list ->
  length (Str.split (Str.slice 0 32 line))
  <> length (Str.split_on "," charge_list) ->
  (exists e, read_masswidth_line particles_by_name line = raise e)
  /\ (forall mass width,
        float3 (Str.slice 33 51 line) (Str.slice 52 60 line)
               (Str.slice 61 69 line) = ok mass ->
        read_width line = ok width ->
        read_masswidth_line particles_by_name line = raise ValueError).
Proof.
  intros Hfirst Hstar Hcharges Hlen. unfold read_masswidth_line.
  rewrite Hfirst. simpl.
  rewrite (proj2 (Ascii.eqb_neq first "*") Hstar).
  assert (Hne : negb (length (Str.split (Str.slice 0 32 line))
                      =? length (Str.split_on "," charge_list)) = true).
  { apply negb_true_iff, Nat.eqb_neq, Hlen. }
  split.
  - destruct (float3 _ _ _) as [e|mass]; simpl; [by exists e|].
    destruct (read_width line) as [e|width]; simpl; [by exists e|].
    rewrite Hcharges. simpl. rewrite Hne. by exists ValueError.
  - intros mass width -> ->. simpl. rewrite Hcharges. simpl. by rewrite Hne.
Qed.

(** C6. A line whose first non-whitespace character is an asterisk is
    skipped: it leaves the particles read so far as they are, and the table
    with the line parses as the table without it.  A row whose number of
    ID codes is not the number of its charge labels makes the parse raise: [ValueError] when its
    mass and width columns are read, an earlier error otherwise; and a table
    with such a row yields an error, never a dictionary. *)
Theorem masswidth_comment_lines_and_mismatched_rows :
  (forall particles_by_name line rest,
      Str.lstrip line = String "*" rest ->
      read_masswidth_line particles_by_name line = ok particles_by_name)
  /\ (forall before line rest after,
        Str.lstrip line = String "*" rest ->
        _read_pdg_masswidth (before ++ line :: after)
        = _read_pdg_masswidth (before ++ after))
  /\ (forall line first charge_list,
        Str.index (Str.strip line) 0 = ok first ->
        first <> "*"%char ->
        list_index (Str.split (Str.slice 107 128 line)) 1 = ok charge_list ->
        length (Str.split (Str.slice 0 32 line))
        <> length (Str.split_on "," charge_list) ->
        (forall particles_by_name mass width,
            float3 (Str.slice 33 51 line) (Str.slice 52 60 line)
                   (Str.slice 61 69 line) = ok mass ->
            read_width line = ok width ->
            read_masswidth_line particles_by_name line = raise ValueError)
        /\ (forall before after,
              exists e,
                _read_pdg_masswidth (before ++ line :: after) = raise e)).
Proof.
  split; [exact read_masswidth_line_comment|]. split.
  - intros before line rest after Hl. unfold _read_pdg_masswidth.
    rewrite !read_masswidth_lines_app.
    destruct (read_masswidth_lines [] before) as [e|pbn]; simpl; [reflexivity|].
    by rewrite (read_masswidth_line_comment _ _ _ Hl).
  - intros line first charge_list Hfirst Hstar Hcharges Hlen. split.
    + intros pbn. by apply (read_masswidth_line_mismatch pbn line first charge_list).
    + intros before after. unfold _read_pdg_masswidth.
      destruct (read_masswidth_lines_raise [] before line after) as [e He].
      * intros pbn.
        by apply (read_masswidth_line_mismatch pbn line first charge_list).
      * exists e. by rewrite He.
Qed.

(** *** Where the entries of the result come from *)

Lemma dict_get_elem {V} (Q : string -> V -> Prop) k v (d : Dict.t V) :
  Forall (fun kv => Q kv.1 kv.2) d -> Dict.get k d = Some v -> Q k v.
Proof.
  induction 1 as [|[k' v'] d HQ _ IH]; simpl; [discriminate|].
  destruct (String.eqb k k') eqn:Hk.
  - apply String.eqb_eq in Hk as ->. by intros [= <-].
  - exact IH.
Qed.

Lemma dict_set_Forall {V} (Q : string -> V -> Prop) k v (d : Dict.t V) :
  Forall (fun kv => Q kv.1 kv.2) d -> Q k v ->
  Forall (fun kv => Q kv.1 kv.2) (Dict.set k v d).
Proof.
  intros Hd Hv. induction Hd as [|[k' v'] d HQ Hd IH]; simpl.
  - by constructor.
  - destruct (String.eqb k k'); constructor; done.
Qed.

Lemma dict_update_Forall {V} (Q : string -> V -> Prop) (d e : Dict.t V) :
  Forall (fun kv => Q kv.1 kv.2) d -> Forall (fun kv => Q kv.1 kv.2) e ->
  Forall (fun kv => Q kv.1 kv.2) (Dict.update d e).
Proof.
  intros Hd He. revert d Hd. unfold Dict.update.
  induction He as [|[k v] e HQ _ IH]; intros d Hd; simpl; [exact Hd|].
  apply IH. by apply dict_set_Forall.
Qed.

End MasswidthFacts.

Example table_parses :
  exists particles,
    _read_pdg_masswidth (C := Reference.collaborators) Reference.table
    = ok particles
    /\ map fst particles = ["B0"; "B+"; "B*0"; "B*+"].
Proof.
  destruct (_read_pdg_masswidth (C := Reference.collaborators) Reference.table)
    as [e|particles] eqn:Hparse.
  - vm_compute in Hparse. discriminate.
  - exists particles. split; [reflexivity|].
    vm_compute in Hparse. injection Hparse as <-. reflexivity.
Qed.

Lemma masswidth_witness :
  read_masswidth_line (C := Reference.collaborators)
    [] "  * MASSES, WIDTHS, AND MC ID NUMBERS" = ok []
  /\ read_masswidth_line (C := Reference.collaborators)
       [] Reference.mismatched_row = raise ValueError
  /\ exists e,
       _read_pdg_masswidth (C := Reference.collaborators)
         (Reference.table ++ Reference.mismatched_row :: []) = raise e.
Proof.
  destruct (masswidth_comment_lines_and_mismatched_rows
              (C := Reference.collaborators)) as (Hcomment & _ & Hmismatch).
  split.
  { apply (Hcomment [] _ " MASSES, WIDTHS, AND MC ID NUMBERS"). reflexivity. }
  destruct (Hmismatch Reference.mismatched_row "5"%char "0")
    as [Hrow Htable]; try reflexivity.
  { discriminate. }
  { vm_compute. discriminate. }
  split; [|apply Htable].
  destruct (float3 (C := Reference.collaborators)
              (Str.slice 33 51 Reference.mismatched_row)
              (Str.slice 52 60 Reference.mismatched_row)
              (Str.slice 61 69 Reference.mismatched_row))
    as [e|mass] eqn:Hmass.
  { vm_compute in Hmass. discriminate. }
  apply (Hrow [] mass (0, 0, 0)%R); reflexivity.
Defined.

(** * Further properties *)

(** ** Dictionaries *)

Lemma dict_get_set {V} (k k' : string) (v : V) (d : Dict.t V) :
  Dict.get k' (Dict.set k v d)
  = if String.eqb k' k then Some v else Dict.get k' d.
Proof.
  induction d as [|[k0 v0] d IH]; simpl.
  - reflexivity.
  - destruct (String.eqb k k0) eqn:Hk; simpl.
    + apply String.eqb_eq in Hk as ->. by destruct (String.eqb k' k0).
    + destruct (String.eqb k' k0) eqn:Hk'; [|exact IH].
      apply String.eqb_eq in Hk' as ->.
      by rewrite (proj2 (String.eqb_neq k0 k))
        by (intros ->; by rewrite String.eqb_refl in Hk).
Qed.

Lemma dict_get_update_notin {V} (k : string) (d e : Dict.t V) :
  k ∉ map fst e -> Dict.get k (Dict.update d e) = Dict.get k d.
Proof.
  revert d. unfold Dict.update.
  induction e as [|[k0 v0] e IH]; intros d Hk; simpl; [reflexivity|].
  cbn [map fst] in Hk. apply not_elem_of_cons in Hk as [Hne Hk].
  rewrite (IH _ Hk), dict_get_set.
  by rewrite (proj2 (String.eqb_neq k k0)).
Qed.

Lemma dict_get_update_in {V} (k : string) (v : V) (d e : Dict.t V) :
  NoDup (map fst e) -> (k, v) ∈ e ->
  Dict.get k (Dict.update d e) = Some v.
Proof.
  revert d. unfold Dict.update.
  induction e as [|[k0 v0] e IH]; intros d Hnd Hin; simpl.
  - by apply elem_of_nil in Hin.
  - cbn [map fst] in Hnd. apply NoDup_cons in Hnd as [Hfresh Hnd].
    apply elem_of_cons in Hin as [[= -> ->]|Hin].
    + pose proof (dict_get_update_notin k0 (Dict.set k0 v0 d) e Hfresh) as H.
      unfold Dict.update in H. rewrite H, dict_get_set.
      by rewrite String.eqb_refl.
    + by apply IH.
Qed.

Lemma dict_get_update_Some {V} (k : string) (v : V) (d e : Dict.t V) :
  Dict.get k (Dict.update d e) = Some v ->
  (k, v) ∈ e \/ Dict.get k d = Some v.
Proof.
  revert d. unfold Dict.update.
  induction e as [|[k0 v0] e IH]; intros d; simpl; [by right|].
  intros [Hin|Hget]%IH.
  - left. by right.
  - rewrite dict_get_set in Hget.
    destruct (String.eqb k k0) eqn:Hk; [|by right].
    apply String.eqb_eq in Hk as ->. injection Hget as ->. left. by left.
Qed.

Lemma dict_set_keys_NoDup {V} (k : string) (v : V) (d : Dict.t V) :
  NoDup (map fst d) -> NoDup (map fst (Dict.set k v d)).
Proof.
  induction d as [|[k0 v0] d IH]; simpl; intros Hnd.
  - apply NoDup_singleton.
  - apply NoDup_cons in Hnd as [Hfresh Hnd].
    destruct (String.eqb k k0) eqn:Hk; simpl.
    + apply String.eqb_eq in Hk as ->. by apply NoDup_cons.
    + apply NoDup_cons. split; [|by apply IH].
      intros Hin. apply list_elem_of_fmap in Hin as ([k1 v1] & -> & Hin).
      simpl in *. apply Hfresh.
      assert (Hkeys : forall (e : Dict.t V) x y,
                 (x, y) ∈ Dict.set k v e -> x = k \/ x ∈ map fst e).
      { clear. induction e as [|[a b] e IHe]; simpl; intros x y Hxy.
        - apply list_elem_of_singleton in Hxy as [= -> _]. by left.
        - destruct (String.eqb k a) eqn:Hka.
          + apply elem_of_cons in Hxy as [[= -> _]|Hxy]; [by left|].
            right. right. apply list_elem_of_fmap. by exists (x, y).
          + apply elem_of_cons in Hxy as [[= -> _]|Hxy]; [right; by left|].
            destruct (IHe _ _ Hxy) as [->|Hx]; [by left|]. right. by right. }
      destruct (Hkeys d k1 v1 Hin) as [->|Hk1]; [|exact Hk1].
      by rewrite String.eqb_refl in Hk.
Qed.

Lemma dict_update_keys_NoDup {V} (d e : Dict.t V) :
  NoDup (map fst d) -> NoDup (map fst (Dict.update d e)).
Proof.
  revert d. unfold Dict.update.
  induction e as [|[k v] e IH]; intros d Hnd; simpl; [exact Hnd|].
  apply IH. by apply dict_set_keys_NoDup.
Qed.

(** ** [wcnp_dict] *)

Section WcnpFacts.
Variables (wilson_coefficients sector scale par coefficient : Type).
Variable get_wc :
  wilson_coefficients -> sector -> scale -> par -> result (list coefficient).
Variable coefficients : wilson_coefficients -> sector -> result (list string).

Lemma zip_keys_NoDup {A} (labels : list string) (values : list A) :
  NoDup labels -> NoDup (map fst (zip labels values)).
Proof.
  revert values. induction labels as [|l labels IH]; intros values Hnd.
  - constructor.
  - destruct values as [|x values]; [constructor|]. simpl.
    apply NoDup_cons in Hnd as [Hfresh Hnd]. apply NoDup_cons.
    split; [|by apply IH].
    intros Hin. apply Hfresh.
    apply list_elem_of_fmap in Hin as ([l' x'] & -> & Hin).
    apply elem_of_zip_l in Hin. exact Hin.
Qed.

Lemma elem_of_zip_lookup {A} (labels : list string) (values : list A) l x :
  (l, x) ∈ zip labels values
  <-> exists i, labels !! i = Some l /\ values !! i = Some x.
Proof.
  rewrite list_elem_of_lookup. split.
  - intros [i Hi]. exists i.
    apply lookup_zip_with_Some in Hi as (a & b & [= -> ->] & Ha & Hb). done.
  - intros (i & Hl & Hx). exists i. apply lookup_zip_with_Some. eauto.
Qed.

(** X1. [wcnp_dict] pairs the labels of the sector with the coefficients by
    position.  Whatever it holds under a label is the coefficient at a
    position of that label; when the labels are distinct, every label that
    has a coefficient at its position maps to it, and a label beyond the
    last coefficient is absent.  The keys of the result are distinct. *)
Theorem wcnp_dict_pairs_labels_with_coefficients
    wc_obj the_sector the_scale the_par wc_np wc_labels :
  get_wc wc_obj the_sector the_scale the_par = ok wc_np ->
  coefficients wc_obj the_sector = ok wc_labels ->
  exists wc_dict,
    Wcnp.wcnp_dict _ _ _ _ _ get_wc coefficients
      wc_obj the_sector the_scale the_par = ok wc_dict
    /\ NoDup (map fst wc_dict)
    /\ (forall label x,
          Dict.get label wc_dict = Some x ->
          exists i, wc_labels !! i = Some label /\ wc_np !! i = Some x)
    /\ (NoDup wc_labels ->
        forall i label,
          wc_labels !! i = Some label ->
          Dict.get label wc_dict = wc_np !! i).
Proof.
  intros Hwc Hlabels. unfold Wcnp.wcnp_dict. rewrite Hwc, Hlabels. simpl.
  eexists. split; [reflexivity|]. unfold Dict.of_items.
  split; [apply dict_update_keys_NoDup; constructor|]. split.
  - intros label x [Hin|Hget]%dict_get_update_Some; [|discriminate].
    by apply elem_of_zip_lookup.
  - intros Hnd i label Hi.
    destruct (wc_np !! i) as [x|] eqn:Hx.
    + apply dict_get_update_in; [by apply zip_keys_NoDup|].
      apply elem_of_zip_lookup. eauto.
    + destruct (Dict.get label (Dict.update [] (zip wc_labels wc_np)))
        as [x|] eqn:Hget; [|reflexivity].
      apply dict_get_update_Some in Hget as [Hin|Hget]; [|discriminate].
      apply elem_of_zip_lookup in Hin as (j & Hj & Hxj).
      rewrite (NoDup_lookup _ _ _ _ Hnd Hi Hj) in Hx. congruence.
Qed.

End WcnpFacts.

Lemma wcnp_dict_witness :
  exists wc_dict,
    Wcnp.wcnp_dict unit unit unit unit Z
      (fun _ _ _ _ => ok [10; 20]%Z)
      (fun _ _ => ok ["CVLL"; "CSLL"; "CTLL"]) tt tt tt tt = ok wc_dict
    /\ Dict.get "CSLL" wc_dict = Some 20%Z
    /\ Dict.get "CTLL" wc_dict = None.
Proof.
  destruct (wcnp_dict_pairs_labels_with_coefficients
              unit unit unit unit Z
              (fun _ _ _ _ => ok [10; 20]%Z)
              (fun _ _ => ok ["CVLL"; "CSLL"; "CTLL"])
              tt tt tt tt [10; 20]%Z ["CVLL"; "CSLL"; "CTLL"]
              eq_refl eq_refl)
    as (wc_dict & Hrun & _ & _ & Hget).
  assert (Hnd : NoDup ["CVLL"; "CSLL"; "CTLL"]).
  { apply (bool_decide_unpack _). reflexivity. }
  exists wc_dict. split; [exact Hrun|]. split.
  - exact (Hget Hnd 1 "CSLL" eq_refl).
  - exact (Hget Hnd 2 "CTLL" eq_refl).
Defined.

(** ** The matcher and [_pdg_particle_string_to_tex] *)

Lemma star_loop_cont_dom round k fuel s g m :
  (forall s g k m,
      round s g k = Some m ->
      exists s' g', dom g ⊆ dom g' /\ k s' g' = Some m) ->
  Re.star_loop round k fuel s g = Some m ->
  exists s' g', dom g ⊆ dom g' /\ k s' g' = Some m.
Proof.
  intros Hround. revert s g.
  induction fuel as [|fuel IH]; intros s g; cbn [Re.star_loop].
  - intros Hk. by exists s, g.
  - destruct (round s g _) as [m'|] eqn:Hr.
    + intros [= ->]. apply Hround in Hr as (s1 & g1 & Hsub & Hk).
      destruct (String.length s1 <? String.length s); [|discriminate].
      apply IH in Hk as (s2 & g2 & Hsub' & Hk).
      exists s2, g2. split; [set_solver|exact Hk].
    + intros Hk. by exists s, g.
Qed.

(** A match goes on with the continuation, with no group forgotten. *)
Lemma run_cont_dom r s g k m :
  Re.run r s g k = Some m ->
  exists s' g', dom g ⊆ dom g' /\ k s' g' = Some m.
Proof.
  revert s g k m.
  induction r as [p|r1 IH1 r2 IH2|r IH|n r IH|]; intros s g k m;
    cbn [Re.run].
  - destruct s as [|c s]; [discriminate|].
    destruct (p c); [|discriminate]. intros Hk. by exists s, g.
  - intros (s1 & g1 & Hsub & Hk)%IH1.
    apply IH2 in Hk as (s2 & g2 & Hsub' & Hk).
    exists s2, g2. split; [set_solver|exact Hk].
  - apply star_loop_cont_dom. exact IH.
  - intros (s1 & g1 & Hsub & Hk)%IH.
    exists s1, (<[n := Re.consumed s s1]> g1). split; [|exact Hk].
    unfold Re.groups in *. rewrite dom_insert_L. set_solver.
  - destruct (_ || _); [|discriminate]. intros Hk. by exists s, g.
Qed.

(** A group that was passed is in the match. *)
Lemma run_group_dom n r s g k m :
  Re.run (Re.Group n r) s g k = Some m ->
  exists s' g', n ∈ dom g' /\ dom g ⊆ dom g' /\ k s' g' = Some m.
Proof.
  cbn [Re.run]. intros (s1 & g1 & Hsub & Hk)%run_cont_dom.
  exists s1, (<[n := Re.consumed s s1]> g1).
  unfold Re.groups in *. rewrite dom_insert_L.
  split; [set_solver|]. split; [set_solver|exact Hk].
Qed.

Lemma run_seq r1 r2 s g k :
  Re.run (Re.Seq r1 r2) s g k
  = Re.run r1 s g (fun s' g' => Re.run r2 s' g' k).
Proof. reflexivity. Qed.

Lemma match_groups_1_2_5 text m :
  Re.match_ Pdg.regex text = Some m ->
  is_Some (m !! 1) /\ is_Some (m !! 2) /\ is_Some (m !! 5).
Proof.
  unfold Re.match_, Pdg.regex. rewrite run_seq.
  intros (s1 & g1 & H1 & _ & Hk)%run_group_dom.
  rewrite run_seq in Hk.
  apply run_group_dom in Hk as (s2 & g2 & H2 & Hsub2 & Hk).
  rewrite run_seq in Hk.
  apply run_cont_dom in Hk as (s3 & g3 & Hsub3 & Hk).
  rewrite run_seq in Hk.
  apply run_cont_dom in Hk as (s4 & g4 & Hsub4 & Hk).
  rewrite run_seq in Hk.
  apply run_group_dom in Hk as (s5 & g5 & H5 & Hsub5 & Hk).
  apply run_cont_dom in Hk as (s6 & g6 & Hsub6 & [= <-]).
  unfold Re.groups in *.
  repeat split; apply elem_of_dom; set_solver.
Qed.

(** X2. [_pdg_particle_string_to_tex] returns a string for every text:
    whenever the pattern matches, the groups 1, 2 and 5 took part in the
    match, so that joining the groups 2 and 5 and measuring the group 1
    cannot fail on a missing group. *)
Theorem pdg_particle_string_to_tex_never_raises (text : string) :
  exists tex_name, Pdg._pdg_particle_string_to_tex text = ok tex_name.
Proof.
  unfold Pdg._pdg_particle_string_to_tex.
  destruct (Re.match_ Pdg.regex text) as [m|] eqn:Hm.
  - apply match_groups_1_2_5 in Hm as ([g1 ->] & [g2 ->] & [g5 ->]).
    simpl. eexists. reflexivity.
  - destruct (String.eqb text "J/psi(1S)"); eexists; reflexivity.
Qed.

(** X3. A text that does not begin with a letter of the Latin alphabet (the
    empty text among them) is returned as it is. *)
Theorem pdg_particle_string_to_tex_without_leading_letter (text : string) :
  match text with
  | String c _ => Re.letter c = false
  | EmptyString => True
  end ->
  Pdg._pdg_particle_string_to_tex text = ok text.
Proof.
  intros Hc. unfold Pdg._pdg_particle_string_to_tex.
  assert (Hm : Re.match_ Pdg.regex text = None).
  { unfold Re.match_, Pdg.regex, Re.Plus. cbn [Re.run].
    destruct text as [|c text]; [reflexivity|]. by rewrite Hc. }
  rewrite Hm.
  destruct (String.eqb text "J/psi(1S)") eqn:Heq; [|reflexivity].
  apply String.eqb_eq in Heq. subst text. discriminate.
Qed.

Lemma pdg_particle_string_to_tex_without_leading_letter_witness :
  Pdg._pdg_particle_string_to_tex "(892)" = ok "(892)".
Proof.
  apply (pdg_particle_string_to_tex_without_leading_letter "(892)").
  reflexivity.
Defined.

Lemma substring_full (s : string) : String.substring 0 (String.length s) s = s.
Proof. induction s as [|c s IH]; simpl; [reflexivity|]. by rewrite IH. Qed.

Lemma star_cls_all p (a : string) g k fuel m :
  forallb p (list_ascii_of_string a) = true ->
  String.length a <= fuel ->
  k EmptyString g = Some m ->
  Re.star_loop (Re.run (Re.Cls p)) k fuel a g = Some m.
Proof.
  revert fuel. induction a as [|c a IH]; intros fuel Hall Hfuel Hk.
  - destruct fuel; simpl; by rewrite Hk.
  - destruct fuel as [|fuel]; [simpl in Hfuel; lia|].
    simpl in Hall. apply andb_true_iff in Hall as [Hc Hall].
    cbn [Re.star_loop Re.run]. rewrite Hc.
    rewrite (proj2 (Nat.ltb_lt _ _)) by (simpl; lia).
    rewrite IH; [reflexivity|exact Hall|simpl in Hfuel; lia|exact Hk].
Qed.

(** X4. A text made of letters of the Latin alphabet only is its own TeX
    name when it is a single letter, and gets a backslash in front when it
    is longer. *)
Theorem pdg_particle_string_to_tex_of_letters (text : string) :
  text <> EmptyString ->
  forallb Re.letter (list_ascii_of_string text) = true ->
  Pdg._pdg_particle_string_to_tex text
  = ok (if 1 <? String.length text then "\" +:+ text else text).
Proof.
  intros Hne Hall. unfold Pdg._pdg_particle_string_to_tex.
  assert (Hm : Re.match_ Pdg.regex text
               = Some (<[5 := EmptyString]>
                         (<[2 := EmptyString]> (<[1 := text]> ∅)))).
  { destruct text as [|c a]; [done|].
    simpl in Hall. apply andb_true_iff in Hall as [Hc Hall].
    unfold Re.match_, Pdg.regex, Re.Plus. cbn [Re.run]. rewrite Hc.
    apply star_cls_all; [exact Hall|lia|].
    unfold Re.consumed. rewrite Nat.sub_0_r, substring_full.
    reflexivity. }
  rewrite Hm. reflexivity.
Qed.

Lemma pdg_particle_string_to_tex_of_letters_witness :
  Pdg._pdg_particle_string_to_tex "tau" = ok "\tau"
  /\ Pdg._pdg_particle_string_to_tex "b" = ok "b".
Proof.
  split.
  - apply (pdg_particle_string_to_tex_of_letters "tau"); [discriminate|].
    reflexivity.
  - apply (pdg_particle_string_to_tex_of_letters "b"); [discriminate|].
    reflexivity.
Defined.

(** The TeX names of the particles [read_pdg] loads. *)
Example pdg_include_tex_names :
  map Pdg._pdg_particle_string_to_tex pdg_include
  = map ok
      ["B_{s}"; "B_{c}"; "B^{*}_{s}"; "B^{*+}"; "B^{*0}"; "B^{+}"; "B^{0}";
       "D_{s}"; "D^{*}_{s}"; "D^{+}"; "D^{0}"; "H"; "J/\psi"; "K_{L}";
       "K_{S}"; "K^{*+}"; "K^{*0}"; "K^{+}"; "K^{0}"; "\Lambda";
       "\Lambda_{b}"; "\Lambda_{c}"; "\omega"; "D^{*}"; "D^{*}"; "W"; "Z";
       "b"; "c"; "d"; "e"; "\eta"; "f"; "\mu"; "\phi"; "\pi^{+}"; "\pi^{0}";
       "\psi_{2S}"; "\rho^{+}"; "\rho^{0}"; "s"; "t"; "\tau"; "u"].
Proof. vm_compute. reflexivity. Qed.

(** ** What the loaders do to the registry *)

Section RegistryFacts.
Context `{C : Collaborators}.

Lemma mbind_rel {A B} (R : world -> world -> Prop) `{!Transitive R}
    (c : M A) (k : A -> M B) (w : world) :
  R w (c w).2 -> (forall a w1, R w1 (k a w1).2) -> R w (mbind c k w).2.
Proof.
  intros Hc Hk. unfold mbind. specialize (Hk).
  destruct (c w) as [[e|a] w1]; simpl in *; [exact Hc|].
  by transitivity w1.
Qed.

Lemma for_each_rel {A} (R : world -> world -> Prop)
    `{!Reflexive R} `{!Transitive R} (body : A -> M unit) :
  (forall x w, R w (body x w).2) ->
  forall xs w, R w (for_each xs body w).2.
Proof.
  intros Hbody xs. induction xs as [|x xs IH]; intros w; cbn [for_each].
  - reflexivity.
  - apply mbind_rel; [done|apply Hbody|]. intros _ w1. apply IH.
Qed.

#[export] Instance same_registry_refl : Reflexive same_registry.
Proof. by intros w. Qed.

#[export] Instance same_registry_trans : Transitive same_registry.
Proof. unfold same_registry. intros w1 w2 w3 H12 H23. congruence. Qed.

#[export] Instance registry_grows_refl : Reflexive registry_grows.
Proof. by intros w name. Qed.

#[export] Instance registry_grows_trans : Transitive registry_grows.
Proof. intros w1 w2 w3 H12 H23 name H. by apply H23, H12. Qed.

Lemma on_constraints_same_registry method (w : world) :
  same_registry w (on_constraints method w).2.
Proof.
  unfold on_constraints, same_registry.
  by destruct (method (constraints w)).
Qed.

Lemma Parameter_getitem_same name (w : world) :
  (Parameter_getitem name w).2 = w.
Proof. unfold Parameter_getitem. by destruct (registry w !! name). Qed.

Lemma read_value_entry_same_registry entry (w : world) :
  same_registry w (read_value_entry entry w).2.
Proof.
  destruct entry as [name value]. unfold read_value_entry.
  apply mbind_rel; [apply _| |].
  - by rewrite Parameter_getitem_same.
  - intros _ w1. apply on_constraints_same_registry.
Qed.

Lemma read_parameter_group_outcome group (w : world) :
  (exists e, read_parameter_group group w = (raise e, w))
  \/ (exists lists correlation covariance d cs',
        read_group_entries
          {| parameter_names := []; central_values := []; errors := [] |}
          (group_values group) w = (ok lists, w)
        /\ _fix_correlation_matrix (group_correlation group)
             (length (parameter_names lists)) = ok correlation
        /\ checked_covariance (errors lists) correlation = ok covariance
        /\ MultivariateNormalDistribution (central_values lists) covariance
           = ok d
        /\ add_constraint (parameter_names lists) d (constraints w) = ok cs'
        /\ read_parameter_group group w
           = (ok tt, {| registry := registry w; constraints := cs' |})).
Proof.
  unfold read_parameter_group, mbind, lift, on_constraints.
  pose proof (read_group_entries_world
                {| parameter_names := []; central_values := []; errors := [] |}
                (group_values group) w) as Hw.
  destruct (read_group_entries _ _ w) as [[e|lists] w1]; simpl in Hw; subst w1;
    [left; by exists e|].
  destruct (_fix_correlation_matrix _ _) as [e|correlation] eqn:Hfix;
    [left; by exists e|].
  destruct (checked_covariance _ _) as [e|covariance] eqn:Hcheck;
    [left; by exists e|].
  destruct (MultivariateNormalDistribution _ _) as [e|d] eqn:Hd;
    [left; by exists e|].
  destruct (add_constraint _ _ _) as [e|cs'] eqn:Hadd; [left; by exists e|].
  right. by exists lists, correlation, covariance, d, cs'.
Qed.

Lemma read_parameter_group_same_registry group (w : world) :
  same_registry w (read_parameter_group group w).2.
Proof.
  destruct (read_parameter_group_outcome group w)
    as [[e ->]|(? & ? & ? & ? & ? & _ & _ & _ & _ & _ & ->)]; reflexivity.
Qed.

(** X5. The two loaders of values never touch the registry of parameters:
    whether they succeed or raise, and wherever they stop, the registry is
    as it was. *)
Theorem value_loaders_leave_registry_alone :
  (forall parameters (w : world),
      registry (_read_yaml_object_values parameters w).2 = registry w)
  /\ (forall list_ (w : world),
        registry (_read_yaml_object_values_correlated list_ w).2
        = registry w).
Proof.
  split.
  - intros ps w.
    apply (for_each_rel same_registry read_value_entry
             read_value_entry_same_registry).
  - intros gs w.
    apply (for_each_rel same_registry read_parameter_group
             read_parameter_group_same_registry).
Qed.

Lemma read_group_entries_names acc values lists (w w' : world) :
  read_group_entries acc values w = (ok lists, w') ->
  exists names,
    parameter_names lists = parameter_names acc ++ names
    /\ Forall2 (fun dict_list name =>
         exists value, dict_list !! 0 = Some (name, value)) values names
    /\ length (central_values lists)
       = length (central_values acc) + length values
    /\ length (errors lists) = length (errors acc) + length values.
Proof.
  revert acc w. induction values as [|d values IH]; intros acc w.
  - intros [= <- <-]. exists []. rewrite app_nil_r. simpl.
    repeat split; [constructor|lia|lia].
  - cbn [read_group_entries]. unfold mbind at 1.
    destruct (read_group_entry acc d w) as [[?|acc1] w1] eqn:Hd; [discriminate|].
    intros Hrest.
    apply read_group_entry_ok in Hd
      as (name & value & e & Hitem & _ & _ & _ & Hn & Hc & He).
    apply IH in Hrest as (names & Hnames & Hall & Hlc & Hle).
    exists (name :: names). split; [by rewrite Hnames, Hn, <- app_assoc|].
    split; [constructor; [by exists value|exact Hall]|].
    rewrite Hlc, Hle, Hc, He, !length_app. simpl. lia.
Qed.

(** X6. When the entries of a group have been read, the three lists the
    loader built, the names, the central values and the errors, have one
    element per entry, and the names are the first keys of the entries, in
    the order of the document.  So the dimension handed to
    [_fix_correlation_matrix] is the length of the error vector. *)
Theorem group_lists_follow_the_entries values lists (w w' : world) :
  read_group_entries
    {| parameter_names := []; central_values := []; errors := [] |}
    values w = (ok lists, w') ->
  Forall2 (fun dict_list name =>
     exists value, dict_list !! 0 = Some (name, value))
    values (parameter_names lists)
  /\ length (parameter_names lists) = length values
  /\ length (central_values lists) = length values
  /\ length (errors lists) = length values.
Proof.
  intros (names & Hnames & Hall & Hlc & Hle)%read_group_entries_names.
  simpl in *. subst. repeat split; try done.
  symmetry. by apply Forall2_length in Hall.
Qed.

(** X7. A group of correlated values is installed in one piece or not at
    all.  Either the loader raises and the registry and the constraints are
    exactly as before the group, or it adds one constraint, over the names
    of the entries of the group in their order, and changes nothing else. *)
Theorem correlated_group_is_installed_atomically group (w : world) :
  (exists e, read_parameter_group group w = (raise e, w))
  \/ (exists names d cs',
        Forall2 (fun dict_list name =>
           exists value, dict_list !! 0 = Some (name, value))
          (group_values group) names
        /\ add_constraint names d (constraints w) = ok cs'
        /\ read_parameter_group group w
           = (ok tt, {| registry := registry w; constraints := cs' |})).
Proof.
  destruct (read_parameter_group_outcome group w)
    as [Hraise|(lists & corr & cov & d & cs' & Hread & _ & _ & _ & Hadd & Hrun)];
    [by left|right].
  exists (parameter_names lists), d, cs'. repeat split; try done.
  apply read_group_entries_names in Hread as (names & Hnames & Hall & _).
  simpl in Hnames. by subst.
Qed.

End RegistryFacts.

Lemma reference_entry_read :
  let e := mk_error_dict 5 [0.3%R] [(0.4, 0.4)%R] in
  let w : world :=
    @mk_world Reference.collaborators {["m_x" := new_parameter]} [] in
  read_group_entries (C := Reference.collaborators)
    {| parameter_names := []; central_values := []; errors := [] |}
    [[("m_x", Reference.Y_errors e)]] w
  = (ok {| parameter_names := ["m_x"]; central_values := [5%R];
           errors := [sqrt (Spec.squared_error e)] |}, w).
Proof.
  intros e w. cbn [read_group_entries]. unfold mbind at 1.
  rewrite (read_group_entry_run (C := Reference.collaborators)
             _ _ "m_x" (Reference.Y_errors e) new_parameter e);
    [reflexivity | reflexivity | apply lookup_singleton_eq | reflexivity |].
  unfold Spec.squared_error; simpl. lra.
Qed.

Lemma group_lists_witness :
  let e := mk_error_dict 5 [0.3%R] [(0.4, 0.4)%R] in
  let w : world :=
    @mk_world Reference.collaborators {["m_x" := new_parameter]} [] in
  exists lists,
    read_group_entries (C := Reference.collaborators)
      {| parameter_names := []; central_values := []; errors := [] |}
      [[("m_x", Reference.Y_errors e)]] w = (ok lists, w)
    /\ length (parameter_names lists) = 1
    /\ length (central_values lists) = 1
    /\ length (errors lists) = 1.
Proof.
  intros e w. eexists. split; [exact reference_entry_read|].
  destruct (group_lists_follow_the_entries (C := Reference.collaborators)
              _ _ w w reference_entry_read) as (_ & Hn & Hc & He).
  exact (conj Hn (conj Hc He)).
Defined.

(** ** The errors and the covariance *)

Section CovarianceFacts.
Context `{C : Collaborators}.

Lemma Rsum_nonneg (l : list R) :
  Forall (fun x => 0 <= x)%R l -> (0 <= Spec.Rsum l)%R.
Proof.
  induction 1 as [|x l Hx _ IH]; simpl; lra.
Qed.

(** X8. The combined error of an entry is defined exactly when the sum under
    the root is not negative: [math.sqrt] raises [ValueError] on a negative
    sum, and only then.  When the two sides of every asymmetric error have
    the same sign (as for a right and a left error that are both
    magnitudes), the sum is not negative, and the combined error is the
    non-negative number whose square is that sum. *)
Theorem combined_error_defined_for_like_signed_sides (e : error_dict) :
  (combined_error e = raise ValueError <-> (Spec.squared_error e < 0)%R)
  /\ (Forall (fun asym => 0 <= asym.1 * asym.2)%R (asymmetric_errors e) ->
      exists error,
        combined_error e = ok error
        /\ (0 <= error)%R
        /\ (error * error)%R = Spec.squared_error e).
Proof.
  rewrite combined_error_spec. unfold math_sqrt. split.
  - destruct (Rltb (Spec.squared_error e) 0) eqn:Hlt.
    + apply Rltb_true in Hlt. by split.
    + apply Rltb_false in Hlt. split; [discriminate|]. intros H. by apply Hlt in H.
  - intros Hasym.
    assert (Hpos : (0 <= Spec.squared_error e)%R).
    { unfold Spec.squared_error.
      assert (0 <= Spec.Rsum (map (fun sym => sym ^ 2) (symmetric_errors e)))%R.
      { apply Rsum_nonneg, Forall_forall. intros x Hx.
        apply list_elem_of_fmap in Hx as (sym & -> & _). apply pow2_ge_0. }
      assert (0 <= Spec.Rsum (map (fun asym => asym.1 * asym.2)
                                  (asymmetric_errors e)))%R.
      { apply Rsum_nonneg, Forall_forall. intros x Hx.
        apply list_elem_of_fmap in Hx as (asym & -> & Hin).
        rewrite Forall_forall in Hasym. by apply Hasym. }
      lra. }
    rewrite (proj2 (Rltb_false _ _)) by lra.
    exists (sqrt (Spec.squared_error e)). split; [reflexivity|].
    split; [apply sqrt_pos|by apply sqrt_sqrt].
Qed.

Lemma covariance_lookup errs X i j row' v :
  Spec.covariance errs X !! i = Some row' -> row' !! j = Some v ->
  exists e_i e_j row x,
    errs !! i = Some e_i /\ errs !! j = Some e_j
    /\ X !! i = Some row /\ row !! j = Some x
    /\ v = (e_i * e_j * x)%R.
Proof.
  unfold Spec.covariance. intros Hrow Hv.
  apply lookup_zip_with_Some in Hrow as (e_i & row & -> & He_i & Hrow).
  apply lookup_zip_with_Some in Hv as (e_j & x & -> & He_j & Hx).
  by exists e_i, e_j, row, x.
Qed.

Lemma covariance_entry errs X i j e_i e_j row x :
  errs !! i = Some e_i -> errs !! j = Some e_j ->
  X !! i = Some row -> row !! j = Some x ->
  exists row', Spec.covariance errs X !! i = Some row'
               /\ row' !! j = Some (e_i * e_j * x)%R.
Proof.
  intros Hi Hj Hrow Hx. unfold Spec.covariance. eexists. split.
  - apply lookup_zip_with_Some. eauto.
  - apply lookup_zip_with_Some. eauto.
Qed.

Lemma damped_lookup X i j row' x :
  Spec.damped X !! i = Some row' -> row' !! j = Some x ->
  exists row c,
    X !! i = Some row /\ row !! j = Some c
    /\ x = (0.99 * (c - Spec.kronecker i j) + Spec.kronecker i j)%R.
Proof.
  unfold Spec.damped. intros Hrow Hx.
  apply list_lookup_imap_Some in Hrow as (row & Hrow & ->).
  apply list_lookup_imap_Some in Hx as (c & Hc & ->).
  by exists row, c.
Qed.

Lemma damped_entry X i j row c :
  X !! i = Some row -> row !! j = Some c ->
  exists row', Spec.damped X !! i = Some row'
    /\ row' !! j
       = Some (0.99 * (c - Spec.kronecker i j) + Spec.kronecker i j)%R.
Proof.
  intros Hrow Hc. unfold Spec.damped.
  exists (imap (fun j c =>
            0.99 * (c - Spec.kronecker i j) + Spec.kronecker i j)%R row).
  split.
  - apply list_lookup_imap_Some. by exists row.
  - apply list_lookup_imap_Some. by exists c.
Qed.

Lemma checked_covariance_cases errs correlation M :
  Np.is_square (length errs) correlation = true ->
  checked_covariance errs correlation = ok M ->
  M = Spec.covariance errs correlation
  \/ M = Spec.covariance errs (Spec.damped correlation).
Proof.
  intros Hsq. rewrite (checked_covariance_square _ _ Hsq).
  destruct (positive_definite _); [intros [= <-]; by left|].
  destruct (positive_definite _); [intros [= <-]; by right|discriminate].
Qed.

(** X9. Every entry of a covariance that passed the check is known: entry
    (i, j) is [errors[i] * errors[j]] times the correlation of i and j, the
    correlations off the diagonal all taken as they are or all multiplied
    by 0.99.  With ones on the diagonal of the correlation matrix, the
    diagonal of the covariance holds the squared errors, damped or not: the
    damping changes covariances, never variances. *)
Theorem checked_covariance_entries errs correlation M :
  Np.is_square (length errs) correlation = true ->
  checked_covariance errs correlation = ok M ->
  exists factor : R,
    (factor = 1%R \/ factor = 0.99%R)
    /\ (forall i j e_i e_j row c,
          errs !! i = Some e_i -> errs !! j = Some e_j ->
          correlation !! i = Some row -> row !! j = Some c ->
          exists row' v,
            M !! i = Some row' /\ row' !! j = Some v
            /\ v = (e_i * e_j
                    * (factor * (c - Spec.kronecker i j)
                       + Spec.kronecker i j))%R)
    /\ (forall i e_i row,
          errs !! i = Some e_i ->
          correlation !! i = Some row -> row !! i = Some 1%R ->
          exists row' v,
            M !! i = Some row' /\ row' !! i = Some v /\ v = (e_i * e_i)%R).
Proof.
  intros Hsq Hcheck.
  assert (Hentries : exists factor : R,
    (factor = 1%R \/ factor = 0.99%R)
    /\ forall i j e_i e_j row c,
         errs !! i = Some e_i -> errs !! j = Some e_j ->
         correlation !! i = Some row -> row !! j = Some c ->
         exists row' v,
           M !! i = Some row' /\ row' !! j = Some v
           /\ v = (e_i * e_j
                   * (factor * (c - Spec.kronecker i j)
                      + Spec.kronecker i j))%R).
  { destruct (checked_covariance_cases _ _ _ Hsq Hcheck) as [->| ->].
    - exists 1%R. split; [by left|]. intros i j e_i e_j row c Hi Hj Hrow Hc.
      destruct (covariance_entry errs correlation i j _ _ _ _ Hi Hj Hrow Hc)
        as (row' & Hrow' & Hv).
      exists row', (e_i * e_j * c)%R. repeat split; [done..|lra].
    - exists 0.99%R. split; [by right|].
      intros i j e_i e_j row c Hi Hj Hrow Hc.
      destruct (damped_entry correlation i j _ _ Hrow Hc) as (drow & Hdrow & Hd).
      destruct (covariance_entry errs _ i j _ _ _ _ Hi Hj Hdrow Hd)
        as (row' & Hrow' & Hv).
      by exists row', (e_i * e_j
                       * (0.99 * (c - Spec.kronecker i j)
                          + Spec.kronecker i j))%R. }
  destruct Hentries as (factor & Hfactor & Hentries).
  exists factor. split; [exact Hfactor|]. split; [exact Hentries|].
  intros i e_i row Hi Hrow Hone.
  destruct (Hentries i i e_i e_i row 1%R Hi Hi Hrow Hone)
    as (row' & v & Hrow' & Hv & ->).
  exists row', (e_i * e_i * (factor * (1 - Spec.kronecker i i)
                             + Spec.kronecker i i))%R.
  repeat split; [done..|]. unfold Spec.kronecker. rewrite Nat.eqb_refl. lra.
Qed.

(** X10. A symmetric correlation matrix gives a symmetric covariance,
    whether the covariance that passed the check is the first one or the
    damped one. *)
Theorem checked_covariance_is_symmetric errs correlation M :
  Np.is_square (length errs) correlation = true ->
  checked_covariance errs correlation = ok M ->
  (forall i j row_i row_j c c',
      correlation !! i = Some row_i -> row_i !! j = Some c ->
      correlation !! j = Some row_j -> row_j !! i = Some c' -> c = c') ->
  forall i j row_i row_j v v',
    M !! i = Some row_i -> row_i !! j = Some v ->
    M !! j = Some row_j -> row_j !! i = Some v' -> v = v'.
Proof.
  intros Hsq Hcheck Hsym i j row_i row_j v v' Hi Hv Hj Hv'.
  assert (Hk : Spec.kronecker j i = Spec.kronecker i j).
  { unfold Spec.kronecker. by rewrite Nat.eqb_sym. }
  destruct (checked_covariance_cases _ _ _ Hsq Hcheck) as [->| ->].
  - apply (covariance_lookup _ _ _ _ _ _ Hi) in Hv
      as (e_i & e_j & r & x & He_i & He_j & Hr & Hx & ->).
    apply (covariance_lookup _ _ _ _ _ _ Hj) in Hv'
      as (e_j' & e_i' & r' & x' & He_j' & He_i' & Hr' & Hx' & ->).
    rewrite (Hsym _ _ _ _ _ _ Hr Hx Hr' Hx').
    replace e_i' with e_i by congruence. replace e_j' with e_j by congruence.
    lra.
  - apply (covariance_lookup _ _ _ _ _ _ Hi) in Hv
      as (e_i & e_j & r & x & He_i & He_j & Hr & Hx & ->).
    apply (covariance_lookup _ _ _ _ _ _ Hj) in Hv'
      as (e_j' & e_i' & r' & x' & He_j' & He_i' & Hr' & Hx' & ->).
    apply (damped_lookup _ _ _ _ _ Hr) in Hx as (cr & c & Hcr & Hc & ->).
    apply (damped_lookup _ _ _ _ _ Hr') in Hx' as (cr' & c' & Hcr' & Hc' & ->).
    rewrite (Hsym _ _ _ _ _ _ Hcr Hc Hcr' Hc'), Hk.
    replace e_i' with e_i by congruence. replace e_j' with e_j by congruence.
    lra.
Qed.

End CovarianceFacts.

Lemma combined_error_defined_witness :
  let e := mk_error_dict 5 [0.3%R] [(0.4, 0.4)%R] in
  Forall (fun asym => 0 <= asym.1 * asym.2)%R (asymmetric_errors e)
  /\ exists error,
       combined_error e = ok error
       /\ (0 <= error)%R
       /\ (error * error)%R = Spec.squared_error e.
Proof.
  intros e.
  assert (H : Forall (fun asym => 0 <= asym.1 * asym.2)%R
                (asymmetric_errors e)).
  { repeat constructor. simpl. lra. }
  split; [exact H|].
  exact (proj2 (combined_error_defined_for_like_signed_sides e) H).
Defined.

Lemma reference_checked_covariance :
  checked_covariance (C := Reference.collaborators)
    [0.1; 0.2]%R [[1; 0.9]; [0.9; 1]]%R
  = ok (Spec.covariance [0.1; 0.2]%R [[1; 0.9]; [0.9; 1]]%R).
Proof.
  rewrite checked_covariance_square by reflexivity.
  rewrite (proj2 (positive_definite_spec (C := Reference.collaborators) _));
    [reflexivity|].
  unfold Spec.positive; simpl.
  assert (Hroot : (sqrt ((0.1 * 0.1 * 1 - 0.2 * 0.2 * 1)
                         * ((0.1 * 0.1 * 1 - 0.2 * 0.2 * 1) * 1)
                         + 4 * (0.1 * 0.2 * 0.9) * (0.2 * 0.1 * 0.9))
                   < 0.05)%R) by (apply sqrt_lt_bound; lra).
  pose proof (sqrt_pos ((0.1 * 0.1 * 1 - 0.2 * 0.2 * 1)
                        * ((0.1 * 0.1 * 1 - 0.2 * 0.2 * 1) * 1)
                        + 4 * (0.1 * 0.2 * 0.9) * (0.2 * 0.1 * 0.9))).
  repeat constructor; lra.
Qed.

Lemma checked_covariance_entries_witness :
  exists M row v,
    checked_covariance (C := Reference.collaborators)
      [0.1; 0.2]%R [[1; 0.9]; [0.9; 1]]%R = ok M
    /\ M !! 1 = Some row /\ row !! 1 = Some v /\ v = (0.2 * 0.2)%R.
Proof.
  destruct (checked_covariance_entries (C := Reference.collaborators)
              [0.1; 0.2]%R [[1; 0.9]; [0.9; 1]]%R _
              eq_refl reference_checked_covariance)
    as (factor & _ & _ & Hdiag).
  destruct (Hdiag 1 0.2%R [0.9; 1]%R eq_refl eq_refl eq_refl)
    as (row & v & Hrow & Hv & Heq).
  exists (Spec.covariance [0.1; 0.2]%R [[1; 0.9]; [0.9; 1]]%R), row, v.
  split; [exact reference_checked_covariance|].
  exact (conj Hrow (conj Hv Heq)).
Defined.

Lemma checked_covariance_symmetric_witness :
  exists M row_0 row_1 v v',
    checked_covariance (C := Reference.collaborators)
      [0.1; 0.2]%R [[1; 0.9]; [0.9; 1]]%R = ok M
    /\ M !! 0 = Some row_0 /\ row_0 !! 1 = Some v
    /\ M !! 1 = Some row_1 /\ row_1 !! 0 = Some v'
    /\ v = v'.
Proof.
  eexists _, _, _, _, _.
  split; [exact reference_checked_covariance|].
  split; [reflexivity|]. split; [reflexivity|].
  split; [reflexivity|]. split; [reflexivity|].
  apply (checked_covariance_is_symmetric (C := Reference.collaborators)
           [0.1; 0.2]%R [[1; 0.9]; [0.9; 1]]%R _
           eq_refl reference_checked_covariance) with (i := 0) (j := 1)
           (row_i := [0.1 * 0.1 * 1; 0.1 * 0.2 * 0.9]%R)
           (row_j := [0.2 * 0.1 * 0.9; 0.2 * 0.2 * 1]%R);
    try reflexivity.
  intros [|[|i]] [|[|j]] row_i row_j c c' Hi Hc Hj Hc';
    by simplify_eq/=.
Defined.

(** ** More on the PDG loader *)

Section PdgMoreFacts.
Context `{C : Collaborators}.

Lemma read_masswidth_line_blank particles_by_name line :
  Str.strip line = EmptyString ->
  read_masswidth_line particles_by_name line = raise IndexError.
Proof. intros Hb. unfold read_masswidth_line. by rewrite Hb. Qed.

Lemma read_pdg_parse_error lines e (w : world) :
  _read_pdg_masswidth lines = raise e -> read_pdg lines w = (raise e, w).
Proof. intros He. unfold read_pdg, mbind, lift. by rewrite He. Qed.

(** X11. A line that is empty or holds only whitespace cannot be read: the
    test for a comment takes the first character of the stripped line, and
    there is none.  When the lines before it were read, the parse raises
    [IndexError], and [read_pdg] raises it without having touched the
    registry or the constraints. *)
Theorem blank_line_raises_IndexError before line after particles_by_name
    (w : world) :
  Str.strip line = EmptyString ->
  read_masswidth_lines [] before = ok particles_by_name ->
  _read_pdg_masswidth (before ++ line :: after) = raise IndexError
  /\ read_pdg (before ++ line :: after) w = (raise IndexError, w).
Proof.
  intros Hb Hbefore.
  assert (Hparse : _read_pdg_masswidth (before ++ line :: after)
                   = raise IndexError).
  { unfold _read_pdg_masswidth.
    rewrite read_masswidth_lines_app, Hbefore. simpl.
    by rewrite (read_masswidth_line_blank _ _ Hb). }
  split; [exact Hparse|]. by apply read_pdg_parse_error.
Qed.

Lemma comment_lines_parse lines particles_by_name :
  Forall (fun line => exists rest, Str.lstrip line = String "*" rest) lines ->
  read_masswidth_lines particles_by_name lines = ok particles_by_name.
Proof.
  induction 1 as [|line lines [rest Hline] _ IH]; [reflexivity|].
  cbn [read_masswidth_lines].
  by rewrite (read_masswidth_line_comment _ _ _ Hline).
Qed.

(** *** The [try]/[except] block, in full *)

Lemma existing_or_new_outcome name (w : world) :
  (exists e, e <> KeyError /\ existing_or_new name w = (raise e, w))
  \/ (exists w1,
        existing_or_new name w = (ok tt, w1)
        /\ is_Some (registry w1 !! name)
        /\ (forall n, n <> name -> registry w1 !! n = registry w !! n)
        /\ (forall p, registry w !! name = Some p ->
                      registry w1 !! name = Some p)
        /\ (constraints w1 = constraints w
            \/ (is_Some (registry w !! name)
                /\ remove_constraint name (constraints w)
                   = ok (constraints w1)))).
Proof.
  unfold existing_or_new, try_except_KeyError, mbind, Parameter_getitem,
    on_constraints, Parameter_call.
  destruct (registry w !! name) as [p|] eqn:Hreg; simpl.
  - destruct (remove_constraint name (constraints w)) as [e|cs'] eqn:Hrm; simpl.
    + destruct e; try (left; eexists; split; [|reflexivity]; discriminate).
      rewrite Hreg. right. exists w. repeat split; eauto; congruence.
    + right. eexists. split; [reflexivity|]. simpl.
      repeat split; eauto; congruence.
  - rewrite Hreg. right. eexists. split; [reflexivity|]. simpl.
    split; [by rewrite lookup_insert_eq|].
    split; [intros n Hn; by rewrite lookup_insert_ne|].
    split; [discriminate|by left].
Qed.

(** X12. The [try]/[except] block of [read_pdg] never lets a [KeyError]
    out: a parameter that is not registered, or has no constraint to remove,
    is simply taken as new.  When the block succeeds the parameter is
    registered; a parameter that was registered keeps its metadata, and no
    other parameter is touched.  When it raises, nothing has changed. *)
Theorem existing_or_new_swallows_KeyError name r (w w' : world) :
  existing_or_new name w = (r, w') ->
  r <> raise KeyError
  /\ (r = ok tt -> is_Some (registry w' !! name))
  /\ (forall n, n <> name -> registry w' !! n = registry w !! n)
  /\ (forall p, registry w !! name = Some p -> registry w' !! name = Some p)
  /\ (forall e, r = raise e -> w' = w).
Proof.
  intros Hrun.
  destruct (existing_or_new_outcome name w)
    as [(e & He & Hraise)|(w1 & Hok & Hreg & Hother & Hsame & _)].
  - rewrite Hraise in Hrun. injection Hrun as <- <-.
    repeat split; try done. intros [= ->]. done.
  - rewrite Hok in Hrun. injection Hrun as <- <-.
    repeat split; try done.
Qed.

End PdgMoreFacts.

Lemma existing_or_new_witness :
  let w : world :=
    @mk_world Reference.collaborators {["m_B0" := new_parameter]} [] in
  existing_or_new (C := Reference.collaborators) "m_B0" w = (ok tt, w)
  /\ is_Some (registry w !! "m_B0").
Proof.
  intros w.
  assert (Hrun : existing_or_new (C := Reference.collaborators) "m_B0" w
                 = (ok tt, w)) by reflexivity.
  split; [exact Hrun|].
  by apply (existing_or_new_swallows_KeyError
              (C := Reference.collaborators) "m_B0" (ok tt) w w Hrun).
Defined.

Lemma blank_line_witness :
  _read_pdg_masswidth (C := Reference.collaborators)
    (["* MASSES, WIDTHS, AND MC ID NUMBERS"] ++ "   " :: Reference.table)
  = raise IndexError
  /\ read_pdg (C := Reference.collaborators)
       (["* MASSES, WIDTHS, AND MC ID NUMBERS"] ++ "   " :: Reference.table)
       Reference.empty_world
     = (raise IndexError, Reference.empty_world).
Proof.
  apply (blank_line_raises_IndexError (C := Reference.collaborators)
           ["* MASSES, WIDTHS, AND MC ID NUMBERS"] "   " Reference.table []
           Reference.empty_world); reflexivity.
Defined.

Section PdgOutcomeFacts.
Context `{C : Collaborators}.

(** What the mass step does, case by case: the [try]/[except] block, then
    the label and the description, then the table, the distribution and the
    constraint. *)
Lemma read_pdg_mass_outcome particles particle (w : world) :
  let name := "m_" +:+ Dict.get_default particle particle pdg_translate in
  let tex_name := _pdg_particle_string_to_tex particle in
  (exists e, e <> KeyError
             /\ existing_or_new name w = (raise e, w)
             /\ read_pdg_mass particles particle w = (raise e, w))
  \/ (exists w1 reg2 p2,
        existing_or_new name w = (ok tt, w1)
        /\ read_pdg_mass particles particle w
           = match Dict.get particle particles with
             | None =>
                 (raise KeyError,
                  {| registry := reg2; constraints := constraints w1 |})
             | Some entry =>
                 match mass_distribution (particle_mass entry) with
                 | inl e =>
                     (raise e,
                      {| registry := reg2; constraints := constraints w1 |})
                 | inr d =>
                     match add_constraint [name] d (constraints w1) with
                     | inl e =>
                         (raise e,
                          {| registry := reg2;
                             constraints := constraints w1 |})
                     | inr cs' =>
                         (ok tt, {| registry := reg2; constraints := cs' |})
                     end
                 end
             end
        /\ reg2 !! name = Some p2
        /\ is_Some (tex p2) /\ is_Some (description p2)
        /\ (tex_name ∉ ["b"; "c"; "s"; "u"; "d"; "t"] ->
            tex p2 = Some ("$m_{" +:+ tex_name +:+ "}$")
            /\ description p2 = Some ("$" +:+ tex_name +:+ "$ mass"))
        /\ (forall n, n <> name -> reg2 !! n = registry w1 !! n)).
Proof.
  intros name tex_name.
  destruct (existing_or_new_outcome name w)
    as [(e & He & Hraise)|(w1 & Hok & [p1 Hp1] & _)].
  { left. exists e. split; [exact He|]. split; [exact Hraise|].
    unfold read_pdg_mass, mbind. fold name. by rewrite Hraise. }
  right. exists w1. unfold read_pdg_mass, mbind. fold name tex_name.
  rewrite Hok. destruct w1 as [reg1 cs1]. simpl in Hp1.
  unfold lift, Dict.getitem, on_constraints, set_tex, set_description.
  repeat case_bool_decide; simpl;
    (eexists _, _; split; [reflexivity|]);
    (split;
     [destruct (Dict.get particle particles); simpl; [|reflexivity];
      destruct (mass_distribution _); simpl; [reflexivity|];
      destruct (add_constraint _ _ _); reflexivity|]);
    rewrite ?lookup_alter_eq, Hp1; simpl;
    (split; [reflexivity|]); simpl;
    (split; [by eexists|]); (split; [by eexists|]);
    (split;
     [intros Hnot; rewrite !list_elem_of_In in Hnot; simpl in Hnot;
      try (split; reflexivity); exfalso; intuition congruence|]);
    intros n Hn; by rewrite ?lookup_alter_ne.
Qed.

Lemma read_pdg_lifetime_outcome particle width (w : world) :
  let name := "tau_" +:+ Dict.get_default particle particle pdg_translate in
  let tex_name := _pdg_particle_string_to_tex particle in
  (exists e, e <> KeyError
             /\ existing_or_new name w = (raise e, w)
             /\ read_pdg_lifetime particle width w = (raise e, w))
  \/ (exists w1 reg2 p2,
        existing_or_new name w = (ok tt, w1)
        /\ read_pdg_lifetime particle width w
           = match lifetime_distribution width with
             | inl e =>
                 (raise e,
                  {| registry := reg2; constraints := constraints w1 |})
             | inr d =>
                 match add_constraint [name] d (constraints w1) with
                 | inl e =>
                     (raise e,
                      {| registry := reg2; constraints := constraints w1 |})
                 | inr cs' =>
                     (ok tt, {| registry := reg2; constraints := cs' |})
                 end
             end
        /\ reg2 !! name = Some p2
        /\ tex p2 = Some ("$\tau_{" +:+ tex_name +:+ "}$")
        /\ description p2 = Some ("$" +:+ tex_name +:+ "$ lifetime")
        /\ (forall n, n <> name -> reg2 !! n = registry w1 !! n)).
Proof.
  intros name tex_name.
  destruct (existing_or_new_outcome name w)
    as [(e & He & Hraise)|(w1 & Hok & [p1 Hp1] & _)].
  { left. exists e. split; [exact He|]. split; [exact Hraise|].
    unfold read_pdg_lifetime, mbind. fold name. by rewrite Hraise. }
  right. exists w1. unfold read_pdg_lifetime, mbind. fold name tex_name.
  rewrite Hok. destruct w1 as [reg1 cs1]. simpl in Hp1.
  unfold lift, on_constraints, set_tex, set_description. simpl.
  eexists _, _. split; [reflexivity|]. split.
  { destruct (lifetime_distribution width); simpl; [reflexivity|].
    destruct (add_constraint _ _ _); reflexivity. }
  rewrite !lookup_alter_eq, Hp1. simpl.
  split; [reflexivity|]. split; [reflexivity|]. split; [reflexivity|].
  intros n Hn. by rewrite !lookup_alter_ne.
Qed.

(** X13. When the mass step of [read_pdg] succeeds, the mass parameter is
    registered with a label and a description, whatever metadata it had
    before; for a particle that is not one of the six quarks the label is
    [$m_{X}$] and the description [$X$ mass], [X] being the TeX name.  The
    constraint added is the one built from the mass of the table. *)
Theorem mass_step_sets_label_and_description particles particle
    (w w' : world) :
  let name := "m_" +:+ Dict.get_default particle particle pdg_translate in
  let tex_name := _pdg_particle_string_to_tex particle in
  read_pdg_mass particles particle w = (ok tt, w') ->
  exists p entry d w1,
    registry w' !! name = Some p
    /\ is_Some (tex p) /\ is_Some (description p)
    /\ (tex_name ∉ ["b"; "c"; "s"; "u"; "d"; "t"] ->
        tex p = Some ("$m_{" +:+ tex_name +:+ "}$")
        /\ description p = Some ("$" +:+ tex_name +:+ "$ mass"))
    /\ Dict.get particle particles = Some entry
    /\ mass_distribution (particle_mass entry) = ok d
    /\ existing_or_new name w = (ok tt, w1)
    /\ add_constraint [name] d (constraints w1) = ok (constraints w').
Proof.
  intros name tex_name Hrun.
  destruct (read_pdg_mass_outcome particles particle w)
    as [(e & _ & _ & Hraise)
       |(w1 & reg2 & p2 & Hok & Heq & Hp2 & Ht & Hd & Hstr & _)].
  { rewrite Hraise in Hrun. discriminate. }
  fold name in Heq, Hp2, Hok. fold tex_name in Hstr.
  rewrite Heq in Hrun.
  destruct (Dict.get particle particles) as [entry|]; [|discriminate].
  destruct (mass_distribution _) as [?|d] eqn:Hdist; [discriminate|].
  destruct (add_constraint _ _ _) as [?|cs'] eqn:Hadd; [discriminate|].
  injection Hrun as <-. exists p2, entry, d, w1. simpl.
  repeat split; try done; by apply Hstr.
Qed.

Lemma mass_step_registered particles particle (w w' : world) :
  read_pdg_mass particles particle w = (ok tt, w') ->
  is_Some (registry w' !!
             ("m_" +:+ Dict.get_default particle particle pdg_translate)).
Proof.
  intros Hrun.
  destruct (read_pdg_mass_outcome particles particle w)
    as [(e & _ & _ & Hraise)|(w1 & reg2 & p2 & _ & Heq & Hp2 & _)].
  { rewrite Hraise in Hrun. discriminate. }
  rewrite Heq in Hrun.
  destruct (Dict.get particle particles); [|discriminate].
  destruct (mass_distribution _); [discriminate|].
  destruct (add_constraint _ _ _); [discriminate|].
  injection Hrun as <-. simpl. by rewrite Hp2.
Qed.

Lemma read_pdg_particle_missing particles particle (w : world) :
  Dict.get particle particles = None ->
  exists e w', read_pdg_particle particles particle w = (raise e, w').
Proof.
  intros Hget. unfold read_pdg_particle, mbind.
  destruct (read_pdg_mass_outcome particles particle w)
    as [(e & _ & _ & Hraise)|(w1 & reg2 & p2 & _ & Heq & _)].
  - rewrite Hraise. by exists e, w.
  - rewrite Heq, Hget. by eexists _, _.
Qed.

(** X14. A particle of the list that is missing from the table is not
    harmless.  If its mass parameter is registered and constrained, the
    loader has removed that constraint by the time it looks the particle up
    in the table; the lookup raises [KeyError], and the loader stops with
    the old constraint gone and no new one in its place. *)
Theorem missing_particle_loses_its_constraint particles particle p cs'
    (w : world) :
  let name := "m_" +:+ Dict.get_default particle particle pdg_translate in
  registry w !! name = Some p ->
  remove_constraint name (constraints w) = ok cs' ->
  Dict.get particle particles = None ->
  exists w',
    read_pdg_particle particles particle w = (raise KeyError, w')
    /\ constraints w' = cs'.
Proof.
  intros name Hreg Hrm Hget.
  pose proof (existing_or_new_registered name p cs' w Hreg Hrm) as Hnew.
  unfold read_pdg_particle, mbind.
  destruct (read_pdg_mass_outcome particles particle w)
    as [(e & _ & Hraise & _)|(w1 & reg2 & p2 & Hok & Heq & _)].
  - fold name in Hraise. rewrite Hnew in Hraise. discriminate.
  - fold name in Hok. rewrite Hnew in Hok. injection Hok as <-.
    rewrite Heq, Hget. eexists. split; reflexivity.
Qed.

End PdgOutcomeFacts.

Section PdgLoopFacts.
Context `{C : Collaborators}.

Lemma existing_or_new_others name n (w w1 : world) :
  existing_or_new name w = (ok tt, w1) -> n <> name ->
  registry w1 !! n = registry w !! n.
Proof.
  intros Hok Hn.
  destruct (existing_or_new_outcome name w)
    as [(e & _ & Hraise)|(w1' & Hok' & _ & Hother & _)].
  - rewrite Hraise in Hok. discriminate.
  - rewrite Hok' in Hok. injection Hok as <-. by apply Hother.
Qed.

Lemma registry_grows_at name reg2 p2 (w w1 : world) cs :
  existing_or_new name w = (ok tt, w1) ->
  reg2 !! name = Some p2 ->
  (forall n, n <> name -> reg2 !! n = registry w1 !! n) ->
  registry_grows w {| registry := reg2; constraints := cs |}.
Proof.
  intros Hok Hp2 Hother n Hn. simpl.
  destruct (decide (n = name)) as [->|Hne]; [by rewrite Hp2|].
  by rewrite (Hother n Hne), (existing_or_new_others _ _ _ _ Hok Hne).
Qed.

Lemma read_pdg_mass_grows particles particle (w : world) :
  registry_grows w (read_pdg_mass particles particle w).2.
Proof.
  destruct (read_pdg_mass_outcome particles particle w)
    as [(e & _ & _ & ->)|(w1 & reg2 & p2 & Hok & -> & Hp2 & _ & _ & _ & Hother)];
    [reflexivity|].
  destruct (Dict.get particle particles); simpl;
    [|by apply (registry_grows_at _ _ _ _ _ _ Hok Hp2 Hother)].
  destruct (mass_distribution _); simpl;
    [by apply (registry_grows_at _ _ _ _ _ _ Hok Hp2 Hother)|].
  destruct (add_constraint _ _ _); simpl;
    by apply (registry_grows_at _ _ _ _ _ _ Hok Hp2 Hother).
Qed.

Lemma read_pdg_lifetime_grows particle width (w : world) :
  registry_grows w (read_pdg_lifetime particle width w).2.
Proof.
  destruct (read_pdg_lifetime_outcome particle width w)
    as [(e & _ & _ & ->)|(w1 & reg2 & p2 & Hok & -> & Hp2 & _ & _ & Hother)];
    [reflexivity|].
  destruct (lifetime_distribution _); simpl;
    [by apply (registry_grows_at _ _ _ _ _ _ Hok Hp2 Hother)|].
  destruct (add_constraint _ _ _); simpl;
    by apply (registry_grows_at _ _ _ _ _ _ Hok Hp2 Hother).
Qed.

Lemma read_pdg_particle_grows particles particle (w : world) :
  registry_grows w (read_pdg_particle particles particle w).2.
Proof.
  unfold read_pdg_particle.
  apply mbind_rel; [apply _|apply read_pdg_mass_grows|]. intros _ w1.
  apply mbind_rel; [apply _|reflexivity|]. intros entry w2.
  destruct (Reqb _ _); [reflexivity|apply read_pdg_lifetime_grows].
Qed.

Lemma for_each_ok_elem {A} (R : world -> world -> Prop)
    `{!Reflexive R} `{!Transitive R} (body : A -> M unit) xs x (w w' : world) :
  (forall y w0, R w0 (body y w0).2) ->
  for_each xs body w = (ok tt, w') ->
  x ∈ xs ->
  exists w1 w2, R w w1 /\ body x w1 = (ok tt, w2) /\ R w2 w'.
Proof.
  intros Hbody. revert w.
  induction xs as [|y xs IH]; intros w Hrun Hin.
  - by apply elem_of_nil in Hin.
  - cbn [for_each] in Hrun. unfold mbind in Hrun.
    destruct (body y w) as [[e|[]] w0] eqn:Hy; [discriminate|].
    assert (Hw0 : R w w0) by (specialize (Hbody y w); by rewrite Hy in Hbody).
    assert (Hrest : R w0 w').
    { pose proof (for_each_rel R body Hbody xs w0) as H.
      by rewrite Hrun in H. }
    apply elem_of_cons in Hin as [->|Hin].
    + by exists w, w0.
    + destruct (IH w0 Hrun Hin) as (w1 & w2 & H1 & Hx & H2).
      exists w1, w2. split; [by transitivity w0|done].
Qed.

(** X15. When [read_pdg] succeeds, the table held every particle of the
    list, the mass parameter of every particle of the list is registered,
    and no parameter that was registered before has left the registry. *)
Theorem read_pdg_success_registers_every_mass lines (w w' : world) :
  read_pdg lines w = (ok tt, w') ->
  registry_grows w w'
  /\ exists particles,
       _read_pdg_masswidth lines = ok particles
       /\ forall particle,
            particle ∈ pdg_include ->
            is_Some (Dict.get particle particles)
            /\ is_Some (registry w' !!
                 ("m_" +:+ Dict.get_default particle particle pdg_translate)).
Proof.
  unfold read_pdg, mbind, lift.
  destruct (_read_pdg_masswidth lines) as [?|particles]; [discriminate|].
  intros Hrun. split.
  { pose proof (for_each_rel registry_grows (read_pdg_particle particles)
                  (read_pdg_particle_grows particles) pdg_include w) as H.
    by rewrite Hrun in H. }
  exists particles. split; [reflexivity|]. intros particle Hin.
  destruct (for_each_ok_elem registry_grows (read_pdg_particle particles)
              pdg_include particle w w'
              (read_pdg_particle_grows particles) Hrun Hin)
    as (w1 & w2 & _ & Hbody & Hgrows).
  destruct (Dict.get particle particles) as [entry|] eqn:Hget.
  2: { destruct (read_pdg_particle_missing particles particle w1 Hget)
         as (e & w3 & Hraise). rewrite Hraise in Hbody. discriminate. }
  split; [by eexists|]. apply Hgrows.
  unfold read_pdg_particle, mbind in Hbody.
  pose proof (read_pdg_particle_grows particles particle w1) as Hpart.
  destruct (read_pdg_mass particles particle w1) as [[?|[]] wm] eqn:Hmass;
    [discriminate|].
  apply mass_step_registered in Hmass.
  assert (Hwm : registry_grows wm w2).
  { unfold lift, Dict.getitem in Hbody. rewrite Hget in Hbody. simpl in Hbody.
    destruct (Reqb _ _); [by injection Hbody as <-|].
    pose proof (read_pdg_lifetime_grows particle (particle_width entry) wm) as H.
    by rewrite Hbody in H. }
  by apply Hwm.
Qed.

End PdgLoopFacts.

Section PdgEdgeFacts.
Context `{C : Collaborators}.

(** X16. A table that holds nothing but comment lines, the empty table
    among them, parses to the empty dictionary; [read_pdg] then cannot
    succeed, since the first particle of its list is not in the table. *)
Theorem comment_only_table_is_empty lines :
  Forall (fun line => exists rest, Str.lstrip line = String "*" rest) lines ->
  _read_pdg_masswidth lines = ok []
  /\ forall w : world, exists e w', read_pdg lines w = (raise e, w').
Proof.
  intros Hlines.
  assert (Hparse : _read_pdg_masswidth lines = ok []).
  { unfold _read_pdg_masswidth. by rewrite (comment_lines_parse _ _ Hlines). }
  split; [exact Hparse|]. intros w.
  unfold read_pdg, mbind, lift. rewrite Hparse.
  destruct (read_pdg_particle_missing [] "B(s)" w eq_refl) as (e & w' & He).
  exists e, w'.
  exact (for_each_raise [] _ "B(s)" (read_pdg_particle []) w w w' e
           eq_refl He).
Qed.

Lemma Reqb_div (x y z : R) :
  z <> 0%R -> Reqb (x / z) (y / z) = Reqb x y.
Proof.
  intros Hz. destruct (Reqb x y) eqn:Hxy.
  - apply Reqb_true in Hxy as ->. apply Reqb_refl.
  - apply Reqb_false in Hxy. apply Reqb_false. intros Heq. apply Hxy.
    apply (Rmult_eq_reg_r (/ z)); [exact Heq|by apply Rinv_neq_0_compat].
Qed.

(** X17. Only the size of the left error counts: a mass or a width given
    with the left error [l] or [-l] yields the same distribution.  The
    distribution is the symmetric one exactly when the right error equals
    the size of the left error; for a lifetime this is decided on the errors
    of the width, the division by the squared width changing nothing. *)
Theorem distributions_depend_on_size_of_left_error (central right left : R) :
  mass_distribution (central, right, (- left)%R)
  = mass_distribution (central, right, left)
  /\ lifetime_distribution (central, right, (- left)%R)
     = lifetime_distribution (central, right, left)
  /\ (right = Rabs left ->
      mass_distribution (central, right, left)
      = NormalDistribution central right)
  /\ (right <> Rabs left ->
      mass_distribution (central, right, left)
      = AsymmetricNormalDistribution central right (Rabs left))
  /\ (central <> 0%R -> right = Rabs left ->
      lifetime_distribution (central, right, left)
      = NormalDistribution (1 / central) (right / central ^ 2))
  /\ (central <> 0%R -> right <> Rabs left ->
      lifetime_distribution (central, right, left)
      = AsymmetricNormalDistribution (1 / central) (right / central ^ 2)
          (Rabs left / central ^ 2)).
Proof.
  split; [unfold mass_distribution; by rewrite Rabs_Ropp|].
  split; [unfold lifetime_distribution, lifetime_errors; by rewrite Rabs_Ropp|].
  split; [intros ->; unfold mass_distribution; by rewrite Reqb_refl|].
  split.
  { intros Hne. unfold mass_distribution.
    by rewrite (proj2 (Reqb_false _ _) Hne). }
  split.
  - intros Hc ->. rewrite (lifetime_distribution_nonzero _ _ _ Hc).
    by rewrite Reqb_refl.
  - intros Hc Hne. rewrite (lifetime_distribution_nonzero _ _ _ Hc).
    rewrite Reqb_div by (by apply pow_nonzero).
    rewrite (proj2 (Reqb_false _ _)); [reflexivity|]. intros Heq. by apply Hne.
Qed.

End PdgEdgeFacts.

Lemma comment_only_table_witness :
  _read_pdg_masswidth (C := Reference.collaborators)
    ["* MASSES, WIDTHS, AND MC ID NUMBERS"; "  * second comment"] = ok []
  /\ exists e w',
       read_pdg (C := Reference.collaborators)
         ["* MASSES, WIDTHS, AND MC ID NUMBERS"; "  * second comment"]
         Reference.empty_world = (raise e, w').
Proof.
  destruct (comment_only_table_is_empty (C := Reference.collaborators)
              ["* MASSES, WIDTHS, AND MC ID NUMBERS"; "  * second comment"])
    as [Hparse Hfail].
  - repeat constructor; eexists; reflexivity.
  - split; [exact Hparse|]. apply Hfail.
Defined.

Lemma distributions_witness :
  (2 <> 0)%R /\ (0.5 <> Rabs 0.25)%R
  /\ lifetime_distribution (C := Reference.collaborators) (2, 0.5, 0.25)%R
     = Reference.AsymmetricNormalDistribution
         (1 / 2) (0.5 / 2 ^ 2) (Rabs 0.25 / 2 ^ 2).
Proof.
  assert (H2 : (2 <> 0)%R) by lra.
  assert (Hne : (0.5 <> Rabs 0.25)%R) by (rewrite Rabs_pos_eq; lra).
  split; [exact H2|]. split; [exact Hne|].
  exact (proj2 (proj2 (proj2 (proj2 (proj2
           (distributions_depend_on_size_of_left_error
              (C := Reference.collaborators) 2 0.5 0.25))))) H2 Hne).
Defined.

(** ** More on the bag factor *)

Section BagFactorMoreFacts.
Variable float_pow : R -> R -> result R.

(** X18. With the power of a positive base being the real power, the
    conversion factor is defined and positive for every positive [alpha_s]
    and each of the three mesons; B0 and Bs share one factor, for every
    [alpha_s]. *)
Theorem bag_msbar2rgi_positive (alpha_s : R) (meson : string) :
  (forall x y, (0 < x)%R -> float_pow x y = ok (Rpower x y)) ->
  (0 < alpha_s)%R ->
  meson ∈ ["B0"; "Bs"; "K0"] ->
  (exists factor,
      Common.bag_msbar2rgi float_pow alpha_s meson = ok factor
      /\ (0 < factor)%R)
  /\ Common.bag_msbar2rgi float_pow alpha_s "B0"
     = Common.bag_msbar2rgi float_pow alpha_s "Bs".
Proof.
  intros Hpow Halpha Hmeson. split; [|reflexivity].
  assert (Hfrac : (0 < alpha_s / (4 * PI))%R).
  { apply Rdiv_lt_0_compat; [exact Halpha|]. pose proof PI_RGT_0. lra. }
  assert (Hexp : forall y, (0 < Rpower alpha_s y)%R)
    by (intros y; apply exp_pos).
  unfold Common.bag_msbar2rgi, Common.bag_locals.
  rewrite !list_elem_of_In in Hmeson. simpl in Hmeson.
  destruct Hmeson as [<-|[<-|[<-|[]]]]; simpl;
    rewrite (Hpow _ _ Halpha); simpl;
    (eexists; split; [reflexivity|]);
    (apply Rmult_lt_0_compat; [apply Hexp|]); nra.
Qed.

End BagFactorMoreFacts.

Lemma bag_msbar2rgi_positive_witness :
  exists factor,
    Common.bag_msbar2rgi (fun x y => ok (Rpower x y)) 0.1184 "K0" = ok factor
    /\ (0 < factor)%R.
Proof.
  apply (bag_msbar2rgi_positive (fun x y => ok (Rpower x y)) 0.1184 "K0").
  - reflexivity.
  - lra.
  - by apply (bool_decide_unpack _).
Defined.

(** ** More on the metadata loader *)

Section MetadataMoreFacts.
Context `{C : Collaborators}.

Lemma with_info_idempotent info p :
  with_info info (with_info info p) = with_info info p.
Proof.
  unfold with_info; simpl.
  by destruct (info !! "description") as [[?|]|],
              (info !! "tex") as [[?|]|].
Qed.

Lemma metadata_cons name info parameters (w : world) :
  _read_yaml_object_metadata ((name, info) :: parameters) w
  = _read_yaml_object_metadata parameters
      {| registry :=
           <[name := with_info info
                       (default new_parameter (registry w !! name))]>
             (registry w);
         constraints := constraints w |}.
Proof.
  unfold _read_yaml_object_metadata. cbn [for_each]. unfold mbind at 1.
  by rewrite read_metadata_entry_spec.
Qed.

Lemma metadata_lookup_notin parameters name (w : world) :
  name ∉ map fst parameters ->
  registry (_read_yaml_object_metadata parameters w).2 !! name
  = registry w !! name.
Proof.
  revert w.
  induction parameters as [|[n info] ps IH]; intros w Hn; [reflexivity|].
  cbn [map fst] in Hn. apply not_elem_of_cons in Hn as [Hne Hn].
  rewrite metadata_cons, (IH _ Hn). simpl. by rewrite lookup_insert_ne.
Qed.

Lemma metadata_lookup_in parameters name info (w : world) :
  NoDup (map fst parameters) -> (name, info) ∈ parameters ->
  registry (_read_yaml_object_metadata parameters w).2 !! name
  = Some (with_info info (default new_parameter (registry w !! name))).
Proof.
  revert w.
  induction parameters as [|[n i] ps IH]; intros w Hnd Hin.
  { by apply elem_of_nil in Hin. }
  cbn [map fst] in Hnd. apply NoDup_cons in Hnd as [Hfresh Hnd].
  rewrite metadata_cons.
  apply elem_of_cons in Hin as [[= -> ->]|Hin].
  - rewrite (metadata_lookup_notin _ _ _ Hfresh).
    simpl. by rewrite lookup_insert_eq.
  - rewrite (IH _ Hnd Hin). simpl. rewrite lookup_insert_ne; [reflexivity|].
    intros ->. apply Hfresh. apply list_elem_of_fmap. by exists (name, info).
Qed.

Lemma metadata_lookup_registered parameters name (w : world) :
  name ∈ map fst parameters ->
  is_Some (registry (_read_yaml_object_metadata parameters w).2 !! name).
Proof.
  revert w.
  induction parameters as [|[n i] ps IH]; intros w Hname.
  { by apply elem_of_nil in Hname. }
  rewrite metadata_cons.
  destruct (decide (name ∈ map fst ps)) as [Hin|Hout]; [by apply IH|].
  cbn [map fst] in Hname. apply elem_of_cons in Hname as [->|Hname]; [|done].
  rewrite (metadata_lookup_notin _ _ _ Hout).
  simpl. by rewrite lookup_insert_eq.
Qed.

Lemma metadata_run parameters (w : world) :
  exists reg,
    _read_yaml_object_metadata parameters w
    = (ok tt, {| registry := reg; constraints := constraints w |}).
Proof.
  revert w.
  induction parameters as [|[n i] ps IH]; intros w.
  - exists (registry w). by destruct w.
  - rewrite metadata_cons.
    destruct (IH {| registry :=
                      <[n := with_info i
                               (default new_parameter (registry w !! n))]>
                        (registry w);
                    constraints := constraints w |}) as [reg Hreg].
    exists reg. exact Hreg.
Qed.

(** X19. Loading a metadata document a second time changes nothing: the
    state after the second load is the state after the first.  (The names of
    a document, being the keys of a mapping, are distinct.) *)
Theorem metadata_loader_is_idempotent parameters (w : world) :
  NoDup (map fst parameters) ->
  exists w1,
    _read_yaml_object_metadata parameters w = (ok tt, w1)
    /\ _read_yaml_object_metadata parameters w1 = (ok tt, w1).
Proof.
  intros Hnd.
  destruct (metadata_run parameters w) as [reg1 Hrun1].
  eexists. split; [exact Hrun1|].
  destruct (metadata_run parameters
              {| registry := reg1; constraints := constraints w |})
    as [reg2 Hrun2].
  rewrite Hrun2. simpl. f_equal. f_equal. apply map_eq. intros name.
  pose proof (f_equal (fun r => registry r.2 !! name) Hrun2) as H2.
  pose proof (f_equal (fun r => registry r.2 !! name) Hrun1) as H1.
  simpl in H1, H2. rewrite <- H2.
  destruct (decide (name ∈ map fst parameters)) as [Hin|Hout].
  - apply list_elem_of_fmap in Hin as ([n info] & -> & Hin). simpl in *.
    rewrite (metadata_lookup_in _ _ _ _ Hnd Hin) in H1.
    rewrite (metadata_lookup_in _ _ _ _ Hnd Hin). simpl.
    rewrite <- H1. simpl. by rewrite with_info_idempotent.
  - rewrite (metadata_lookup_notin _ _ _ Hout). reflexivity.
Qed.

Lemma read_value_entry_registered name value (w : world) :
  is_Some (registry w !! name) ->
  read_value_entry (name, value) w
  = on_constraints (set_constraint name value) w.
Proof.
  intros [p Hp]. unfold read_value_entry, mbind, Parameter_getitem.
  by rewrite Hp.
Qed.

Lemma values_with_registered_names values (w : world) :
  (forall name, name ∈ map fst values -> is_Some (registry w !! name)) ->
  _read_yaml_object_values values w
  = for_each values
      (fun entry => on_constraints (set_constraint entry.1 entry.2)) w.
Proof.
  unfold _read_yaml_object_values. revert w.
  induction values as [|[name value] vs IH]; intros w Hreg; [reflexivity|].
  cbn [for_each]. unfold mbind at 1 2.
  rewrite read_value_entry_registered by (apply Hreg; by left). simpl.
  pose proof (on_constraints_same_registry (set_constraint name value) w)
    as Hsame.
  destruct (on_constraints (set_constraint name value) w) as [[e|[]] w1];
    [reflexivity|].
  apply IH. intros n Hn. simpl in Hsame. unfold same_registry in Hsame.
  rewrite Hsame. apply Hreg. by right.
Qed.

(** X20. After the metadata document has been loaded, the value loader
    cannot fail on the lookup of a name of that document: for a value
    document whose names all occur in the metadata document it does what a
    plain sequence of [set_constraint] calls does, and so fails only where
    [set_constraint] does. *)
Theorem values_after_metadata_skip_no_name metadata values (w : world) :
  (forall name, name ∈ map fst values -> name ∈ map fst metadata) ->
  exists w1,
    _read_yaml_object_metadata metadata w = (ok tt, w1)
    /\ _read_yaml_object_values values w1
       = for_each values
           (fun entry => on_constraints (set_constraint entry.1 entry.2)) w1.
Proof.
  intros Hsub.
  destruct (metadata_run metadata w) as [reg1 Hrun1].
  eexists. split; [exact Hrun1|].
  apply values_with_registered_names. intros name Hname%Hsub. simpl.
  pose proof (f_equal (fun r => registry r.2 !! name) Hrun1) as H1.
  simpl in H1. rewrite <- H1.
  by apply metadata_lookup_registered.
Qed.

End MetadataMoreFacts.

(** ** Runs of [read_pdg] that reach the end

    With collaborators that accept everything, and over the reals: in
    floating point the square of a very small width underflows to zero and
    the division of the lifetime step raises, which the reals do not show.
    These lemmas only serve to exhibit runs. *)

Section PdgSuccessFacts.
Context `{C : Collaborators}.

Lemma existing_or_new_succeeds name (w : world) :
  (forall cs e, remove_constraint name cs = raise e -> e = KeyError) ->
  exists w1, existing_or_new name w = (ok tt, w1).
Proof.
  intros Hremove.
  unfold existing_or_new, try_except_KeyError, mbind, Parameter_getitem,
    on_constraints, Parameter_call.
  destruct (registry w !! name) as [p|] eqn:Hreg; simpl.
  - destruct (remove_constraint name (constraints w)) as [e|cs'] eqn:Hrm; simpl.
    + rewrite (Hremove _ _ Hrm), Hreg. by eexists.
    + by eexists.
  - rewrite Hreg. by eexists.
Qed.

Lemma for_each_succeeds {A} (body : A -> M unit) xs (w : world) :
  (forall x w0, x ∈ xs -> exists w1, body x w0 = (ok tt, w1)) ->
  exists w', for_each xs body w = (ok tt, w').
Proof.
  revert w. induction xs as [|x xs IH]; intros w Hbody; [by eexists|].
  cbn [for_each]. unfold mbind.
  destruct (Hbody x w) as [w1 ->]; [by left|].
  apply IH. intros y w0 Hy. apply Hbody. by right.
Qed.

Hypothesis normal_ok :
  forall central error, exists d, NormalDistribution central error = ok d.
Hypothesis asymmetric_ok :
  forall central right left,
    exists d, AsymmetricNormalDistribution central right left = ok d.
Hypothesis add_ok :
  forall names d cs, exists cs', add_constraint names d cs = ok cs'.
Hypothesis remove_KeyError :
  forall name cs e, remove_constraint name cs = raise e -> e = KeyError.

Lemma mass_distribution_succeeds mass :
  exists d, mass_distribution mass = ok d.
Proof using normal_ok asymmetric_ok.
  destruct mass as [[m_central m_right] m_left]. unfold mass_distribution.
  destruct (Reqb _ _); [apply normal_ok|apply asymmetric_ok].
Qed.

Lemma lifetime_distribution_succeeds width :
  width.1.1 <> 0%R -> exists d, lifetime_distribution width = ok d.
Proof using normal_ok asymmetric_ok.
  destruct width as [[G_central G_right] G_left]. simpl. intros HG.
  rewrite (lifetime_distribution_nonzero _ _ _ HG).
  destruct (Reqb _ _); [apply normal_ok|apply asymmetric_ok].
Qed.

Lemma read_pdg_mass_succeeds particles particle entry (w : world) :
  Dict.get particle particles = Some entry ->
  exists w', read_pdg_mass particles particle w = (ok tt, w').
Proof using normal_ok asymmetric_ok add_ok remove_KeyError.
  intros Hget.
  destruct (existing_or_new_succeeds
              ("m_" +:+ Dict.get_default particle particle pdg_translate) w
              (remove_KeyError _)) as [w1 Hnew].
  destruct (mass_distribution_succeeds (particle_mass entry)) as [d Hd].
  destruct (read_pdg_mass_after particles particle entry d w w1 Hnew Hget Hd)
    as [reg' ->].
  destruct (add_ok
              ["m_" +:+ Dict.get_default particle particle pdg_translate]
              d (constraints w1)) as [cs' ->].
  by eexists.
Qed.

Lemma read_pdg_lifetime_succeeds particle width (w : world) :
  width.1.1 <> 0%R ->
  exists w', read_pdg_lifetime particle width w = (ok tt, w').
Proof using normal_ok asymmetric_ok add_ok remove_KeyError.
  intros HG.
  destruct (existing_or_new_succeeds
              ("tau_" +:+ Dict.get_default particle particle pdg_translate) w
              (remove_KeyError _)) as [w1 Hnew].
  destruct (lifetime_distribution_succeeds width HG) as [d Hd].
  destruct (read_pdg_lifetime_after particle width d w w1 Hnew Hd)
    as [reg' ->].
  destruct (add_ok
              ["tau_" +:+ Dict.get_default particle particle pdg_translate]
              d (constraints w1)) as [cs' ->].
  by eexists.
Qed.

Lemma read_pdg_particle_succeeds particles particle (w : world) :
  is_Some (Dict.get particle particles) ->
  exists w', read_pdg_particle particles particle w = (ok tt, w').
Proof using normal_ok asymmetric_ok add_ok remove_KeyError.
  intros [entry Hget]. unfold read_pdg_particle, mbind.
  destruct (read_pdg_mass_succeeds particles particle entry w Hget)
    as [w1 ->].
  unfold lift, Dict.getitem. rewrite Hget. simpl.
  destruct (Reqb _ _) eqn:Hzero; [by eexists|].
  apply read_pdg_lifetime_succeeds. by apply Reqb_false.
Qed.

Lemma read_pdg_particles_succeed particles included (w : world) :
  (forall particle,
      particle ∈ included -> is_Some (Dict.get particle particles)) ->
  exists w', for_each included (read_pdg_particle particles) w = (ok tt, w').
Proof using normal_ok asymmetric_ok add_ok remove_KeyError.
  intros Hall. apply for_each_succeeds. intros particle w0 Hin.
  apply read_pdg_particle_succeeds. by apply Hall.
Qed.

End PdgSuccessFacts.

Lemma dict_get_key {V} k (d : Dict.t V) :
  k ∈ map fst d -> is_Some (Dict.get k d).
Proof.
  induction d as [|[k' v'] d IH]; simpl.
  - intros Hin. by apply elem_of_nil in Hin.
  - intros Hin. destruct (String.eqb k k') eqn:Hk; [by eexists|].
    apply String.eqb_neq in Hk.
    apply elem_of_cons in Hin as [->|Hin]; [done|by apply IH].
Qed.

(** The collaborators that refuse nothing, and their table. *)
Lemma permissive_normal_ok central error :
  exists d,
    NormalDistribution (Collaborators := Permissive.collaborators)
      central error = ok d.
Proof. by eexists. Qed.

Lemma permissive_asymmetric_ok central right left :
  exists d,
    AsymmetricNormalDistribution (Collaborators := Permissive.collaborators)
      central right left = ok d.
Proof. by eexists. Qed.

Lemma permissive_add_ok names d cs :
  exists cs',
    add_constraint (Collaborators := Permissive.collaborators) names d cs
    = ok cs'.
Proof. by eexists. Qed.

Lemma permissive_remove_KeyError name cs e :
  remove_constraint (Collaborators := Permissive.collaborators) name cs
  = raise e ->
  e = KeyError.
Proof.
  simpl. unfold Reference.remove_constraint.
  destruct (Reference.constrained name cs); [discriminate|]. by intros [= <-].
Qed.

Lemma permissive_table_parses :
  exists particles,
    _read_pdg_masswidth (C := Permissive.collaborators) Permissive.table
    = ok particles
    /\ forall particle,
         particle ∈ pdg_include -> is_Some (Dict.get particle particles).
Proof.
  destruct (_read_pdg_masswidth (C := Permissive.collaborators)
              Permissive.table) as [e|particles] eqn:Hparse.
  { vm_compute in Hparse. discriminate. }
  exists particles. split; [reflexivity|].
  assert (Hkeys : forallb (fun particle =>
                             bool_decide (particle ∈ map fst particles))
                    pdg_include = true).
  { vm_compute in Hparse. injection Hparse as <-. vm_compute. reflexivity. }
  intros particle Hin. rewrite forallb_forall in Hkeys.
  apply list_elem_of_In, Hkeys, bool_decide_eq_true in Hin.
  by apply dict_get_key.
Qed.

(** ** Runs of the loaders *)

Lemma metadata_loader_is_idempotent_witness :
  exists w1 : world,
    _read_yaml_object_metadata (C := Reference.collaborators)
      [("m_x", {["tex" := Some "$m_x$"]}); ("m_y", ∅)]
      Reference.empty_world = (ok tt, w1)
    /\ _read_yaml_object_metadata (C := Reference.collaborators)
         [("m_x", {["tex" := Some "$m_x$"]}); ("m_y", ∅)] w1 = (ok tt, w1).
Proof.
  apply (metadata_loader_is_idempotent (C := Reference.collaborators)
           [("m_x", {["tex" := Some "$m_x$"]}); ("m_y", ∅)]
           Reference.empty_world).
  by apply (bool_decide_unpack _).
Defined.

Lemma values_after_metadata_witness :
  let value := Reference.Y_errors (mk_error_dict 5 [0.1%R] []) in
  exists w1 : world,
    _read_yaml_object_metadata (C := Reference.collaborators)
      [("m_x", ∅)] Reference.empty_world = (ok tt, w1)
    /\ _read_yaml_object_values (C := Reference.collaborators)
         [("m_x", value)] w1
       = for_each (C := Reference.collaborators) [("m_x", value)]
           (fun entry =>
              on_constraints
                (set_constraint (Collaborators := Reference.collaborators)
                   entry.1 entry.2)) w1.
Proof.
  intros value.
  apply (values_after_metadata_skip_no_name (C := Reference.collaborators)
           [("m_x", ∅)] [("m_x", value)] Reference.empty_world).
  intros name Hname. exact Hname.
Defined.

Lemma missing_particle_witness :
  let w : world :=
    @mk_world Reference.collaborators
      {["m_B0" := new_parameter]} [(["m_B0"], Reference.Normal 5 1)] in
  exists w' : world,
    read_pdg_particle (C := Reference.collaborators) [] "B0" w
    = (raise KeyError, w')
    /\ constraints w' = [].
Proof.
  intros w.
  apply (missing_particle_loses_its_constraint
           (C := Reference.collaborators) [] "B0" new_parameter [] w);
    reflexivity.
Defined.

Lemma mass_step_witness :
  let particles : Dict.t particle :=
    [("B0", {| particle_id := "511";
               particle_mass := (5.28, 0.001, - 0.001)%R;
               particle_charge := "0";
               particle_width := (0, 0, 0)%R;
               particle_name := "B" |})] in
  exists (w' : world) p,
    read_pdg_mass (C := Permissive.collaborators) particles "B0"
      (@mk_world Permissive.collaborators ∅ []) = (ok tt, w')
    /\ registry w' !! "m_B0" = Some p
    /\ tex p = Some "$m_{B^{0}}$"
    /\ description p = Some "$B^{0}$ mass".
Proof.
  intros particles.
  destruct (read_pdg_mass_succeeds (C := Permissive.collaborators)
              permissive_normal_ok permissive_asymmetric_ok
              permissive_add_ok permissive_remove_KeyError
              particles "B0" _ (@mk_world Permissive.collaborators ∅ [])
              eq_refl) as [w' Hrun].
  destruct (mass_step_sets_label_and_description
              (C := Permissive.collaborators) particles "B0" _ w' Hrun)
    as (p & _ & _ & _ & Hp & _ & _ & Hstr & _).
  exists w', p. split; [exact Hrun|]. split; [exact Hp|].
  apply Hstr. by apply (bool_decide_unpack _).
Defined.

Lemma read_pdg_success_witness :
  exists w' : world,
    read_pdg (C := Permissive.collaborators) Permissive.table
      (@mk_world Permissive.collaborators ∅ []) = (ok tt, w')
    /\ is_Some (registry w' !! "m_Bs").
Proof.
  destruct permissive_table_parses as (particles & Hparse & Hall).
  destruct (read_pdg_particles_succeed (C := Permissive.collaborators)
              permissive_normal_ok permissive_asymmetric_ok
              permissive_add_ok permissive_remove_KeyError
              particles pdg_include (@mk_world Permissive.collaborators ∅ [])
              Hall) as [w' Hloop].
  assert (Hrun : read_pdg (C := Permissive.collaborators) Permissive.table
                   (@mk_world Permissive.collaborators ∅ []) = (ok tt, w')).
  { unfold read_pdg, mbind, lift. rewrite Hparse. exact Hloop. }
  exists w'. split; [exact Hrun|].
  destruct (read_pdg_success_registers_every_mass
              (C := Permissive.collaborators) _ _ _ Hrun)
    as (_ & particles' & _ & Hevery).
  apply (Hevery "B(s)"). by apply (bool_decide_unpack _).
Defined.

(** ** The table keeps what it reads *)

Section MasswidthKeepFacts.
Context `{C : Collaborators}.

Lemma dict_get_In {V} k v (d : Dict.t V) :
  Dict.get k d = Some v -> (k, v) ∈ d.
Proof.
  induction d as [|[k' v'] d IH]; simpl; [discriminate|].
  destruct (String.eqb k k') eqn:Hk.
  - apply String.eqb_eq in Hk as ->. intros [= ->]. by left.
  - intros Hget. right. by apply IH.
Qed.

Lemma dict_get_update_key {V} k (d e : Dict.t V) :
  k ∈ map fst e \/ is_Some (Dict.get k d) ->
  is_Some (Dict.get k (Dict.update d e)).
Proof.
  revert d. unfold Dict.update.
  induction e as [|[k0 v0] e IH]; intros d; simpl.
  - intros [Hin|Hget]; [by apply elem_of_nil in Hin|exact Hget].
  - intros Hk. apply IH.
    destruct (decide (k ∈ map fst e)) as [Hin|Hout]; [by left|right].
    rewrite dict_get_set. destruct (String.eqb k k0) eqn:Heq; [by eexists|].
    apply String.eqb_neq in Heq.
    destruct Hk as [Hk|Hk]; [|exact Hk].
    apply elem_of_cons in Hk as [->|Hk]; done.
Qed.

Lemma kept_after_step {V} name charge (entry : V) pbn n c :
  let pbn1 :=
    match Dict.get name pbn with
    | Some existing =>
        Dict.set name (Dict.update existing [(charge, entry)]) pbn
    | None => Dict.set name [(charge, entry)] pbn
    end in
  kept pbn1 name charge /\ (kept pbn n c -> kept pbn1 n c).
Proof.
  intros pbn1. subst pbn1. unfold kept. split.
  - destruct (Dict.get name pbn) as [existing|]; eexists;
      (split; [rewrite dict_get_set, String.eqb_refl; reflexivity|]).
    + apply dict_get_update_key. left. by left.
    + simpl. rewrite String.eqb_refl. by eexists.
  - intros (inner & Hn & Hc).
    destruct (String.eqb n name) eqn:Heq.
    + apply String.eqb_eq in Heq as ->. rewrite Hn.
      eexists. split; [rewrite dict_get_set, String.eqb_refl; reflexivity|].
      apply dict_get_update_key. by right.
    + exists inner. split; [|exact Hc].
      destruct (Dict.get name pbn); by rewrite dict_get_set, Heq.
Qed.

Lemma add_particles_keeps line mass width charges i ids pbn pbn' name :
  list_index (Str.split (Str.slice 107 128 line)) 0 = ok name ->
  add_particles line mass width charges i ids pbn = ok pbn' ->
  (forall n c, kept pbn n c -> kept pbn' n c)
  /\ (forall j charge,
        i <= j < i + length ids -> charges !! j = Some charge ->
        kept pbn' name (Str.strip charge)).
Proof.
  intros Hname. revert i pbn.
  induction ids as [|id_ ids IH]; intros i pbn; cbn [add_particles].
  - intros [= <-]. split; [done|]. simpl. intros j charge Hj. lia.
  - unfold list_index at 1.
    destruct (charges !! i) as [charge_i|] eqn:Hi; [|discriminate]. simpl.
    rewrite Hname. simpl. intros Hrest.
    destruct (IH _ _ Hrest) as [Hmono Hnew].
    pose proof (kept_after_step name (Str.strip charge_i)
                  {| particle_id := Str.strip id_;
                     particle_mass := mass;
                     particle_charge := Str.strip charge_i;
                     particle_width := width;
                     particle_name := name |} pbn) as Hstep.
    cbv zeta in Hstep. split.
    + intros n c Hk. apply Hmono. exact (proj2 (Hstep n c) Hk).
    + intros j charge Hj Hcharge.
      destruct (decide (j = i)) as [->|Hne].
      * rewrite Hi in Hcharge. injection Hcharge as <-.
        apply Hmono. exact (proj1 (Hstep name (Str.strip charge_i))).
      * apply (Hnew j charge); [simpl in Hj; lia|exact Hcharge].
Qed.

Lemma read_masswidth_line_keeps pbn line pbn' :
  read_masswidth_line pbn line = ok pbn' ->
  (forall n c, kept pbn n c -> kept pbn' n c)
  /\ (forall first name charge_list charge,
        Str.index (Str.strip line) 0 = ok first -> first <> "*"%char ->
        list_index (Str.split (Str.slice 107 128 line)) 0 = ok name ->
        list_index (Str.split (Str.slice 107 128 line)) 1 = ok charge_list ->
        charge ∈ Str.split_on "," charge_list ->
        kept pbn' name (Str.strip charge)).
Proof.
  unfold read_masswidth_line.
  destruct (Str.index (Str.strip line) 0) as [?|first] eqn:Hfirst;
    [discriminate|]. simpl.
  destruct (Ascii.eqb first "*") eqn:Hstar.
  { intros [= <-]. split; [done|].
    intros first' name charge_list charge [= <-] Hne.
    by apply Ascii.eqb_eq in Hstar. }
  destruct (float3 _ _ _) as [?|mass]; [discriminate|]. simpl.
  destruct (read_width line) as [?|width]; [discriminate|]. simpl.
  destruct (list_index (Str.split (Str.slice 107 128 line)) 1)
    as [?|charge_list] eqn:Hcl; [discriminate|]. simpl.
  destruct (length (Str.split (Str.slice 0 32 line))
            =? length (Str.split_on "," charge_list)) eqn:Hlen;
    [|discriminate]. simpl.
  apply Nat.eqb_eq in Hlen. intros Hadd. split.
  - destruct (list_index (Str.split (Str.slice 107 128 line)) 0)
      as [e|name] eqn:Hname.
    + destruct (Str.split (Str.slice 0 32 line)) as [|id_ ids].
      * cbn [add_particles] in Hadd. injection Hadd as <-. done.
      * cbn [add_particles] in Hadd.
        destruct (list_index (Str.split_on "," charge_list) 0);
          [discriminate|]. simpl in Hadd. rewrite Hname in Hadd.
        discriminate.
    + by destruct (add_particles_keeps _ _ _ _ _ _ _ _ _ Hname Hadd).
  - intros first' name charge_list' charge _ _ Hname [= <-] Hcharge.
    destruct (add_particles_keeps _ _ _ _ _ _ _ _ _ Hname Hadd) as [_ Hnew].
    apply list_elem_of_lookup in Hcharge as [j Hj].
    apply (Hnew j charge); [|exact Hj].
    apply lookup_lt_Some in Hj. lia.
Qed.

Lemma read_masswidth_lines_mono pbn lines pbn' n c :
  read_masswidth_lines pbn lines = ok pbn' -> kept pbn n c -> kept pbn' n c.
Proof.
  revert pbn. induction lines as [|line lines IH]; intros pbn;
    cbn [read_masswidth_lines].
  - by intros [= <-].
  - destruct (read_masswidth_line pbn line) as [?|pbn1] eqn:Hline;
      [discriminate|]. simpl. intros Hrest Hk.
    apply (IH _ Hrest). by apply (read_masswidth_line_keeps _ _ _ Hline).
Qed.

Lemma read_masswidth_lines_keeps pbn lines pbn' line first name charge_list
    charge :
  read_masswidth_lines pbn lines = ok pbn' ->
  line ∈ lines ->
  Str.index (Str.strip line) 0 = ok first -> first <> "*"%char ->
  list_index (Str.split (Str.slice 107 128 line)) 0 = ok name ->
  list_index (Str.split (Str.slice 107 128 line)) 1 = ok charge_list ->
  charge ∈ Str.split_on "," charge_list ->
  kept pbn' name (Str.strip charge).
Proof.
  intros Hrun Hin Hfirst Hstar Hname Hcl Hcharge. revert pbn Hrun.
  induction lines as [|l lines IH]; intros pbn;
    [by apply elem_of_nil in Hin|].
  cbn [read_masswidth_lines].
  destruct (read_masswidth_line pbn l) as [?|pbn1] eqn:Hline;
    [discriminate|]. simpl. intros Hrest.
  apply elem_of_cons in Hin as [<-|Hin].
  - apply (read_masswidth_lines_mono _ _ _ _ _ Hrest).
    destruct (read_masswidth_line_keeps _ _ _ Hline) as [_ Hnew].
    by apply (Hnew first name charge_list charge).
  - by apply (IH Hin pbn1).
Qed.

Lemma masswidth_result_has_every_charge pbn name charge :
  kept pbn name charge ->
  is_Some (Dict.get name (masswidth_result pbn))
  \/ is_Some (Dict.get (name +:+ charge) (masswidth_result pbn)).
Proof.
  intros (inner & Hname%dict_get_In & [entry Hcharge%dict_get_In]).
  unfold masswidth_result.
  destruct (1 <? length inner) eqn:Hlen.
  - right. apply dict_get_update_key. right.
    apply dict_get_update_key. left.
    apply list_elem_of_fmap. exists (name +:+ charge, entry).
    split; [reflexivity|].
    apply list_elem_of_In, in_flat_map. exists (name, inner).
    split; [by apply list_elem_of_In|].
    apply in_flat_map. exists (charge, entry).
    split; [by apply list_elem_of_In|]. rewrite Hlen. by left.
  - left. apply dict_get_update_key. left.
    destruct inner as [|[c0 e0] [|? ?]];
      [by apply elem_of_nil in Hcharge| |simpl in Hlen; discriminate].
    apply list_elem_of_fmap. exists (name, e0). split; [reflexivity|].
    apply list_elem_of_In, in_flat_map. exists (name, [(c0, e0)]).
    split; [by apply list_elem_of_In|]. by left.
Qed.

End MasswidthKeepFacts.

(** ** Where the records of the table come from *)

Section RowFacts.
Context `{C : Collaborators}.

Lemma record_lists line i entry :
  record_of_line line i entry ->
  line_lists line (particle_name entry) (particle_charge entry).
Proof.
  intros (first & mass & width & name & charge_list & charge & id_
          & Hfirst & Hstar & _ & _ & Hname & Hcl & Hcharge & _ & ->).
  exists first, charge_list, charge. simpl.
  repeat split; try done. by apply list_elem_of_lookup_2 in Hcharge.
Qed.

Lemma record_width line i entry :
  record_of_line line i entry -> read_width line = ok (particle_width entry).
Proof.
  by intros (first & mass & width & name & charge_list & charge & id_
             & _ & _ & _ & Hwidth & _ & _ & _ & _ & ->).
Qed.

Lemma add_particles_read_from lines line first mass width name charge_list
    i ids pbn pbn' :
  line ∈ lines ->
  Str.index (Str.strip line) 0 = ok first -> first <> "*"%char ->
  float3 (Str.slice 33 51 line) (Str.slice 52 60 line) (Str.slice 61 69 line)
  = ok mass ->
  read_width line = ok width ->
  list_index (Str.split (Str.slice 107 128 line)) 0 = ok name ->
  list_index (Str.split (Str.slice 107 128 line)) 1 = ok charge_list ->
  ids = drop i (Str.split (Str.slice 0 32 line)) ->
  all_read_from lines pbn ->
  add_particles line mass width (Str.split_on "," charge_list) i ids pbn
  = ok pbn' ->
  all_read_from lines pbn'.
Proof.
  intros Hline Hfirst Hstar Hmass Hwidth Hname Hcl. revert i pbn.
  induction ids as [|id_ ids IH]; intros i pbn Hids Hinv;
    cbn [add_particles].
  - by intros [= <-].
  - unfold list_index at 1.
    destruct (Str.split_on "," charge_list !! i) as [charge|] eqn:Hcharge;
      [|discriminate]. simpl. rewrite Hname. simpl.
    assert (Hid : Str.split (Str.slice 0 32 line) !! i = Some id_).
    { pose proof (lookup_drop (Str.split (Str.slice 0 32 line)) i 0) as H.
      rewrite <- Hids, Nat.add_0_r in H. by rewrite <- H. }
    apply IH.
    { rewrite (drop_S _ _ _ Hid) in Hids. by injection Hids. }
    assert (Hnew : read_from lines name (Str.strip charge)
              {| particle_id := Str.strip id_;
                 particle_mass := mass;
                 particle_charge := Str.strip charge;
                 particle_width := width;
                 particle_name := name |}).
    { exists line, i. split; [exact Hline|]. split; [|done].
      by exists first, mass, width, name, charge_list, charge, id_. }
    unfold all_read_from in *.
    destruct (Dict.get name pbn) as [existing|] eqn:Hget.
    + apply (dict_set_Forall
               (fun k inner => Forall (fun kv' => read_from lines k kv'.1 kv'.2)
                                      inner)); [exact Hinv|].
      apply (dict_set_Forall (fun k' v' => read_from lines name k' v'));
        [|exact Hnew].
      exact (dict_get_elem
               (fun k inner => Forall (fun kv' => read_from lines k kv'.1 kv'.2)
                                      inner) _ _ _ Hinv Hget).
    + apply (dict_set_Forall
               (fun k inner => Forall (fun kv' => read_from lines k kv'.1 kv'.2)
                                      inner)); [exact Hinv|].
      by repeat constructor.
Qed.

Lemma read_masswidth_line_read_from lines line pbn pbn' :
  line ∈ lines ->
  all_read_from lines pbn ->
  read_masswidth_line pbn line = ok pbn' ->
  all_read_from lines pbn'.
Proof.
  intros Hline Hinv. unfold read_masswidth_line.
  destruct (Str.index (Str.strip line) 0) as [?|first] eqn:Hfirst;
    [discriminate|]. simpl.
  destruct (Ascii.eqb first "*") eqn:Hstar; [by intros [= <-]|].
  apply Ascii.eqb_neq in Hstar.
  destruct (float3 _ _ _) as [?|mass] eqn:Hmass; [discriminate|]. simpl.
  destruct (read_width line) as [?|width] eqn:Hwidth; [discriminate|]. simpl.
  destruct (list_index _ 1) as [?|charge_list] eqn:Hcl; [discriminate|]. simpl.
  destruct (negb _); [discriminate|].
  destruct (list_index (Str.split (Str.slice 107 128 line)) 0)
    as [e|name] eqn:Hname.
  - destruct (Str.split (Str.slice 0 32 line)) as [|id_ ids];
      cbn [add_particles].
    + by intros [= <-].
    + destruct (list_index (Str.split_on "," charge_list) 0);
        [discriminate|]. simpl. rewrite Hname. discriminate.
  - by apply (add_particles_read_from lines line first mass width name
                charge_list 0).
Qed.

Lemma read_masswidth_lines_read_from lines ls pbn pbn' :
  (forall line, line ∈ ls -> line ∈ lines) ->
  all_read_from lines pbn ->
  read_masswidth_lines pbn ls = ok pbn' ->
  all_read_from lines pbn'.
Proof.
  revert pbn. induction ls as [|line ls IH]; intros pbn Hsub Hinv;
    cbn [read_masswidth_lines].
  - by intros [= <-].
  - destruct (read_masswidth_line pbn line) as [?|pbn1] eqn:Hline;
      [discriminate|]. simpl.
    apply IH.
    + intros l Hl. apply Hsub. by right.
    + apply (read_masswidth_line_read_from lines line pbn); [|done..].
      apply Hsub. by left.
Qed.

Lemma add_particles_distinct line mass width charges i ids pbn pbn' :
  distinct_keys pbn ->
  add_particles line mass width charges i ids pbn = ok pbn' ->
  distinct_keys pbn'.
Proof.
  revert i pbn. induction ids as [|id_ ids IH]; intros i pbn Hinv;
    cbn [add_particles].
  - by intros [= <-].
  - destruct (list_index charges i) as [?|charge]; [discriminate|]. simpl.
    destruct (list_index (Str.split (Str.slice 107 128 line)) 0)
      as [?|name]; [discriminate|]. simpl.
    apply IH. destruct Hinv as [Hkeys Hinner].
    destruct (Dict.get name pbn) as [existing|] eqn:Hget.
    + split; [by apply dict_set_keys_NoDup|].
      apply (dict_set_Forall (fun _ inner => NoDup (map fst inner)));
        [exact Hinner|].
      first [apply dict_update_keys_NoDup|apply dict_set_keys_NoDup].
      exact (dict_get_elem (fun _ inner => NoDup (map fst inner))
               _ _ _ Hinner Hget).
    + split; [by apply dict_set_keys_NoDup|].
      apply (dict_set_Forall (fun _ inner => NoDup (map fst inner)));
        [exact Hinner|].
      apply NoDup_singleton.
Qed.

Lemma read_masswidth_lines_distinct lines pbn pbn' :
  distinct_keys pbn ->
  read_masswidth_lines pbn lines = ok pbn' ->
  distinct_keys pbn'.
Proof.
  revert pbn. induction lines as [|line lines IH]; intros pbn Hinv;
    cbn [read_masswidth_lines].
  - by intros [= <-].
  - destruct (read_masswidth_line pbn line) as [?|pbn1] eqn:Hline;
      [discriminate|]. simpl. apply IH.
    unfold read_masswidth_line in Hline.
    destruct (Str.index (Str.strip line) 0) as [?|first]; [discriminate|].
    simpl in Hline.
    destruct (Ascii.eqb first "*"); [by injection Hline as <-|].
    destruct (float3 _ _ _) as [?|mass]; [discriminate|]. simpl in Hline.
    destruct (read_width line) as [?|width]; [discriminate|]. simpl in Hline.
    destruct (list_index _ 1) as [?|charge_list]; [discriminate|].
    simpl in Hline.
    destruct (negb _); [discriminate|].
    by apply (add_particles_distinct _ _ _ _ _ _ _ _ Hinv Hline).
Qed.

End RowFacts.

(** ** The two comprehensions *)

Section ResultFacts.
Context `{C : Collaborators}.

Lemma dict_get_update_unique {V} k v (d e : Dict.t V) :
  (k, v) ∈ e -> (forall v', (k, v') ∈ e -> v' = v) ->
  Dict.get k (Dict.update d e) = Some v.
Proof.
  revert d. unfold Dict.update.
  induction e as [|[k0 v0] e IH]; intros d Hin Huniq; simpl.
  - by apply elem_of_nil in Hin.
  - destruct (decide (k ∈ map fst e)) as [Hk|Hk].
    + apply list_elem_of_fmap in Hk as ([k1 v1] & -> & Hk). simpl in *.
      assert (v1 = v) as -> by (apply Huniq; by right).
      apply IH; [exact Hk|]. intros v' Hv'. apply Huniq. by right.
    + pose proof (dict_get_update_notin k (Dict.set k0 v0 d) e Hk) as Hout.
      unfold Dict.update in Hout. rewrite Hout, dict_get_set.
      apply elem_of_cons in Hin as [[= <- <-]|Hin].
      * by rewrite String.eqb_refl.
      * exfalso. apply Hk. apply list_elem_of_fmap. by exists (k, v).
Qed.

Lemma distinct_keys_value {V} k v v' (d : Dict.t V) :
  NoDup (map fst d) -> (k, v) ∈ d -> (k, v') ∈ d -> v = v'.
Proof.
  induction d as [|[k0 v0] d IH]; intros Hnd Hv Hv'.
  - by apply elem_of_nil in Hv.
  - cbn [map fst] in Hnd. apply NoDup_cons in Hnd as [Hfresh Hnd].
    apply elem_of_cons in Hv as [Hv|Hv];
      apply elem_of_cons in Hv' as [Hv'|Hv']; simplify_eq.
    + reflexivity.
    + exfalso. apply Hfresh. apply list_elem_of_fmap. by exists (k0, v').
    + exfalso. apply Hfresh. apply list_elem_of_fmap. by exists (k0, v).
    + by apply IH.
Qed.

Lemma append_inv_l (s t t' : string) : s +:+ t = s +:+ t' -> t = t'.
Proof.
  induction s as [|c s IH]; simpl; [done|]. intros [= H]. by apply IH.
Qed.

Lemma masswidth_result_read_from lines pbn :
  all_read_from lines pbn ->
  Forall (fun kv =>
    exists name charge,
      read_from lines name charge kv.2
      /\ (kv.1 = name \/ kv.1 = name +:+ charge))
    (masswidth_result pbn).
Proof.
  intros Hinv. unfold masswidth_result, Dict.of_items, all_read_from in *.
  rewrite Forall_forall in Hinv.
  apply (dict_update_Forall
           (fun key entry =>
              exists name charge,
                read_from lines name charge entry
                /\ (key = name \/ key = name +:+ charge))).
  - apply (dict_update_Forall
             (fun key entry =>
                exists name charge,
                  read_from lines name charge entry
                  /\ (key = name \/ key = name +:+ charge))); [constructor|].
    apply Forall_forall. intros [key entry] Hin.
    apply list_elem_of_In, in_flat_map in Hin as ([k v] & Hkv & Hin).
    apply in_flat_map in Hin as ([kk vv] & Hkk & Hin).
    destruct (1 <? length v); [|by destruct Hin].
    destruct Hin as [[= <- <-]|[]].
    exists k, kk. split; [|by right].
    apply list_elem_of_In, Hinv in Hkv. rewrite Forall_forall in Hkv.
    by apply list_elem_of_In, Hkv in Hkk.
  - apply Forall_forall. intros [key entry] Hin.
    apply list_elem_of_In, in_flat_map in Hin as ([k v] & Hkv & Hin).
    destruct (length v =? 1); [|by destruct Hin].
    destruct v as [|[kk vv] v]; [by destruct Hin|].
    destruct Hin as [[= <- <-]|[]].
    exists k, kk. split; [|by left].
    apply list_elem_of_In, Hinv in Hkv. by apply Forall_cons in Hkv as [Hkv _].
Qed.

Lemma masswidth_result_single pbn name inner charge entry :
  distinct_keys pbn ->
  Dict.get name pbn = Some inner -> length inner = 1 ->
  Dict.get charge inner = Some entry ->
  Dict.get name (masswidth_result pbn) = Some entry.
Proof.
  intros [Hkeys _] Hname%dict_get_In Hlen Hcharge%dict_get_In.
  destruct inner as [|[c0 e0] [|? ?]]; try discriminate.
  apply list_elem_of_singleton in Hcharge as [= -> ->].
  unfold masswidth_result. apply dict_get_update_unique.
  - apply list_elem_of_In, in_flat_map. exists (name, [(c0, e0)]).
    split; [by apply list_elem_of_In|]. by left.
  - intros v' Hin.
    apply list_elem_of_In, in_flat_map in Hin as ([k v] & Hkv & Hin).
    destruct (length v =? 1); [|by destruct Hin].
    destruct v as [|[kk vv] v]; [by destruct Hin|].
    destruct Hin as [[= -> ->]|[]].
    apply list_elem_of_In in Hkv.
    by injection (distinct_keys_value _ _ _ _ Hkeys Hname Hkv).
Qed.

Lemma masswidth_result_multi lines pbn name inner charge entry :
  distinct_keys pbn -> all_read_from lines pbn ->
  Dict.get name pbn = Some inner -> (1 <? length inner) = true ->
  Dict.get charge inner = Some entry ->
  unambiguous lines name charge ->
  Dict.get (name +:+ charge) (masswidth_result pbn) = Some entry.
Proof.
  intros [Hkeys Hinner] Hinv Hname%dict_get_In Hlen Hcharge%dict_get_In
    Hclear.
  unfold all_read_from in Hinv. rewrite Forall_forall in Hinv, Hinner.
  unfold masswidth_result. rewrite dict_get_update_notin.
  - unfold Dict.of_items. apply dict_get_update_unique.
    + apply list_elem_of_In, in_flat_map. exists (name, inner).
      split; [by apply list_elem_of_In|].
      apply in_flat_map. exists (charge, entry).
      split; [by apply list_elem_of_In|]. rewrite Hlen. by left.
    + intros v' Hin.
      apply list_elem_of_In, in_flat_map in Hin as ([k v] & Hkv & Hin).
      apply in_flat_map in Hin as ([kk vv] & Hkk & Hin).
      destruct (1 <? length v); [|by destruct Hin].
      destruct Hin as [[= Hkey ->]|[]].
      apply list_elem_of_In in Hkv, Hkk.
      pose proof (Hinv _ Hkv) as Hrows. rewrite Forall_forall in Hrows.
      destruct (Hrows _ Hkk) as (line' & i & Hline' & Hrec & Hn & Hc).
      apply record_lists in Hrec. simpl in Hn, Hc, Hrec.
      rewrite Hn, Hc in Hrec.
      destruct (Hclear line' k kk Hline' Hrec) as [_ Hsame].
      specialize (Hsame Hkey). rewrite Hsame in Hkey, Hkv.
      apply append_inv_l in Hkey. rewrite Hkey in Hkk.
      assert (v = inner) as ->
        by exact (distinct_keys_value _ _ _ _ Hkeys Hkv Hname).
      exact (distinct_keys_value _ _ _ _ (Hinner _ Hname) Hkk Hcharge).
  - intros Hin. apply list_elem_of_fmap in Hin as ([key v'] & Hkey & Hin).
    simpl in Hkey. subst key.
    apply list_elem_of_In, in_flat_map in Hin as ([k v] & Hkv & Hin).
    destruct (length v =? 1); [|by destruct Hin].
    destruct v as [|[kk vv] v]; [by destruct Hin|].
    destruct Hin as [[= -> ->]|[]].
    apply list_elem_of_In in Hkv.
    pose proof (Hinv _ Hkv) as Hrows. apply Forall_cons in Hrows as [Hrow _].
    destruct Hrow as (line' & i & Hline' & Hrec & Hn & Hc).
    apply record_lists in Hrec. simpl in Hn, Hc, Hrec.
      rewrite Hn, Hc in Hrec.
    by destruct (Hclear line' _ kk Hline' Hrec) as [Hne _].
Qed.

Lemma masswidth_result_multi_key pbn name inner charge entry :
  Dict.get name pbn = Some inner -> (1 <? length inner) = true ->
  Dict.get charge inner = Some entry ->
  is_Some (Dict.get (name +:+ charge) (masswidth_result pbn)).
Proof.
  intros Hname%dict_get_In Hlen Hcharge%dict_get_In.
  unfold masswidth_result.
  apply dict_get_update_key. right. apply dict_get_update_key. left.
  apply list_elem_of_fmap. exists (name +:+ charge, entry).
  split; [reflexivity|].
  apply list_elem_of_In, in_flat_map. exists (name, inner).
  split; [by apply list_elem_of_In|].
  apply in_flat_map. exists (charge, entry).
  split; [by apply list_elem_of_In|]. rewrite Hlen. by left.
Qed.

Lemma masswidth_result_keeps lines pbn name charge :
  distinct_keys pbn -> all_read_from lines pbn ->
  kept pbn name charge ->
  (exists entry,
      Dict.get name (masswidth_result pbn) = Some entry
      /\ read_from lines name charge entry)
  \/ (exists entry,
        Dict.get (name +:+ charge) (masswidth_result pbn) = Some entry
        /\ (exists name' charge', read_from lines name' charge' entry)
        /\ (unambiguous lines name charge ->
            read_from lines name charge entry)).
Proof.
  intros Hkeys Hinv (inner & Hname & [entry Hcharge]).
  assert (Hown : read_from lines name charge entry).
  { pose proof (dict_get_elem
                  (fun k inner =>
                     Forall (fun kv' => read_from lines k kv'.1 kv'.2) inner)
                  _ _ _ Hinv Hname) as Hrows.
    exact (dict_get_elem (fun k' v' => read_from lines name k' v')
             _ _ _ Hrows Hcharge). }
  destruct (1 <? length inner) eqn:Hlen.
  - right.
    destruct (masswidth_result_multi_key pbn name inner charge entry
                Hname Hlen Hcharge) as [found Hfound].
    exists found. split; [exact Hfound|]. split.
    + pose proof (masswidth_result_read_from lines pbn Hinv) as Hall.
      destruct (dict_get_elem
                  (fun key entry =>
                     exists name charge,
                       read_from lines name charge entry
                       /\ (key = name \/ key = name +:+ charge))
                  _ _ _ Hall Hfound) as (n & c & Hread & _).
      by exists n, c.
    + intros Hclear.
      rewrite (masswidth_result_multi lines pbn name inner charge entry)
        in Hfound; try done.
      by injection Hfound as <-.
  - left. exists entry. split; [|exact Hown].
    apply (masswidth_result_single pbn name inner charge entry); try done.
    apply dict_get_In in Hcharge. apply Nat.ltb_ge in Hlen.
    destruct inner; [by apply elem_of_nil in Hcharge|]. simpl in *. lia.
Qed.

End ResultFacts.

(** ** The loop of [read_pdg], particle by particle *)

Section PdgLoopSteps.
Context `{C : Collaborators}.

Lemma existing_or_new_made_ready name (w w1 : world) :
  existing_or_new name w = (ok tt, w1) -> made_ready name w w1.
Proof.
  unfold existing_or_new, try_except_KeyError, mbind, Parameter_getitem,
    on_constraints, Parameter_call, made_ready.
  destruct (registry w !! name) as [p|] eqn:Hreg; simpl.
  - destruct (remove_constraint name (constraints w)) as [e|cs'] eqn:Hrm;
      simpl.
    + destruct e; try discriminate. rewrite Hreg. intros [= <-].
      split; [reflexivity|]. by right.
    + intros [= <-]. simpl. split; [reflexivity|]. by left.
  - rewrite Hreg. by intros [= <-].
Qed.

Lemma for_each_ok_split {A} (body : A -> M unit) xs x (w w' : world) :
  for_each xs body w = (ok tt, w') ->
  x ∈ xs ->
  exists before after w0 w1,
    xs = before ++ x :: after
    /\ for_each before body w = (ok tt, w0)
    /\ body x w0 = (ok tt, w1)
    /\ for_each after body w1 = (ok tt, w').
Proof.
  revert w. induction xs as [|y xs IH]; intros w Hrun Hin.
  - by apply elem_of_nil in Hin.
  - cbn [for_each] in Hrun. unfold mbind in Hrun.
    destruct (body y w) as [[e|[]] wy] eqn:Hy; [discriminate|].
    apply elem_of_cons in Hin as [->|Hin].
    + by exists [], xs, w, wy.
    + destruct (IH wy Hrun Hin) as (before & after & w0 & w1 & -> & Hb & Hx & Ha).
      exists (y :: before), after, w0, w1. split; [reflexivity|].
      split; [|done]. cbn [for_each]. unfold mbind. by rewrite Hy.
Qed.

Lemma read_pdg_mass_ok particles particle (w wm : world) :
  let name := "m_" +:+ Dict.get_default particle particle pdg_translate in
  read_pdg_mass particles particle w = (ok tt, wm) ->
  exists entry d w1,
    Dict.get particle particles = Some entry
    /\ made_ready name w w1
    /\ mass_distribution (particle_mass entry) = ok d
    /\ add_constraint [name] d (constraints w1) = ok (constraints wm)
    /\ is_Some (registry wm !! name)
    /\ (forall n, n <> name -> registry wm !! n = registry w !! n).
Proof.
  intros name Hrun.
  destruct (read_pdg_mass_outcome particles particle w)
    as [(e & _ & _ & Hraise)
       |(w1 & reg2 & p2 & Hok & Heq & Hp2 & _ & _ & _ & Hother)].
  { rewrite Hraise in Hrun. discriminate. }
  fold name in Heq, Hp2, Hok, Hother. rewrite Heq in Hrun.
  destruct (Dict.get particle particles) as [entry|]; [|discriminate].
  destruct (mass_distribution _) as [?|d] eqn:Hdist; [discriminate|].
  destruct (add_constraint _ _ _) as [?|cs'] eqn:Hadd; [discriminate|].
  injection Hrun as <-. exists entry, d, w1. simpl.
  split; [reflexivity|]. split; [by apply existing_or_new_made_ready|].
  split; [exact Hdist|]. split; [exact Hadd|]. split; [by rewrite Hp2|].
  intros n Hn.
  by rewrite (Hother n Hn), (existing_or_new_others _ _ _ _ Hok Hn).
Qed.

Lemma read_pdg_lifetime_ok particle width (w w_end : world) :
  let name := "tau_" +:+ Dict.get_default particle particle pdg_translate in
  read_pdg_lifetime particle width w = (ok tt, w_end) ->
  exists d w1,
    made_ready name w w1
    /\ lifetime_distribution width = ok d
    /\ add_constraint [name] d (constraints w1) = ok (constraints w_end)
    /\ is_Some (registry w_end !! name).
Proof.
  intros name Hrun.
  destruct (read_pdg_lifetime_outcome particle width w)
    as [(e & _ & _ & Hraise)
       |(w1 & reg2 & p2 & Hok & Heq & Hp2 & _)].
  { rewrite Hraise in Hrun. discriminate. }
  fold name in Heq, Hp2, Hok. rewrite Heq in Hrun.
  destruct (lifetime_distribution _) as [?|d] eqn:Hdist; [discriminate|].
  destruct (add_constraint _ _ _) as [?|cs'] eqn:Hadd; [discriminate|].
  injection Hrun as <-. exists d, w1. simpl.
  split; [by apply existing_or_new_made_ready|].
  split; [reflexivity|]. split; [exact Hadd|]. by rewrite Hp2.
Qed.

Lemma read_pdg_particle_ok particles particle (w w_end : world) :
  read_pdg_particle particles particle w = (ok tt, w_end) ->
  exists entry wm,
    Dict.get particle particles = Some entry
    /\ read_pdg_mass particles particle w = (ok tt, wm)
    /\ ((particle_width entry).1.1 = 0%R -> w_end = wm)
    /\ ((particle_width entry).1.1 <> 0%R ->
        read_pdg_lifetime particle (particle_width entry) wm
        = (ok tt, w_end)).
Proof.
  unfold read_pdg_particle, mbind. intros Hrun.
  destruct (read_pdg_mass particles particle w) as [[?|[]] wm] eqn:Hmass;
    [discriminate|].
  unfold lift, Dict.getitem in Hrun.
  destruct (Dict.get particle particles) as [entry|] eqn:Hget;
    [|discriminate]. simpl in Hrun.
  exists entry, wm. split; [reflexivity|]. split; [reflexivity|].
  destruct (Reqb _ _) eqn:Hzero.
  - injection Hrun as <-. apply Reqb_true in Hzero. by split.
  - apply Reqb_false in Hzero. by split.
Qed.

Lemma mass_name_is_no_lifetime_name (x y : string) : "tau_" +:+ x <> "m_" +:+ y.
Proof. discriminate. Qed.

End PdgLoopSteps.

(** ** The PDG loader, over its list of particles *)

Section PdgLoaderFacts.
Context `{C : Collaborators}.

Lemma parse_read_from lines particles key entry :
  _read_pdg_masswidth lines = ok particles ->
  Dict.get key particles = Some entry ->
  exists line i,
    line ∈ lines /\ record_of_line line i entry
    /\ (key = particle_name entry
        \/ key = particle_name entry +:+ particle_charge entry).
Proof.
  unfold _read_pdg_masswidth.
  destruct (read_masswidth_lines [] lines) as [?|pbn] eqn:Hrun;
    [discriminate|]. simpl. intros [= <-] Hget.
  assert (Hinv : all_read_from lines pbn).
  { apply (read_masswidth_lines_read_from lines lines []); try done.
    constructor. }
  apply masswidth_result_read_from in Hinv.
  destruct (dict_get_elem
              (fun key entry =>
                 exists name charge,
                   read_from lines name charge entry
                   /\ (key = name \/ key = name +:+ charge))
              _ _ _ Hinv Hget)
    as (name & charge & (line & i & Hline & Hrec & <- & <-) & Hkey).
  by exists line, i.
Qed.

Lemma parse_keeps lines particles line name charge :
  _read_pdg_masswidth lines = ok particles ->
  line ∈ lines -> line_lists line name charge ->
  (exists entry,
      Dict.get name particles = Some entry
      /\ read_from lines name charge entry)
  \/ (exists entry,
        Dict.get (name +:+ charge) particles = Some entry
        /\ (exists name' charge', read_from lines name' charge' entry)
        /\ (unambiguous lines name charge ->
            read_from lines name charge entry)).
Proof.
  unfold _read_pdg_masswidth.
  destruct (read_masswidth_lines [] lines) as [?|pbn] eqn:Hrun;
    [discriminate|]. simpl.
  intros [= <-] Hin
    (first & charge_list & raw & Hfirst & Hstar & Hname & Hcl & Hraw & ->).
  apply masswidth_result_keeps.
  - apply (read_masswidth_lines_distinct lines [] pbn); [|exact Hrun].
    split; constructor.
  - apply (read_masswidth_lines_read_from lines lines []); try done.
    constructor.
  - by apply (read_masswidth_lines_keeps [] lines pbn line first name
                charge_list raw).
Qed.

Lemma read_from_blank lines name charge entry :
  (forall line,
      line ∈ lines -> line_lists line name charge ->
      Str.is_empty (Str.strip (Str.slice 70 88 line)) = true) ->
  read_from lines name charge entry ->
  particle_width entry = (0, 0, 0)%R.
Proof.
  intros Hblank (line & i & Hline & Hrec & Hn & Hc).
  pose proof (record_lists _ _ _ Hrec) as Hlists. rewrite Hn, Hc in Hlists.
  pose proof (record_width _ _ _ Hrec) as Hwidth.
  unfold read_width in Hwidth. rewrite (Hblank line Hline Hlists) in Hwidth.
  by injection Hwidth.
Qed.

(** C5.  When [read_pdg] has run to its end, the table was parsed and, for
    every particle of the include list, the loop came to that particle in
    some state [w0] and left it in a state [w_end], in which it went through
    the remaining particles.  In between, the mass step took the entry of
    the particle from the table and made the mass parameter ready: if it was
    registered, the constraint on it was removed (or it had none), otherwise
    it was created.  The constraint built from the mass of the table was
    then added to the constraints so obtained, and the parameter is
    registered.  If the central value of the width is zero the body ends
    there; if not, the lifetime parameter was made ready in the same way in
    the state the mass step had reached, and the constraint built from the
    width was added. *)
Theorem pdg_loader_overwrites_constraints_of_included_particles lines
    (w w' : world) :
  read_pdg lines w = (ok tt, w') ->
  exists particles,
    _read_pdg_masswidth lines = ok particles
    /\ forall particle,
         particle ∈ pdg_include ->
         let translated :=
           Dict.get_default particle particle pdg_translate in
         exists before after w0 w_end entry w1 d wm,
           pdg_include = before ++ particle :: after
           /\ for_each before (read_pdg_particle particles) w = (ok tt, w0)
           /\ read_pdg_particle particles particle w0 = (ok tt, w_end)
           /\ for_each after (read_pdg_particle particles) w_end
              = (ok tt, w')
           /\ Dict.get particle particles = Some entry
           /\ read_pdg_mass particles particle w0 = (ok tt, wm)
           /\ made_ready ("m_" +:+ translated) w0 w1
           /\ mass_distribution (particle_mass entry) = ok d
           /\ add_constraint ["m_" +:+ translated] d (constraints w1)
              = ok (constraints wm)
           /\ is_Some (registry wm !! ("m_" +:+ translated))
           /\ ((particle_width entry).1.1 = 0%R -> w_end = wm)
           /\ ((particle_width entry).1.1 <> 0%R ->
               exists w2 d',
                 read_pdg_lifetime particle (particle_width entry) wm
                 = (ok tt, w_end)
                 /\ made_ready ("tau_" +:+ translated) wm w2
                 /\ lifetime_distribution (particle_width entry) = ok d'
                 /\ add_constraint ["tau_" +:+ translated] d'
                      (constraints w2)
                    = ok (constraints w_end)
                 /\ is_Some (registry w_end !! ("tau_" +:+ translated))).
Proof.
  unfold read_pdg, mbind, lift.
  destruct (_read_pdg_masswidth lines) as [?|particles]; [discriminate|].
  intros Hrun. exists particles. split; [reflexivity|].
  intros particle Hin.
  destruct (for_each_ok_split (read_pdg_particle particles) pdg_include
              particle w w' Hrun Hin)
    as (before & after & w0 & w_end & Hsplit & Hbefore & Hbody & Hafter).
  destruct (read_pdg_particle_ok particles particle w0 w_end Hbody)
    as (entry & wm & Hget & Hmass & Hzero & Hwidth).
  destruct (read_pdg_mass_ok particles particle w0 wm Hmass)
    as (entry' & d & w1 & Hget' & Hready & Hd & Hadd & Hreg & _).
  rewrite Hget in Hget'. injection Hget' as <-.
  exists before, after, w0, w_end, entry, w1, d, wm.
  repeat (split; [done|]). intros Hnonzero.
  destruct (read_pdg_lifetime_ok particle (particle_width entry) wm w_end
              (Hwidth Hnonzero)) as (d' & w2 & Hready' & Hd' & Hadd' & Hreg').
  exists w2, d'. repeat split; try done. by apply Hwidth.
Qed.

(** C9.  A line whose width column is blank is read with the width
    [(0, 0, 0)].  Every entry of the parsed table is the record of a line of
    the table, built for one of the charges that line lists, under the name
    of the line, alone or with that charge appended; it has the width of
    that line, [(0, 0, 0)] when its width column is blank.  Conversely, for
    a particle that a line lists with a charge, when every line that lists
    it with that charge has a blank width column, the table holds an entry
    of width [(0, 0, 0)] under the name, or under the name with the charge
    appended (there, provided no other particle of the table gives the same
    key).  For a particle whose entry has a width of central value zero the
    loop body of [read_pdg] is its mass step, whether it succeeds or not:
    the lifetime step, and with it the division by the central value of the
    width, is skipped.  When the body succeeds, the mass parameter was made
    ready and the constraint built from the mass of the table was added to
    the constraints so obtained; these are the constraints the body leaves,
    and the lifetime parameter is untouched.  And when [read_pdg] has run to
    its end, this is what happened for every such particle of the include
    list. *)
Theorem blank_width_row_gets_the_mass_constraint_only :
  (forall line,
      Str.is_empty (Str.strip (Str.slice 70 88 line)) = true ->
      read_width line = ok (0, 0, 0)%R)
  /\ (forall lines particles key entry,
        _read_pdg_masswidth lines = ok particles ->
        Dict.get key particles = Some entry ->
        exists line i,
          line ∈ lines
          /\ record_of_line line i entry
          /\ (key = particle_name entry
              \/ key = particle_name entry +:+ particle_charge entry)
          /\ (Str.is_empty (Str.strip (Str.slice 70 88 line)) = true ->
              particle_width entry = (0, 0, 0)%R))
  /\ (forall lines particles line name charge,
        _read_pdg_masswidth lines = ok particles ->
        line ∈ lines -> line_lists line name charge ->
        (forall line',
            line' ∈ lines -> line_lists line' name charge ->
            Str.is_empty (Str.strip (Str.slice 70 88 line')) = true) ->
        (exists entry,
            Dict.get name particles = Some entry
            /\ particle_width entry = (0, 0, 0)%R)
        \/ (exists entry,
              Dict.get (name +:+ charge) particles = Some entry
              /\ (unambiguous lines name charge ->
                  particle_width entry = (0, 0, 0)%R)))
  /\ (forall particles particle entry (w : world),
        let translated :=
          Dict.get_default particle particle pdg_translate in
        Dict.get particle particles = Some entry ->
        (particle_width entry).1.1 = 0%R ->
        read_pdg_particle particles particle w
        = read_pdg_mass particles particle w
        /\ forall w_end,
             read_pdg_particle particles particle w = (ok tt, w_end) ->
             exists w1 d,
               made_ready ("m_" +:+ translated) w w1
               /\ mass_distribution (particle_mass entry) = ok d
               /\ add_constraint ["m_" +:+ translated] d (constraints w1)
                  = ok (constraints w_end)
               /\ registry w_end !! ("tau_" +:+ translated)
                  = registry w !! ("tau_" +:+ translated))
  /\ (forall lines (w w' : world),
        read_pdg lines w = (ok tt, w') ->
        exists particles,
          _read_pdg_masswidth lines = ok particles
          /\ forall particle,
               particle ∈ pdg_include ->
               exists entry,
                 Dict.get particle particles = Some entry
                 /\ ((particle_width entry).1.1 = 0%R ->
                     exists before after w0 w_end,
                       pdg_include = before ++ particle :: after
                       /\ for_each before (read_pdg_particle particles) w
                          = (ok tt, w0)
                       /\ read_pdg_particle particles particle w0
                          = (ok tt, w_end)
                       /\ read_pdg_mass particles particle w0
                          = (ok tt, w_end)
                       /\ for_each after (read_pdg_particle particles) w_end
                          = (ok tt, w'))).
Proof.
  assert (Hblank : forall line,
             Str.is_empty (Str.strip (Str.slice 70 88 line)) = true ->
             read_width line = ok (0, 0, 0)%R).
  { intros line Hb. unfold read_width. by rewrite Hb. }
  assert (Hskip : forall particles particle entry (w : world),
             Dict.get particle particles = Some entry ->
             (particle_width entry).1.1 = 0%R ->
             read_pdg_particle particles particle w
             = read_pdg_mass particles particle w).
  { intros particles particle entry w Hget Hzero.
    unfold read_pdg_particle, mbind.
    destruct (read_pdg_mass particles particle w) as [[e|[]] w1]; [done|].
    unfold lift, Dict.getitem. rewrite Hget. simpl.
    by rewrite Hzero, Reqb_refl. }
  split; [exact Hblank|]. split; [|split; [|split]].
  - intros lines particles key entry Hparse Hget.
    destruct (parse_read_from lines particles key entry Hparse Hget)
      as (line & i & Hline & Hrec & Hkey).
    exists line, i. repeat split; try done.
    intros Hb. pose proof (record_width _ _ _ Hrec) as Hwidth.
    rewrite (Hblank line Hb) in Hwidth. by injection Hwidth.
  - intros lines particles line name charge Hparse Hline Hlists Hall.
    destruct (parse_keeps lines particles line name charge Hparse Hline
                Hlists)
      as [(entry & Hget & Hown)|(entry & Hget & _ & Hown)].
    + left. exists entry. split; [exact Hget|].
      by apply (read_from_blank lines name charge).
    + right. exists entry. split; [exact Hget|]. intros Hclear.
      by apply (read_from_blank lines name charge), Hown.
  - intros particles particle entry w translated Hget Hzero.
    split; [by apply (Hskip particles particle entry)|].
    intros w_end Hrun.
    rewrite (Hskip particles particle entry w Hget Hzero) in Hrun.
    destruct (read_pdg_mass_ok particles particle w w_end Hrun)
      as (entry' & d & w1 & Hget' & Hready & Hd & Hadd & _ & Hother).
    rewrite Hget in Hget'. injection Hget' as <-.
    exists w1, d. repeat split; try done.
    apply Hother, mass_name_is_no_lifetime_name.
  - intros lines w w'. unfold read_pdg, mbind, lift.
    destruct (_read_pdg_masswidth lines) as [?|particles]; [discriminate|].
    intros Hrun. exists particles. split; [reflexivity|].
    intros particle Hin.
    destruct (for_each_ok_split (read_pdg_particle particles) pdg_include
                particle w w' Hrun Hin)
      as (before & after & w0 & w_end & Hsplit & Hbefore & Hbody & Hafter).
    destruct (read_pdg_particle_ok particles particle w0 w_end Hbody)
      as (entry & wm & Hget & Hmass & Hzero & _).
    exists entry. split; [exact Hget|]. intros Hz.
    exists before, after, w0, w_end. repeat split; try done.
    by rewrite (Hzero Hz).
Qed.


End PdgLoaderFacts.

(** ** Runs of the PDG loader *)

(** The members of a list that is given, one by one. *)
Ltac each_member H :=
  lazymatch type of H with
  | _ \/ _ => destruct H as [H|H]; [|each_member H]
  | False => destruct H
  | _ => idtac
  end.

(** What a given line lists. *)
Ltac read_line H :=
  let first := fresh "first" in
  let charge_list := fresh "charge_list" in
  let raw := fresh "raw" in
  let Hfirst := fresh "Hfirst" in
  let Hstar := fresh "Hstar" in
  let Hname := fresh "Hname" in
  let Hcl := fresh "Hcl" in
  let Hraw := fresh "Hraw" in
  let Hcharge := fresh "Hcharge" in
  destruct H as (first & charge_list & raw & Hfirst & Hstar & Hname & Hcl
                 & Hraw & Hcharge);
  vm_compute in Hfirst; injection Hfirst as <-;
  try (exfalso; by apply Hstar);
  vm_compute in Hname; try discriminate; injection Hname as <-;
  vm_compute in Hcl; injection Hcl as <-;
  apply list_elem_of_In in Hraw; vm_compute in Hraw;
  each_member Hraw; subst raw; vm_compute in Hcharge.

Lemma reference_table_blank line :
  line ∈ Reference.table ->
  line_lists line "B*" "0" ->
  Str.is_empty (Str.strip (Str.slice 70 88 line)) = true.
Proof.
  intros Hin Hlists. apply list_elem_of_In in Hin. simpl in Hin.
  each_member Hin; subst line; try reflexivity;
    exfalso; read_line Hlists; discriminate.
Qed.

Lemma reference_table_unambiguous :
  unambiguous Reference.table "B*" "0".
Proof.
  intros line' name' charge' Hin Hlists.
  apply list_elem_of_In in Hin. simpl in Hin.
  each_member Hin; subst line'; read_line Hlists; subst charge';
    (split; [discriminate|]); vm_compute; try discriminate; done.
Qed.

Lemma reference_table_lists_B_star charge :
  charge ∈ ["0"; "+"] ->
  line_lists
    (Reference.row "     513     523" "5.32465E+00" "+2.5E-04" "-2.5E-04"
       "" "" "" "B*                0,+")
    "B*" charge.
Proof.
  intros Hcharge. exists "5"%char, "0,+", charge.
  split; [reflexivity|]. split; [discriminate|].
  split; [reflexivity|]. split; [reflexivity|].
  split; [exact Hcharge|].
  apply list_elem_of_In in Hcharge. simpl in Hcharge.
  each_member Hcharge; by subst charge.
Qed.

Lemma blank_width_row_witness :
  exists particles entry,
    _read_pdg_masswidth (C := Reference.collaborators) Reference.table
    = ok particles
    /\ Dict.get "B*0" particles = Some entry
    /\ particle_width entry = (0, 0, 0)%R
    /\ forall w : world,
         read_pdg_particle (C := Reference.collaborators) particles "B*0" w
         = read_pdg_mass particles "B*0" w.
Proof.
  destruct (blank_width_row_gets_the_mass_constraint_only
              (C := Reference.collaborators))
    as (_ & _ & Hforward & Hbody & _).
  destruct (_read_pdg_masswidth (C := Reference.collaborators) Reference.table)
    as [e|particles] eqn:Hparse.
  { vm_compute in Hparse. discriminate. }
  assert (Hline : Reference.row "     513     523" "5.32465E+00" "+2.5E-04"
                    "-2.5E-04" "" "" "" "B*                0,+"
                  ∈ Reference.table) by (by apply (bool_decide_unpack _)).
  assert (Hcharge : "0" ∈ ["0"; "+"]) by (by apply (bool_decide_unpack _)).
  destruct (Hforward Reference.table particles _ "B*" "0" Hparse Hline
              (reference_table_lists_B_star "0" Hcharge)
              reference_table_blank)
    as [(entry & Hget & Hwidth)|(entry & Hget & Hwidth)].
  { exfalso. vm_compute in Hparse. injection Hparse as <-.
    vm_compute in Hget. discriminate. }
  specialize (Hwidth reference_table_unambiguous).
  exists particles, entry. split; [reflexivity|]. split; [exact Hget|].
  split; [exact Hwidth|]. intros w.
  apply (Hbody particles "B*0" entry w Hget). by rewrite Hwidth.
Defined.

(** Two particles with one key: the rows [B 0] and [B +] give the keys
    [B0] and [B+], the row [B0 0] gives the key [B0] again, and the record
    of the first row (ID 511) is not in the result. *)
Example colliding_keys_lose_a_record :
  exists particles,
    _read_pdg_masswidth (C := Reference.collaborators)
      [Reference.row "     511" "5.27963E+00" "+1.5E-04" "-1.5E-04"
         "4.330E-13" "+1.1E-15" "-1.1E-15" "B                   0";
       Reference.row "     521" "5.27932E+00" "+1.4E-04" "-1.4E-04"
         "4.018E-13" "+1.0E-15" "-1.0E-15" "B                   +";
       Reference.row "     999" "1.0E+00" "+1.0E-02" "-1.0E-02"
         "" "" "" "B0                  0"]
    = ok particles
    /\ map (fun kv => (kv.1, particle_id kv.2)) particles
       = [("B0", "999"); ("B+", "521")].
Proof.
  match goal with
  | |- exists particles, ?parse = _ /\ _ =>
      destruct parse as [e|particles] eqn:Hparse
  end.
  - vm_compute in Hparse. discriminate.
  - exists particles. split; [reflexivity|].
    vm_compute in Hparse. injection Hparse as <-. reflexivity.
Qed.


(** The B0 mass is registered and constrained to 5 +- 1 when the loader
    starts on the table of all particles. *)
Lemma pdg_loader_overwrites_witness :
  let w : world :=
    @mk_world Permissive.collaborators
      {["m_B0" := new_parameter]} [(["m_B0"], Reference.Normal 5 1)] in
  exists (w' : world) particles entry d (w0 w1 wm : world),
    read_pdg (C := Permissive.collaborators) Permissive.table w = (ok tt, w')
    /\ _read_pdg_masswidth (C := Permissive.collaborators) Permissive.table
       = ok particles
    /\ Dict.get "B0" particles = Some entry
    /\ read_pdg_mass (C := Permissive.collaborators) particles "B0" w0
       = (ok tt, wm)
    /\ made_ready "m_B0" w0 w1
    /\ mass_distribution (particle_mass entry) = ok d
    /\ add_constraint (Collaborators := Permissive.collaborators)
         ["m_B0"] d (constraints w1) = ok (constraints wm).
Proof.
  intros w.
  destruct permissive_table_parses as (particles & Hparse & Hall).
  destruct (read_pdg_particles_succeed (C := Permissive.collaborators)
              permissive_normal_ok permissive_asymmetric_ok
              permissive_add_ok permissive_remove_KeyError
              particles pdg_include w Hall) as [w' Hloop].
  assert (Hrun : read_pdg (C := Permissive.collaborators) Permissive.table w
                 = (ok tt, w')).
  { unfold read_pdg, mbind, lift. rewrite Hparse. exact Hloop. }
  destruct (pdg_loader_overwrites_constraints_of_included_particles
              (C := Permissive.collaborators) Permissive.table w w' Hrun)
    as (particles' & Hparse' & Hevery).
  assert (Hin : "B0" ∈ pdg_include) by (by apply (bool_decide_unpack _)).
  destruct (Hevery "B0" Hin)
    as (before & after & w0 & w_end & entry & w1 & d & wm
        & _ & _ & _ & _ & Hget & Hmass & Hready & Hd & Hadd & _).
  exists w', particles', entry, d, w0, w1, wm.
  repeat split; done.
Defined.
